(** * ParticleSolver: the simulation driver of [cpu/src/simulation.cpp]

    A shallow embedding of [Simulation::clear], [Simulation::init],
    [Simulation::tick], [Simulation::createRigidBody] and
    [Simulation::mousePressed], with the properties the specification
    states about them, followed by [Simulation::createGas],
    [Simulation::createFluid], [Simulation::getNumParticles] and
    [Simulation::getKineticEnergy] and by further properties of the driver
    read off the code.  The covered source is [simulation.cpp]; what it uses
    from the headers of [Particle], [Body], the constraint classes and the
    solver is either a parameter or modelled from the specification, and
    says so.

    Conventions.
    - A C++ [double] is an IEEE-754 binary64 number: Rocq's primitive
      [float], with the primitive operations (round to nearest even).
    - [QList<Particle *> m_particles] owns its particles and every particle
      is reached through its index only: it is a [list Particle], and a
      mutation through [m_particles[i]] is an in-place list update.
    - [Constraint *] values are shared (a body's [shape] slot, the global
      groups and the per-tick map all hold the same pointers), so
      constraints live in an explicit free store and lists hold addresses.
    - [exit(1)] is an outcome of its own, carrying the diagnostic written
      to [cout]. *)

From Stdlib Require Import ZArith Floats String.
From stdpp Require Import list gmap.

#[local] Set Warnings "-inexact-float,-clear-no-such-hyp".

Set Default Proof Using "Type".

Definition double : Set := float.

(** ** glm: two-component double vectors

    [glm] is the external vector library the source includes; its [dvec2]
    operations are written out component by component as glm defines them. *)
Module glm.
#[local] Open Scope float_scope.

Record dvec2 : Set := vec2 { x : double; y : double }.

Definition zero : dvec2 := vec2 0 0.

(** [a + b], [a - b] *)
Definition add (a b : dvec2) : dvec2 := vec2 (x a + x b) (y a + y b).
Definition sub (a b : dvec2) : dvec2 := vec2 (x a - x b) (y a - y b).

(** [s * a] and [a * s] (glm multiplies each component by the scalar) *)
Definition scale (s : double) (a : dvec2) : dvec2 := vec2 (s * x a) (s * y a).
Definition times (a : dvec2) (s : double) : dvec2 := vec2 (x a * s) (y a * s).

(** [a / s] *)
Definition over (a : dvec2) (s : double) : dvec2 := vec2 (x a / s) (y a / s).

(** [glm::dot], [glm::length], [glm::distance], [glm::inversesqrt],
    [glm::normalize] *)
Definition dot (a b : dvec2) : double := (x a * x b + y a * y b)%float.
Definition length (a : dvec2) : double := PrimFloat.sqrt (dot a a).
Definition distance (p0 p1 : dvec2) : double := length (sub p1 p0).
Definition inversesqrt (s : double) : double := (1 / PrimFloat.sqrt s)%float.
Definition normalize (a : dvec2) : dvec2 := times a (inversesqrt (dot a a)).

End glm.

Abbreviation dvec2 := glm.dvec2.

(** ** Particles *)

(** Modelled from the spec: [enum Phase] is declared in a header that is not
    among the covered sources; the spec's data model lists the four phase tags. *)
Inductive Phase : Set := SOLID | FLUID | GAS | GRANULAR.

Definition Phase_eqb (a b : Phase) : bool :=
  match a, b with
  | SOLID, SOLID | FLUID, FLUID | GAS, GAS | GRANULAR, GRANULAR => true
  | _, _ => false
  end.

(** Modelled from the spec: [struct Particle] is declared in a header that is
    not among the covered sources.  The fields are the ones [simulation.cpp] reads and
    writes ([p], [ep], [v], [imass], [ph], [bod], [sFriction], [kFriction])
    and the two the spec's data model adds (mass scale [sm], sleep flag). *)
Record Particle : Set := mkParticle {
  p : dvec2;
  ep : dvec2;
  v : dvec2;
  imass : double;
  ph : Phase;
  bod : Z;
  sFriction : double;
  kFriction : double;
  sm : double;
  sleeping : bool
}.

Definition set_p (q : Particle) (a : dvec2) : Particle :=
  mkParticle a (ep q) (v q) (imass q) (ph q) (bod q) (sFriction q) (kFriction q) (sm q) (sleeping q).
Definition set_ep (q : Particle) (a : dvec2) : Particle :=
  mkParticle (p q) a (v q) (imass q) (ph q) (bod q) (sFriction q) (kFriction q) (sm q) (sleeping q).
Definition set_v (q : Particle) (a : dvec2) : Particle :=
  mkParticle (p q) (ep q) a (imass q) (ph q) (bod q) (sFriction q) (kFriction q) (sm q) (sleeping q).
Definition set_ph (q : Particle) (a : Phase) : Particle :=
  mkParticle (p q) (ep q) (v q) (imass q) a (bod q) (sFriction q) (kFriction q) (sm q) (sleeping q).
Definition set_bod (q : Particle) (a : Z) : Particle :=
  mkParticle (p q) (ep q) (v q) (imass q) (ph q) a (sFriction q) (kFriction q) (sm q) (sleeping q).
Definition set_sleeping (q : Particle) (a : bool) : Particle :=
  mkParticle (p q) (ep q) (v q) (imass q) (ph q) (bod q) (sFriction q) (kFriction q) (sm q) a.

(** Modelled from the spec: [Particle::guess] is defined in a header that is
    not among the covered sources.  Spec 4.1: "guess(dt) -> ep: returns p + dt·v". *)
Definition guess (q : Particle) (seconds : double) : dvec2 :=
  glm.add (p q) (glm.scale seconds (v q)).

(** Modelled from the spec: [Particle::confirmGuess] is defined in a header
    that is not among the covered sources.  Spec 4.1: "copies ep to p unless sleeping.
    Sleep policy: if ‖ep − p‖ < sleepEps for the tick, set v = 0 and skip
    position update; otherwise wake." *)
Definition confirmGuess (sleepEps : double) (q : Particle) : Particle :=
  if (glm.length (glm.sub (ep q) (p q)) <? sleepEps)%float
  then set_sleeping (set_v q glm.zero) true
  else set_sleeping (set_p q (ep q)) false.

(** [for (int i = 0; i < m_particles.size(); i++) { Particle *p = m_particles[i]; ... }]
    with a body that mutates [*p] only: the particle at each index is
    replaced in place, indices ascending. *)
Definition for_particles (body : Particle -> Particle) (ps : list Particle) : list Particle :=
  foldl (fun acc i => match acc !! i with
                      | Some q => <[i := body q]> acc
                      | None => acc
                      end)
        ps (seq 0 (List.length ps)).

(** ** Constraints and the free store *)

Abbreviation ptr := nat.

(** The constraint classes [simulation.cpp] instantiates, with the arguments
    it passes to their constructors ([&m_bodies], [&m_particles] and the
    [Body *] of a shape constraint are references into the simulation: the
    body is named by its index in [m_bodies]).  An optional trailing argument
    is [None] where the call leaves it to its default. *)
Inductive Constraint : Set :=
| DistanceConstraint (i j : nat)
| TotalShapeConstraint (body : nat)
| BoundaryConstraint (idx : nat) (val : double) (xBoundary greater : bool) (stabile : option bool)
| ContactConstraint (i j : nat)
| RigidContactConstraint (i j : nat)
| TotalFluidConstraint (density : double) (indices : list nat)
| GasConstraint (density : double) (indices : list nat).

(** The free store of constraint objects.  [new] takes the next address and
    never reuses one; [delete] empties the cell. *)
Abbreviation Store := (list (option Constraint)).

Definition deref (h : Store) (a : ptr) : option Constraint := mjoin (h !! a).
Definition new_ (c : Constraint) (h : Store) : ptr * Store := (List.length h, h ++ [Some c]).
Definition delete_ (a : ptr) (h : Store) : Store := <[a := None]> h.

(** Modelled from the spec: [enum ConstraintGroup] is declared in a header
    that is not among the covered sources.  The spec names the four groups and fixes the
    order in which an index loop over the groups meets them: CONTACT, then
    STANDARD, then SHAPE; STABILIZATION is given the remaining first place. *)
Inductive ConstraintGroup : Set := STABILIZATION | CONTACT | STANDARD | SHAPE.

Definition NUM_CONSTRAINT_GROUPS : nat := 4.

Definition group_index (g : ConstraintGroup) : nat :=
  match g with STABILIZATION => 0 | CONTACT => 1 | STANDARD => 2 | SHAPE => 3 end.

(** The cast [(ConstraintGroup) i] *)
Definition group_of_int (i : nat) : option ConstraintGroup :=
  match i with
  | 0 => Some STABILIZATION
  | 1 => Some CONTACT
  | 2 => Some STANDARD
  | 3 => Some SHAPE
  | _ => None
  end.

Lemma group_of_int_index g : group_of_int (group_index g) = Some g.
Proof. by destruct g. Qed.

#[global] Instance ConstraintGroup_eq_dec : EqDecision ConstraintGroup.
Proof. solve_decision. Defined.

#[global] Instance ConstraintGroup_countable : Countable ConstraintGroup.
Proof.
  apply (inj_countable group_index group_of_int). apply group_of_int_index.
Defined.

(** [QHash<ConstraintGroup, QList<Constraint *> >] *)
Abbreviation QHash := (gmap ConstraintGroup (list ptr)).

(** Reading [h[g]]: the list under [g], the empty list when the key is absent. *)
Definition at_ (g : ConstraintGroup) (h : QHash) : list ptr := default [] (h !! g).

(** The non-const [operator[]] inserts a default-constructed (empty) list
    under a key that is absent. *)
Definition touch (g : ConstraintGroup) (h : QHash) : QHash :=
  match h !! g with Some _ => h | None => <[g := []]> h end.

(** [h[g].append(a)] *)
Definition append (g : ConstraintGroup) (a : ptr) (h : QHash) : QHash :=
  <[g := at_ g h ++ [a]]> h.

(** [h.contains(g)] *)
Definition contains (g : ConstraintGroup) (h : QHash) : bool := bool_decide (is_Some (h !! g)).

(** [h[g].append(new C(...))] on the pair of a hash and the store *)
Definition emplace (g : ConstraintGroup) (c : Constraint) (st : QHash * Store) : QHash * Store :=
  let '(a, h') := new_ c st.2 in (append g a st.1, h').

(** ** Bodies *)

Record SDFData : Set := mkSDF { sdf_normal : dvec2; sdf_distance : double }.

(** Modelled from the spec: [struct Body] is declared in a header that is not
    among the covered sources.  The fields are the ones [createRigidBody] writes
    ([particles], [sdf], [imass], [shape]) and the two the spec's data model
    adds (center of mass, reference offsets [r_i]). *)
Module Body.
Record t : Type := mk {
  particles : list nat;
  sdf : gmap nat SDFData;
  imass : double;
  shape : option ptr;
  com : dvec2;
  rs : gmap nat dvec2
}.

(** [new Body()] *)
Definition fresh : t := mk [] ∅ 0%float None glm.zero ∅.

Definition set_imass (b : t) (m : double) : t :=
  mk (particles b) (sdf b) m (shape b) (com b) (rs b).
Definition set_shape (b : t) (c : option ptr) : t :=
  mk (particles b) (sdf b) (imass b) c (com b) (rs b).
(** [particles.append(i); sdf[i] = d] *)
Definition add_particle (b : t) (i : nat) (d : SDFData) : t :=
  mk (particles b ++ [i]) (<[i := d]> (sdf b)) (imass b) (shape b) (com b) (rs b).
End Body.

(** ** Outcomes: a call returns, or the process exits with a diagnostic *)

(** [Returned]: the call returns.  [Exited]: [exit(code)] after the
    diagnostic was written to [cout].  [OutOfRange]: [QList::at] was called
    with an index that is not a valid position of the list, which Qt leaves
    undefined (an assertion failure in a debug build). *)
Inductive Outcome (A : Type) : Type :=
| Returned (a : A)
| Exited (code : Z) (diagnostic : string)
| OutOfRange.
Arguments Returned {A} a.
Arguments Exited {A} code diagnostic.
Arguments OutOfRange {A}.

Definition Outcome_map {A B} (f : A -> B) (o : Outcome A) : Outcome B :=
  match o with
  | Returned a => Returned (f a)
  | Exited c d => Exited c d
  | OutOfRange => OutOfRange
  end.

(** Modelled from the spec: [enum SimulationType] is declared in a header that
    is not among the covered sources.  The tags are the eight scene tags of the spec, which
    are the [case] labels of [Simulation::init]; [OtherSimulationType] stands
    for any other value of the enumeration, which takes the [default] label. *)
Inductive SimulationType : Set :=
| FRICTION_TEST | GRANULAR_TEST | STACKS_TEST | WALL_TEST
| PENDULUM_TEST | FLUID_TEST | FLUID_SOLID_TEST | GAS_TEST
| OtherSimulationType (n : Z).

(** ** Build-time constants and the classes that are not in [simulation.cpp] *)

(** The macros the driver reads, and the sleep threshold of the spec's
    [confirmGuess].  Their definitions are in headers that are not among the
    covered sources: every result below holds for all values. *)
Record Config : Set := mkConfig {
  PARTICLE_DIAM : double;
  PARTICLE_RAD : double;
  EPSILON : double;
  ALPHA : double;
  sleepEps : double;
  SOLVER_ITERATIONS : Z;
  STABILIZATION_ITERATIONS : Z;
  USE_STABILIZATION : bool;
  ITERATIVE : bool
}.

(** The member functions of [Particle], [Body], [Constraint] and the matrix
    solver that the driver calls and whose bodies are not among the covered sources (and for
    which the spec fixes no formula).  The constraint list handed to the
    solver is a list of pointers, read through the store. *)
Record Externals (Solver : Type) : Type := mkExternals {
  scaleMass : Particle -> Particle;
  project : list Body.t -> Constraint -> list Particle -> list Particle;
  setupM : Solver -> list Particle -> option bool -> Solver;
  setupSizes : Solver -> nat -> Store -> list ptr -> Solver;
  solveAndUpdate : Solver -> list Body.t -> Store -> list Particle -> list ptr -> option bool
                   -> Solver * list Particle;
  updateCOM : Body.t -> list Particle -> bool -> Body.t;
  computeRs : Body.t -> list Particle -> Body.t
}.
Arguments scaleMass {Solver} _ _.
Arguments project {Solver} _ _ _ _.
Arguments setupM {Solver} _ _ _ _.
Arguments setupSizes {Solver} _ _ _ _ _.
Arguments solveAndUpdate {Solver} _ _ _ _ _ _ _.
Arguments updateCOM {Solver} _ _ _ _.
Arguments computeRs {Solver} _ _ _.

(** ** The simulation *)

(** The members of [class Simulation] that [simulation.cpp] uses, and the
    free store its constraint pointers point into. *)
Record Simulation (Solver : Type) : Type := mkSim {
  m_particles : list Particle;
  m_bodies : list Body.t;
  m_globalConstraints : QHash;
  m_gravity : dvec2;
  m_xBoundaries : dvec2;
  m_yBoundaries : dvec2;
  m_point : dvec2;
  m_dimensions : Z * Z;
  m_standardSolver : Solver;
  m_contactSolver : Solver;
  debug : bool;
  heap : Store
}.
Arguments mkSim {Solver} _ _ _ _ _ _ _ _ _ _ _ _.
Arguments m_particles {Solver} _.
Arguments m_bodies {Solver} _.
Arguments m_globalConstraints {Solver} _.
Arguments m_gravity {Solver} _.
Arguments m_xBoundaries {Solver} _.
Arguments m_yBoundaries {Solver} _.
Arguments m_point {Solver} _.
Arguments m_dimensions {Solver} _.
Arguments m_standardSolver {Solver} _.
Arguments m_contactSolver {Solver} _.
Arguments debug {Solver} _.
Arguments heap {Solver} _.

Section Setters.
Context {Solver : Type}.
Implicit Type s : Simulation Solver.

Definition set_particles s (ps : list Particle) : Simulation Solver :=
  mkSim ps (m_bodies s) (m_globalConstraints s) (m_gravity s) (m_xBoundaries s)
        (m_yBoundaries s) (m_point s) (m_dimensions s) (m_standardSolver s)
        (m_contactSolver s) (debug s) (heap s).
Definition set_bodies s (bs : list Body.t) : Simulation Solver :=
  mkSim (m_particles s) bs (m_globalConstraints s) (m_gravity s) (m_xBoundaries s)
        (m_yBoundaries s) (m_point s) (m_dimensions s) (m_standardSolver s)
        (m_contactSolver s) (debug s) (heap s).
Definition set_globalConstraints s (gc : QHash) : Simulation Solver :=
  mkSim (m_particles s) (m_bodies s) gc (m_gravity s) (m_xBoundaries s)
        (m_yBoundaries s) (m_point s) (m_dimensions s) (m_standardSolver s)
        (m_contactSolver s) (debug s) (heap s).
Definition set_gravity s (g : dvec2) : Simulation Solver :=
  mkSim (m_particles s) (m_bodies s) (m_globalConstraints s) g (m_xBoundaries s)
        (m_yBoundaries s) (m_point s) (m_dimensions s) (m_standardSolver s)
        (m_contactSolver s) (debug s) (heap s).
Definition set_point s (a : dvec2) : Simulation Solver :=
  mkSim (m_particles s) (m_bodies s) (m_globalConstraints s) (m_gravity s) (m_xBoundaries s)
        (m_yBoundaries s) a (m_dimensions s) (m_standardSolver s)
        (m_contactSolver s) (debug s) (heap s).
Definition set_standardSolver s (sv : Solver) : Simulation Solver :=
  mkSim (m_particles s) (m_bodies s) (m_globalConstraints s) (m_gravity s) (m_xBoundaries s)
        (m_yBoundaries s) (m_point s) (m_dimensions s) sv
        (m_contactSolver s) (debug s) (heap s).
Definition set_contactSolver s (sv : Solver) : Simulation Solver :=
  mkSim (m_particles s) (m_bodies s) (m_globalConstraints s) (m_gravity s) (m_xBoundaries s)
        (m_yBoundaries s) (m_point s) (m_dimensions s) (m_standardSolver s)
        sv (debug s) (heap s).
Definition set_heap s (h : Store) : Simulation Solver :=
  mkSim (m_particles s) (m_bodies s) (m_globalConstraints s) (m_gravity s) (m_xBoundaries s)
        (m_yBoundaries s) (m_point s) (m_dimensions s) (m_standardSolver s)
        (m_contactSolver s) (debug s) h.
End Setters.

(** The scene builders [initFriction] ... [initGas] of [simulation.cpp].
    They place particles through the constructors of [Particle] and
    [DistanceConstraint] and through [frand], none of which is among the covered sources;
    [Simulation::init] is stated for arbitrary builders. *)
Record Scenes (Solver : Type) : Type := mkScenes {
  initFriction : Simulation Solver -> Simulation Solver;
  initGranular : Simulation Solver -> Simulation Solver;
  initBoxes : Simulation Solver -> Simulation Solver;
  initWall : Simulation Solver -> Simulation Solver;
  initPendulum : Simulation Solver -> Simulation Solver;
  initFluid : Simulation Solver -> Simulation Solver;
  initFluidSolid : Simulation Solver -> Simulation Solver;
  initGas : Simulation Solver -> Simulation Solver
}.
Arguments initFriction {Solver} _ _.
Arguments initGranular {Solver} _ _.
Arguments initBoxes {Solver} _ _.
Arguments initWall {Solver} _ _.
Arguments initPendulum {Solver} _ _.
Arguments initFluid {Solver} _ _.
Arguments initFluidSolid {Solver} _ _.
Arguments initGas {Solver} _ _.

(** The state of a running [tick]: the simulation and the local
    [QHash<ConstraintGroup, QList<Constraint *> > constraints].  Only the
    lists of the local map are ever observed, so reading [constraints[g]]
    is [at_ g] (the key an [operator[]] read would insert holds the empty
    list). *)
Record Frame (Solver : Type) : Type := mkFrame {
  sim : Simulation Solver;
  constraints : QHash
}.
Arguments mkFrame {Solver} _ _.
Arguments sim {Solver} _.
Arguments constraints {Solver} _.

(** ** The driver *)

Section Driver.
Context (cfg : Config) {Solver : Type} (ext : Externals Solver) (scenes : Scenes Solver).
Implicit Type s : Simulation Solver.
Implicit Type f : Frame Solver.
Implicit Type st : QHash * Store.

(** *** [Simulation::tick], lines 87-95: the bodies' shape constraints *)

(** [dynamic_cast<TotalShapeConstraint *>(b->shape)]: the pointer itself
    when it points to a [TotalShapeConstraint], null otherwise (also for a
    pointer whose object has been deleted, where C++ leaves the cast
    undefined). *)
Definition dynamic_cast_shape (h : Store) (c : option ptr) : option ptr :=
  match c with
  | None => None
  | Some a => match deref h a with
              | Some (TotalShapeConstraint _) => Some a
              | _ => None
              end
  end.

Fixpoint gather_shapes (h : Store) (bodies : list Body.t) (cs : QHash) : Outcome QHash :=
  match bodies with
  | [] => Returned cs
  | b :: rest =>
      match dynamic_cast_shape h (Body.shape b) with
      | Some c => gather_shapes h rest (append SHAPE c cs)
      | None => Exited 1 "Rigid body's attached constraint was not a shape constraint."
      end
  end.

(** *** lines 98-103: the global constraints

    [for (int i = 0; i < m_globalConstraints.size(); i++)] reads
    [m_globalConstraints[(ConstraintGroup) i]] through the non-const
    [operator[]], which inserts the key when it is absent, so the bound is
    read again at every iteration.  A hash keyed by the four groups has at
    most four keys ([QHash_size_le] below), so the index never reaches
    [NUM_CONSTRAINT_GROUPS]. *)
Definition append_all (g : ConstraintGroup) (group : list ptr) (cs : QHash) : QHash :=
  foldl (fun acc a => append g a acc) cs group.

Fixpoint gather_globals_from (indices : list nat) (gc cs : QHash) : QHash * QHash :=
  match indices with
  | [] => (gc, cs)
  | i :: rest =>
      if decide (i < size gc) then
        match group_of_int i with
        | Some g => gather_globals_from rest (touch g gc) (append_all g (at_ g gc) cs)
        | None => (gc, cs)
        end
      else (gc, cs)
  end.

Definition gather_globals (gc cs : QHash) : QHash * QHash :=
  gather_globals_from (seq 0 (S NUM_CONSTRAINT_GROUPS)) gc cs.

(** *** lines 106-119: forces and prediction *)
Definition apply_forces (gravity : dvec2) (seconds : double) (q : Particle) : Particle :=
  let myGravity := if Phase_eqb (ph q) GAS then glm.times gravity (ALPHA cfg) else gravity in
  let q1 := set_v q (glm.add (v q) (glm.scale seconds myGravity)) in
  let q2 := set_ep q1 (guess q1 seconds) in
  scaleMass ext q2.

(** *** lines 129-157: particle-particle contacts *)
Definition pair_contact (i j : nat) (q q2 : Particle) st : QHash * Store :=
  if (imass q =? 0)%float && (imass q2 =? 0)%float then st
  else if Phase_eqb (ph q) SOLID && Phase_eqb (ph q2) SOLID
          && (bod q =? bod q2)%Z && negb (bod q =? -1)%Z then st
  else
    let dist := glm.distance (ep q) (ep q2) in
    if (dist <? PARTICLE_DIAM cfg - EPSILON cfg)%float then
      if Phase_eqb (ph q) SOLID && Phase_eqb (ph q2) SOLID then
        let st1 := emplace CONTACT (RigidContactConstraint i j) st in
        if USE_STABILIZATION cfg
        then emplace STABILIZATION (RigidContactConstraint i j) st1
        else st1
      else if Phase_eqb (ph q) SOLID || Phase_eqb (ph q2) SOLID then
        emplace CONTACT (ContactConstraint i j) st
      else st
    else st.

(** [for (int j = i + 1; j < m_particles.size(); j++)] over the particles
    that follow particle [i] *)
Fixpoint pairs_loop (i j : nat) (q : Particle) (others : list Particle) st : QHash * Store :=
  match others with
  | [] => st
  | q2 :: rest => pairs_loop i (S j) q rest (pair_contact i j q q2 st)
  end.

(** *** lines 160-182: boundary contacts *)
Definition boundary_hit (i : nat) (val : double) (xBoundary greater : bool) st : QHash * Store :=
  let st1 := emplace CONTACT (BoundaryConstraint i val xBoundary greater None) st in
  if USE_STABILIZATION cfg
  then emplace STABILIZATION (BoundaryConstraint i val xBoundary greater (Some true)) st1
  else st1.

Definition boundary_contact (xB yB : dvec2) (i : nat) (q : Particle) st : QHash * Store :=
  let st1 :=
    if (glm.x (ep q) <? glm.x xB + PARTICLE_RAD cfg)%float
    then boundary_hit i (glm.x xB) true true st
    else if (glm.y xB - PARTICLE_RAD cfg <? glm.x (ep q))%float
    then boundary_hit i (glm.y xB) true false st
    else st in
  if (glm.y (ep q) <? glm.x yB + PARTICLE_RAD cfg)%float
  then boundary_hit i (glm.x yB) false true st1
  else if (glm.y yB - PARTICLE_RAD cfg <? glm.y (ep q))%float
  then boundary_hit i (glm.y yB) false false st1
  else st1.

(** lines 125-183: [for (int i = 0; i < m_particles.size(); i++)] *)
Fixpoint discover_loop (xB yB : dvec2) (i : nat) (ps : list Particle) st : QHash * Store :=
  match ps with
  | [] => st
  | q :: rest =>
      discover_loop xB yB (S i) rest
        (boundary_contact xB yB i q (pairs_loop i (S i) q rest st))
  end.

(** *** Projection through a pointer

    [c->project(&m_particles)].  Projecting through a pointer whose object
    has been deleted is undefined in C++; the model leaves the particles
    as they are. *)
Definition project_at (bodies : list Body.t) (h : Store) (a : ptr) (ps : list Particle)
  : list Particle :=
  match deref h a with
  | Some c => project ext bodies c ps
  | None => ps
  end.

(** [for (int k = 0; k < constraints[g].size(); k++) constraints[g].at(k)->project(&m_particles);] *)
Definition project_group (bodies : list Body.t) (h : Store) (cs : QHash)
           (g : ConstraintGroup) (ps : list Particle) : list Particle :=
  foldl (fun acc a => project_at bodies h a acc) ps (at_ g cs).

(** *** lines 188-210: stabilization ([#ifdef USE_STABILIZATION]) *)
Fixpoint stabilize_loop (n : nat) (bodies : list Body.t) (h : Store) (cs : QHash)
         (sp : Solver * list Particle) : Solver * list Particle :=
  match n with
  | 0 => sp
  | S n' =>
      if ITERATIVE cfg then
        stabilize_loop n' bodies h cs (sp.1, project_group bodies h cs STABILIZATION sp.2)
      else if decide (0 < List.length (at_ STABILIZATION cs)) then
        stabilize_loop n' bodies h cs
          (solveAndUpdate ext sp.1 bodies h sp.2 (at_ STABILIZATION cs) (Some true))
      else sp
  end.

(** *** lines 212-231: the iterative solver ([#ifdef ITERATIVE]) *)
Definition solve_group_index (bodies : list Body.t) (h : Store) (cs : QHash)
           (ps : list Particle) (j : nat) : list Particle :=
  match group_of_int j with
  | Some g => if decide (g = STABILIZATION) then ps else project_group bodies h cs g ps
  | None => ps
  end.

Definition solve_iteration (bodies : list Body.t) (h : Store) (cs : QHash)
           (ps : list Particle) : list Particle :=
  foldl (solve_group_index bodies h cs) ps (seq 0 NUM_CONSTRAINT_GROUPS).

Fixpoint solve_iterative (n : nat) (bodies : list Body.t) (h : Store) (cs : QHash)
         (ps : list Particle) : list Particle :=
  match n with
  | 0 => ps
  | S n' => solve_iterative n' bodies h cs (solve_iteration bodies h cs ps)
  end.

(** *** lines 235-257: the batched solver ([#else]) *)
Definition solve_batched_iteration (bodies : list Body.t) (h : Store) (cs : QHash)
           (x : Solver * Solver * list Particle) : Solver * Solver * list Particle :=
  let '(standard, contact, ps) := x in
  let '(contact1, ps1) :=
    if decide (0 < List.length (at_ CONTACT cs))
    then solveAndUpdate ext contact bodies h ps (at_ CONTACT cs) None
    else (contact, ps) in
  let '(standard1, ps2) :=
    if decide (0 < List.length (at_ STANDARD cs))
    then solveAndUpdate ext standard bodies h ps1 (at_ STANDARD cs) None
    else (standard, ps1) in
  let ps3 :=
    if decide (0 < List.length (at_ SHAPE cs))
    then project_group bodies h cs SHAPE ps2
    else ps2 in
  (standard1, contact1, ps3).

Fixpoint solve_batched (n : nat) (bodies : list Body.t) (h : Store) (cs : QHash)
         (x : Solver * Solver * list Particle) : Solver * Solver * list Particle :=
  match n with
  | 0 => x
  | S n' => solve_batched n' bodies h cs (solve_batched_iteration bodies h cs x)
  end.

(** *** lines 261-272: velocities and positions *)
Definition update_velocity (seconds : double) (q : Particle) : Particle :=
  confirmGuess (sleepEps cfg) (set_v q (glm.over (glm.sub (ep q) (p q)) seconds)).

(** *** lines 276-285: the temporary constraints

    [for (int i = l.size()-1; i >= 0; i--) { c = l.at(i); l.removeAt(i); delete(c); }]
    with [n] the number of indices still to visit. *)
Fixpoint delete_group (g : ConstraintGroup) (n : nat) st : QHash * Store :=
  match n with
  | 0 => st
  | S i =>
      match at_ g st.1 !! i with
      | Some c => delete_group g i (<[g := delete i (at_ g st.1)]> st.1, delete_ c st.2)
      | None => st
      end
  end.

Definition delete_all (g : ConstraintGroup) st : QHash * Store :=
  delete_group g (List.length (at_ g st.1)) st.

(** *** [Simulation::tick], phase by phase *)

(** lines 84-103 *)
Definition gather s : Outcome (Frame Solver) :=
  Outcome_map
    (fun cs0 =>
       let r := gather_globals (m_globalConstraints s) cs0 in
       mkFrame (set_globalConstraints s r.1) r.2)
    (gather_shapes (heap s) (m_bodies s) ∅).

(** lines 106-122 *)
Definition predict (seconds : double) f : Frame Solver :=
  let ps := for_particles (apply_forces (m_gravity (sim f)) seconds) (m_particles (sim f)) in
  let s1 := set_particles (sim f) ps in
  mkFrame (set_contactSolver s1 (setupM ext (m_contactSolver s1) ps (Some true)))
          (constraints f).

(** lines 125-186 *)
Definition discover f : Frame Solver :=
  let s := sim f in
  let r := discover_loop (m_xBoundaries s) (m_yBoundaries s) 0 (m_particles s)
                         (constraints f, heap s) in
  let s1 := set_heap s r.2 in
  mkFrame (set_contactSolver s1
             (setupSizes ext (m_contactSolver s1) (List.length (m_particles s)) r.2
                         (at_ STABILIZATION r.1)))
          r.1.

(** lines 188-210 *)
Definition stabilize f : Frame Solver :=
  if USE_STABILIZATION cfg then
    let s := sim f in
    let r := stabilize_loop (Z.to_nat (STABILIZATION_ITERATIONS cfg)) (m_bodies s) (heap s)
                            (constraints f) (m_contactSolver s, m_particles s) in
    mkFrame (set_contactSolver (set_particles s r.2) r.1) (constraints f)
  else f.

(** lines 212-258 *)
Definition solve f : Frame Solver :=
  let s := sim f in
  let cs := constraints f in
  let n := Z.to_nat (SOLVER_ITERATIONS cfg) in
  if ITERATIVE cfg then
    mkFrame (set_particles s (solve_iterative n (m_bodies s) (heap s) cs (m_particles s))) cs
  else
    let standard0 := setupSizes ext (m_standardSolver s) (List.length (m_particles s))
                                (heap s) (at_ STANDARD cs) in
    let contact0 := setupSizes ext (m_contactSolver s) (List.length (m_particles s))
                               (heap s) (at_ CONTACT cs) in
    let r := solve_batched n (m_bodies s) (heap s) cs (standard0, contact0, m_particles s) in
    mkFrame (set_standardSolver (set_contactSolver (set_particles s r.2) r.1.2) r.1.1) cs.

(** lines 261-272 *)
Definition recover (seconds : double) f : Frame Solver :=
  mkFrame (set_particles (sim f) (for_particles (update_velocity seconds) (m_particles (sim f))))
          (constraints f).

(** lines 276-285 *)
Definition teardown f : Frame Solver :=
  let r := delete_all STABILIZATION (delete_all CONTACT (constraints f, heap (sim f))) in
  mkFrame (set_heap (sim f) r.2) r.1.

(** The frame [tick] ends with, and [tick] itself ([constraints] is a
    local variable: the simulation is what remains). *)
Definition tick_frame s (seconds : double) : Outcome (Frame Solver) :=
  Outcome_map
    (fun f => teardown (recover seconds (solve (stabilize (discover (predict seconds f))))))
    (gather s).

Definition tick s (seconds : double) : Outcome (Simulation Solver) :=
  Outcome_map sim (tick_frame s seconds).

(** *** [Simulation::clear], lines 22-47 *)

(** [for (int i = l.size()-1; i >= 0; i--) { x = l.at(i); l.removeAt(i); delete(x); }]
    on a list of owned values, [n] indices still to visit *)
Fixpoint remove_from_end {A : Type} (n : nat) (l : list A) : list A :=
  match n with
  | 0 => l
  | S i => remove_from_end i (delete i l)
  end.

(** lines 38-42: [removeAll(c)] in every group the hash contains *)
Definition remove_everywhere (c : ptr) (gc : QHash) : QHash :=
  foldl (fun acc k =>
           match group_of_int k with
           | Some g => if contains g acc
                       then <[g := filter (fun a => a <> c) (at_ g acc)]> acc
                       else acc
           | None => acc
           end)
        gc (seq 0 NUM_CONSTRAINT_GROUPS).

(** lines 36-44, on the copy [group] of the list, [n] indices still to visit *)
Fixpoint clear_group (group : list ptr) (n : nat) st : QHash * Store :=
  match n with
  | 0 => st
  | S j =>
      match group !! j with
      | Some c => clear_group group j (remove_everywhere c st.1, delete_ c st.2)
      | None => st
      end
  end.

(** lines 33-46 *)
Definition clear_globals st : QHash * Store :=
  foldl (fun acc i =>
           match group_of_int i with
           | Some g => if contains g acc.1
                       then clear_group (at_ g acc.1) (List.length (at_ g acc.1)) acc
                       else acc
           | None => acc
           end)
        st (seq 0 NUM_CONSTRAINT_GROUPS).

(** [delete(b)] runs the destructor of [Body], which is not among the covered sources;
    the store is changed by the [delete(c)] of line 43 only. *)
Definition clear s : Simulation Solver :=
  let ps := remove_from_end (List.length (m_particles s)) (m_particles s) in
  let bs := remove_from_end (List.length (m_bodies s)) (m_bodies s) in
  let r := clear_globals (m_globalConstraints s, heap s) in
  set_heap (set_globalConstraints (set_bodies (set_particles s ps) bs) r.1) r.2.

(** *** [Simulation::init], lines 49-79 *)
Definition default_gravity : dvec2 := glm.vec2 0%float (-9.8)%float.

Definition build_scene (type : SimulationType) s : Simulation Solver :=
  match type with
  | FRICTION_TEST => initFriction scenes s
  | GRANULAR_TEST => initGranular scenes s
  | STACKS_TEST => initBoxes scenes s
  | WALL_TEST => initWall scenes s
  | PENDULUM_TEST => initPendulum scenes s
  | FLUID_TEST => initFluid scenes s
  | FLUID_SOLID_TEST => initFluidSolid scenes s
  | GAS_TEST => initGas scenes s
  | OtherSimulationType _ => initBoxes scenes s
  end.

Definition init (type : SimulationType) s : Simulation Solver :=
  let s1 := clear s in
  let s2 := set_gravity s1 default_gravity in
  let s3 := build_scene type s2 in
  set_standardSolver s3 (setupM ext (m_standardSolver s3) (m_particles s3) None).

(** *** [Simulation::createRigidBody], lines 288-323 *)

(** The running state of the loop of lines 298-313: [totalMass],
    [m_particles] and [*body]. *)
Fixpoint add_vertices (bodyIdx : Z) (offset i : nat) (verts : list Particle)
         (sdfData : list SDFData) (acc : double * list Particle * Body.t)
  : Outcome (double * list Particle * Body.t) :=
  match verts with
  | [] => Returned acc
  | q0 :: rest =>
      let q := set_ph (set_bod q0 bodyIdx) SOLID in
      if (imass q =? 0)%float
      then Exited 1 "A rigid body cannot have a point of infinite mass."
      else
        let totalMass := (acc.1.1 + 1 / imass q)%float in
        let ps := acc.1.2 ++ [q] in
        match sdfData !! i with
        | None => OutOfRange
        | Some d =>
            add_vertices bodyIdx offset (S i) rest sdfData
                         (totalMass, ps, Body.add_particle acc.2 (i + offset) d)
        end
  end.

Definition createRigidBody (verts : list Particle) (sdfData : list SDFData) s
  : Outcome (Simulation Solver * Body.t) :=
  if decide (List.length verts <= 1)
  then Exited 1 "Rigid bodies must be at least 2 points."
  else
    let offset := List.length (m_particles s) in
    let bodyIdx := List.length (m_bodies s) in
    Outcome_map
      (fun acc : double * list Particle * Body.t =>
         let ps := acc.1.2 in
         let b1 := Body.set_imass acc.2 (1 / acc.1.1)%float in
         let b2 := updateCOM ext b1 ps false in
         let b3 := computeRs ext b2 ps in
         let r := new_ (TotalShapeConstraint bodyIdx) (heap s) in
         let b4 := Body.set_shape b3 (Some r.1) in
         (set_heap (set_bodies (set_particles s ps) (m_bodies s ++ [b4])) r.2, b4))
      (add_vertices (Z.of_nat bodyIdx) offset 0 verts sdfData
                    (0%float, m_particles s, Body.fresh)).

(** *** [Simulation::mousePressed], lines 796-805 *)
Definition push_particle (pt : dvec2) (part : Particle) : Particle :=
  let to := glm.normalize (glm.sub pt (p part)) in
  set_v part (glm.add (v part) (glm.scale 7%float to)).

Definition mousePressed (pt : dvec2) s : Simulation Solver :=
  set_point (set_particles s (for_particles (push_particle pt) (m_particles s))) pt.

End Driver.

(** * Properties *)

(** ** Helper lemmas on the particle loop *)

Lemma for_particles_loop (body : Particle -> Particle) (done todo : list Particle) :
  foldl (fun acc i => match acc !! i with
                      | Some q => <[i := body q]> acc
                      | None => acc
                      end)
        (done ++ todo) (seq (List.length done) (List.length todo))
  = done ++ map body todo.
Proof.
  revert done. induction todo as [|q todo IH]; intros done; simpl.
  - done.
  - rewrite lookup_app_r by lia. rewrite Nat.sub_diag. simpl.
    rewrite insert_app_r_alt by lia. rewrite Nat.sub_diag. simpl.
    specialize (IH (done ++ [body q])).
    rewrite length_app in IH. simpl in IH.
    rewrite Nat.add_1_r in IH. rewrite <- !app_assoc in IH. simpl in IH.
    exact IH.
Qed.

Lemma for_particles_map (body : Particle -> Particle) (ps : list Particle) :
  for_particles body ps = map body ps.
Proof. apply (for_particles_loop body [] ps). Qed.

(** ** The store and the constraint lists under allocation *)

Abbreviation Emission := (ConstraintGroup * Constraint)%type.

(** A run of [constraints[g].append(new C(...))] statements *)
Definition emit_all (es : list Emission) (st : QHash * Store) : QHash * Store :=
  foldl (fun acc e => emplace e.1 e.2 acc) st es.

(** The addresses a run of allocations starting at address [n] stores under [g] *)
Fixpoint addresses (g : ConstraintGroup) (n : nat) (es : list Emission) : list ptr :=
  match es with
  | [] => []
  | e :: rest => (if decide (e.1 = g) then [n] else []) ++ addresses g (S n) rest
  end.

(** The objects a run of allocations stores under [g] *)
Definition emitted (g : ConstraintGroup) (es : list Emission) : list Constraint :=
  map snd (filter (fun e => e.1 = g) es).

Lemma at_append_eq g a (cs : QHash) : at_ g (append g a cs) = at_ g cs ++ [a].
Proof. unfold append, at_ at 1. by rewrite lookup_insert_eq. Qed.

Lemma at_append_ne g g' a (cs : QHash) : g <> g' -> at_ g' (append g a cs) = at_ g' cs.
Proof. intros. unfold append, at_ at 1. by rewrite lookup_insert_ne. Qed.

Lemma emit_all_app es1 es2 st : emit_all (es1 ++ es2) st = emit_all es2 (emit_all es1 st).
Proof. apply foldl_app. Qed.

Lemma emit_all_store es st :
  (emit_all es st).2 = st.2 ++ map (fun e => Some e.2) es.
Proof.
  revert st. induction es as [|e es IH]; intros st; simpl.
  - by rewrite app_nil_r.
  - rewrite IH. unfold emplace. simpl. by rewrite <- app_assoc.
Qed.

Lemma emit_all_at g es st :
  at_ g (emit_all es st).1 = at_ g st.1 ++ addresses g (List.length st.2) es.
Proof.
  revert st. induction es as [|e es IH]; intros st; simpl.
  - by rewrite app_nil_r.
  - rewrite IH. unfold emplace. simpl. rewrite length_app. simpl.
    rewrite Nat.add_1_r. destruct (decide (e.1 = g)) as [->|Hne].
    + rewrite at_append_eq. by rewrite <- app_assoc.
    + by rewrite at_append_ne.
Qed.

Lemma deref_app_l (h h' : Store) a : a < List.length h -> deref (h ++ h') a = deref h a.
Proof. intros. unfold deref. by rewrite lookup_app_l. Qed.

Lemma deref_alloc (h h' : Store) c : deref (h ++ Some c :: h') (List.length h) = Some c.
Proof. unfold deref. by rewrite list_lookup_middle. Qed.

Lemma addresses_deref g es (h : Store) :
  omap (deref (h ++ map (fun e => Some e.2) es)) (addresses g (List.length h) es)
  = emitted g es.
Proof.
  unfold emitted. revert h. induction es as [|e es IH]; intros h; simpl; [done|].
  specialize (IH (h ++ [Some e.2])).
  rewrite length_app in IH. simpl in IH. rewrite Nat.add_1_r in IH.
  rewrite <- app_assoc in IH. simpl in IH.
  rewrite filter_cons. destruct (decide (e.1 = g)); simpl.
  - rewrite deref_alloc. f_equal. exact IH.
  - exact IH.
Qed.

(** The objects behind the pointers that were appended to group [g] between
    two states of the local map, read in the later store. *)
Definition created_in (g : ConstraintGroup) (cs : QHash) (st' : QHash * Store) : list Constraint :=
  omap (deref st'.2) (drop (List.length (at_ g cs)) (at_ g st'.1)).

Lemma created_in_emit_all g es st : created_in g st.1 (emit_all es st) = emitted g es.
Proof.
  unfold created_in. rewrite emit_all_at, emit_all_store.
  rewrite drop_app_length. apply addresses_deref.
Qed.

(** ** Gathering the persistent constraints *)

Section Gathering.
Context {Solver : Type}.
Implicit Type s : Simulation Solver.

Definition present (g : ConstraintGroup) (m : QHash) : nat :=
  match m !! g with Some _ => 1 | None => 0 end.

Lemma size_delete_present g (m : QHash) : size m = present g m + size (delete g m).
Proof.
  unfold present. rewrite map_size_delete.
  destruct (m !! g) eqn:E; simpl; [|done].
  assert (size m <> 0) by (apply (map_size_ne_0_lookup_2 m g); by rewrite E).
  lia.
Qed.

(** A hash keyed by the four groups has one entry per key that is present. *)
Lemma QHash_size (m : QHash) :
  size m = present STABILIZATION m + present CONTACT m + present STANDARD m + present SHAPE m.
Proof.
  rewrite (size_delete_present STABILIZATION m).
  rewrite (size_delete_present CONTACT (delete STABILIZATION m)).
  rewrite (size_delete_present STANDARD (delete CONTACT (delete STABILIZATION m))).
  rewrite (size_delete_present SHAPE (delete STANDARD (delete CONTACT (delete STABILIZATION m)))).
  assert (delete SHAPE (delete STANDARD (delete CONTACT (delete STABILIZATION m))) = ∅) as ->.
  { apply map_eq. intros g. rewrite lookup_empty.
    destruct g; by rewrite ?lookup_delete_eq, ?lookup_delete_ne, ?lookup_delete_eq by done. }
  rewrite map_size_empty. unfold present.
  rewrite !lookup_delete_ne by done. lia.
Qed.

Lemma QHash_size_le (m : QHash) : size m <= NUM_CONSTRAINT_GROUPS.
Proof. rewrite QHash_size. unfold present, NUM_CONSTRAINT_GROUPS. repeat case_match; lia. Qed.

Lemma at_touch g g' (m : QHash) : at_ g (touch g' m) = at_ g m.
Proof.
  unfold touch. destruct (m !! g') eqn:E; [done|]. unfold at_.
  destruct (decide (g' = g)) as [->|]; [by rewrite lookup_insert_eq, E|].
  by rewrite lookup_insert_ne.
Qed.

Lemma touch_is_Some g g' (m : QHash) :
  is_Some (touch g' m !! g) <-> g = g' \/ is_Some (m !! g).
Proof.
  unfold touch. destruct (m !! g') eqn:E.
  - split; [auto|]. intros [->|]; [by rewrite E|done].
  - destruct (decide (g' = g)) as [->|].
    + rewrite lookup_insert_eq. split; [auto|by eexists].
    + rewrite lookup_insert_ne by done. split; [auto|]. by intros [->|].
Qed.

Lemma at_append_all g g' l (cs : QHash) :
  at_ g (append_all g' l cs) = at_ g cs ++ (if decide (g' = g) then l else []).
Proof.
  unfold append_all. revert cs. induction l as [|a l IH]; intros cs; simpl.
  - destruct (decide _); by rewrite app_nil_r.
  - rewrite IH. destruct (decide (g' = g)) as [->|].
    + rewrite at_append_eq. by rewrite <- app_assoc.
    + by rewrite at_append_ne.
Qed.

Lemma group_of_int_Some i g : group_of_int i = Some g <-> group_index g = i.
Proof.
  split.
  - do 4 (destruct i as [|i]; [intros [= <-]; done|]). done.
  - intros <-. apply group_of_int_index.
Qed.

(** When the bound stops the loop at [i], no group from [i] on is a key. *)
Lemma gather_stops_when_done i (gc : QHash) g :
  (forall g', group_index g' < i -> is_Some (gc !! g')) ->
  ~ i < size gc -> i <= group_index g -> at_ g gc = [].
Proof.
  intros Hinv Hstop Hle. rewrite QHash_size in Hstop. unfold at_.
  destruct (gc !! g) eqn:E; [exfalso|done].
  assert (Hp : forall g', group_index g' < i -> present g' gc = 1).
  { intros g' Hg'. destruct (Hinv g' Hg') as [? Hs]. unfold present. by rewrite Hs. }
  assert (Hg : present g gc = 1) by (unfold present; by rewrite E).
  pose proof (Hp STABILIZATION) as H0. pose proof (Hp CONTACT) as H1.
  pose proof (Hp STANDARD) as H2. pose proof (Hp SHAPE) as H3.
  simpl in *. destruct g; simpl in *; lia.
Qed.

Lemma gather_globals_from_spec n i (gc cs : QHash) :
  i + n = S NUM_CONSTRAINT_GROUPS ->
  (forall g, group_index g < i -> is_Some (gc !! g)) ->
  let r := gather_globals_from (seq i n) gc cs in
  (forall g, at_ g r.1 = at_ g gc)
  /\ (forall g, at_ g r.2
                = at_ g cs ++ (if decide (i <= group_index g) then at_ g gc else [])).
Proof.
  revert i gc cs. induction n as [|n IH]; intros i gc cs Hn Hinv; simpl.
  - split; [done|]. intros g. destruct (decide _) as [Hle|]; [|by rewrite app_nil_r].
    unfold NUM_CONSTRAINT_GROUPS in Hn. destruct g; simpl in Hle; lia.
  - destruct (decide (i < size gc)) as [Hlt|Hstop].
    + pose proof (QHash_size_le gc) as Hsz. unfold NUM_CONSTRAINT_GROUPS in *.
      destruct (group_of_int i) as [gi|] eqn:Egi.
      2:{ exfalso. do 4 (destruct i as [|i]; [done|]). lia. }
      apply group_of_int_Some in Egi.
      destruct (IH (S i) (touch gi gc) (append_all gi (at_ gi gc) cs)) as [IH1 IH2].
      { lia. }
      { intros g Hg. apply touch_is_Some.
        destruct (decide (group_index g = i)) as [Heq|Hne].
        - left. destruct g, gi; simpl in *; congruence || lia.
        - right. apply Hinv. lia. }
      split.
      * intros g. by rewrite IH1, at_touch.
      * intros g. rewrite IH2, at_append_all, at_touch, <- app_assoc. f_equal.
        destruct (decide (gi = g)) as [->|Hne].
        -- rewrite Egi. destruct (decide (S i <= i)); [lia|].
           destruct (decide (i <= i)); [|lia]. by rewrite app_nil_r.
        -- assert (group_index g <> i) by (destruct g, gi; simpl in *; congruence || lia).
           simpl. repeat destruct (decide _); done || lia.
    + simpl. split; [done|]. intros g.
      destruct (decide _) as [Hle|]; [|by rewrite app_nil_r].
      by rewrite (gather_stops_when_done i gc g), app_nil_r.
Qed.

(** Lines 98-103 append every global list to the local list of its group
    and leave the global lists as they are (keys may have been added). *)
Lemma gather_globals_spec (gc cs : QHash) :
  (forall g, at_ g (gather_globals gc cs).1 = at_ g gc)
  /\ (forall g, at_ g (gather_globals gc cs).2 = at_ g cs ++ at_ g gc).
Proof.
  destruct (gather_globals_from_spec (S NUM_CONSTRAINT_GROUPS) 0 gc cs) as [H1 H2];
    [done|intros g; lia|].
  split; [exact H1|]. intros g. unfold gather_globals. rewrite (H2 g).
  destruct (decide _); [done|lia].
Qed.
End Gathering.

(** ** C1: contact discovery *)

Section Discovery.
Context (cfg : Config).

(** The conditions of lines 133, 137, 143, 146 and 152 *)
Definition both_immovable (q q2 : Particle) : bool :=
  (imass q =? 0)%float && (imass q2 =? 0)%float.
Definition same_body (q q2 : Particle) : bool :=
  Phase_eqb (ph q) SOLID && Phase_eqb (ph q2) SOLID
  && (bod q =? bod q2)%Z && negb (bod q =? -1)%Z.
Definition skipped (q q2 : Particle) : bool := both_immovable q q2 || same_body q q2.
Definition overlapping (q q2 : Particle) : bool :=
  (glm.distance (ep q) (ep q2) <? PARTICLE_DIAM cfg - EPSILON cfg)%float.
Definition both_solid (q q2 : Particle) : bool :=
  Phase_eqb (ph q) SOLID && Phase_eqb (ph q2) SOLID.
Definition one_solid (q q2 : Particle) : bool :=
  xorb (Phase_eqb (ph q) SOLID) (Phase_eqb (ph q2) SOLID).

(** What the pair [(i, j)] allocates, in order *)
Definition pair_emits (i j : nat) (q q2 : Particle) : list Emission :=
  if skipped q q2 then []
  else if overlapping q q2 then
    if both_solid q q2 then
      (CONTACT, RigidContactConstraint i j)
      :: (if USE_STABILIZATION cfg then [(STABILIZATION, RigidContactConstraint i j)] else [])
    else if one_solid q q2 then [(CONTACT, ContactConstraint i j)]
    else []
  else [].

Fixpoint pairs_emits (i j : nat) (q : Particle) (others : list Particle) : list Emission :=
  match others with
  | [] => []
  | q2 :: rest => pair_emits i j q q2 ++ pairs_emits i (S j) q rest
  end.

Definition boundary_hit_emits (i : nat) (val : double) (xBoundary greater : bool)
  : list Emission :=
  (CONTACT, BoundaryConstraint i val xBoundary greater None)
  :: (if USE_STABILIZATION cfg
      then [(STABILIZATION, BoundaryConstraint i val xBoundary greater (Some true))]
      else []).

Definition boundary_emits (xB yB : dvec2) (i : nat) (q : Particle) : list Emission :=
  (if (glm.x (ep q) <? glm.x xB + PARTICLE_RAD cfg)%float
   then boundary_hit_emits i (glm.x xB) true true
   else if (glm.y xB - PARTICLE_RAD cfg <? glm.x (ep q))%float
   then boundary_hit_emits i (glm.y xB) true false
   else [])
  ++
  (if (glm.y (ep q) <? glm.x yB + PARTICLE_RAD cfg)%float
   then boundary_hit_emits i (glm.x yB) false true
   else if (glm.y yB - PARTICLE_RAD cfg <? glm.y (ep q))%float
   then boundary_hit_emits i (glm.y yB) false false
   else []).

Fixpoint discover_emits (xB yB : dvec2) (i : nat) (ps : list Particle) : list Emission :=
  match ps with
  | [] => []
  | q :: rest =>
      pairs_emits i (S i) q rest ++ boundary_emits xB yB i q
      ++ discover_emits xB yB (S i) rest
  end.

Lemma pair_contact_emits i j q q2 st :
  pair_contact cfg i j q q2 st = emit_all (pair_emits i j q q2) st.
Proof.
  unfold pair_contact, pair_emits, skipped, both_immovable, same_body, overlapping,
    both_solid, one_solid.
  destruct (imass q =? 0)%float, (imass q2 =? 0)%float; simpl; try done;
    destruct (Phase_eqb (ph q) SOLID), (Phase_eqb (ph q2) SOLID); simpl; try done;
    destruct (bod q =? bod q2)%Z, (bod q =? -1)%Z; simpl; try done;
    destruct (_ <? _)%float; simpl; try done;
    destruct (USE_STABILIZATION cfg); done.
Qed.

Lemma pairs_loop_emits i j q others st :
  pairs_loop cfg i j q others st = emit_all (pairs_emits i j q others) st.
Proof.
  revert j st. induction others as [|q2 rest IH]; intros j st; simpl; [done|].
  by rewrite IH, pair_contact_emits, emit_all_app.
Qed.

Lemma boundary_hit_emits_run i val xb gr st :
  boundary_hit cfg i val xb gr st = emit_all (boundary_hit_emits i val xb gr) st.
Proof. unfold boundary_hit, boundary_hit_emits. by destruct (USE_STABILIZATION cfg). Qed.

Lemma boundary_contact_emits xB yB i q st :
  boundary_contact cfg xB yB i q st = emit_all (boundary_emits xB yB i q) st.
Proof.
  unfold boundary_contact, boundary_emits. rewrite emit_all_app.
  repeat (destruct (_ <? _)%float); by rewrite ?boundary_hit_emits_run.
Qed.

Lemma discover_loop_emits xB yB i ps st :
  discover_loop cfg xB yB i ps st = emit_all (discover_emits xB yB i ps) st.
Proof.
  revert i st. induction ps as [|q rest IH]; intros i st; simpl; [done|].
  by rewrite IH, boundary_contact_emits, pairs_loop_emits, !emit_all_app.
Qed.
End Discovery.

Section DiscoveryFacts.
Context (cfg : Config).

Lemma elem_of_emitted g c (es : list Emission) : c ∈ emitted g es <-> (g, c) ∈ es.
Proof.
  unfold emitted. rewrite list_elem_of_fmap. split.
  - intros [[g' c'] [-> [Hg Hin]%list_elem_of_filter]]. simpl in *. by subst.
  - intros Hin. exists (g, c). split; [done|]. by apply list_elem_of_filter.
Qed.

Lemma elem_of_pairs_emits e i j q others :
  e ∈ pairs_emits cfg i j q others
  <-> exists k q2, others !! k = Some q2 /\ e ∈ pair_emits cfg i (j + k) q q2.
Proof.
  revert j. induction others as [|q2 rest IH]; intros j; simpl.
  - split; [by intros ?%elem_of_nil | by intros (k & ? & ? & _)].
  - rewrite elem_of_app, IH. split.
    + intros [Hin | (k & q' & Hk & Hin)].
      * exists 0, q2. by rewrite Nat.add_0_r.
      * exists (S k), q'. by rewrite Nat.add_succ_r.
    + intros ([|k] & q' & Hk & Hin); simpl in Hk.
      * left. injection Hk as <-. by rewrite Nat.add_0_r in Hin.
      * right. exists k, q'. by rewrite Nat.add_succ_r in Hin.
Qed.

Lemma elem_of_discover_emits e xB yB i ps :
  e ∈ discover_emits cfg xB yB i ps
  <-> exists k q, ps !! k = Some q
                  /\ (e ∈ pairs_emits cfg (i + k) (S (i + k)) q (drop (S k) ps)
                      \/ e ∈ boundary_emits cfg xB yB (i + k) q).
Proof.
  revert i. induction ps as [|q rest IH]; intros i; simpl.
  - split; [by intros ?%elem_of_nil | by intros (k & ? & ? & _)].
  - rewrite !elem_of_app, IH. split.
    + intros [Hin | [Hin | (k & q' & Hk & Hin)]].
      * exists 0, q. rewrite Nat.add_0_r. simpl. rewrite drop_0. auto.
      * exists 0, q. rewrite Nat.add_0_r. auto.
      * exists (S k), q'. rewrite Nat.add_succ_r. auto.
    + intros ([|k] & q' & Hk & Hin); simpl in Hk.
      * injection Hk as <-. rewrite Nat.add_0_r in Hin. simpl in Hin.
        rewrite drop_0 in Hin. tauto.
      * right; right. exists k, q'. rewrite Nat.add_succ_r in Hin. auto.
Qed.

(** A pair allocates contact constraints on its own two indices only, and
    the boundary tests allocate boundary constraints only. *)
Lemma pair_emits_shape g c i j q q2 :
  (g, c) ∈ pair_emits cfg i j q q2 ->
  c = RigidContactConstraint i j \/ c = ContactConstraint i j.
Proof.
  unfold pair_emits.
  destruct (skipped q q2), (overlapping cfg q q2), (both_solid q q2), (one_solid q q2),
    (USE_STABILIZATION cfg);
    rewrite ?elem_of_cons, ?elem_of_nil; intros H; intuition congruence.
Qed.

Lemma boundary_emits_shape g c xB yB i q :
  (g, c) ∈ boundary_emits cfg xB yB i q ->
  exists val xb gr stabile, c = BoundaryConstraint i val xb gr stabile.
Proof.
  unfold boundary_emits, boundary_hit_emits. rewrite elem_of_app.
  repeat (destruct (_ <? _)%float); destruct (USE_STABILIZATION cfg);
    rewrite ?elem_of_cons, ?elem_of_nil; intros H;
    repeat (destruct H as [H|H]); try done; injection H as _ ->; eauto.
Qed.

(** The contact constraints on [(i, j)] that the whole discovery loop
    allocates are the ones the pair [(i, j)] allocates. *)
Lemma discover_emits_pair g c xB yB ps i j :
  c = RigidContactConstraint i j \/ c = ContactConstraint i j ->
  (g, c) ∈ discover_emits cfg xB yB 0 ps
  <-> exists q q2, ps !! i = Some q /\ ps !! j = Some q2 /\ i < j
                   /\ (g, c) ∈ pair_emits cfg i j q q2.
Proof.
  intros Hc. rewrite elem_of_discover_emits. simpl. split.
  - intros (k & q & Hk & [Hin | Hin]).
    + apply elem_of_pairs_emits in Hin as (k' & q2 & Hk' & Hin).
      rewrite lookup_drop in Hk'.
      pose proof (pair_emits_shape _ _ _ _ _ _ Hin) as Hshape.
      assert (k = i /\ S (k + k') = j) as [-> <-]
        by (destruct Hc as [->| ->], Hshape as [Hs|Hs]; try done; by injection Hs).
      exists q, q2. split_and!; [done|done|lia|done].
    + apply boundary_emits_shape in Hin as (? & ? & ? & ? & ->).
      by destruct Hc.
  - intros (q & q2 & Hi & Hj & Hlt & Hin).
    exists i, q. split; [done|]. left.
    apply elem_of_pairs_emits. exists (j - S i), q2.
    rewrite lookup_drop. replace (S i + (j - S i)) with j by lia. done.
Qed.

Lemma rigid_contact_emitted i j q q2 :
  (CONTACT, RigidContactConstraint i j) ∈ pair_emits cfg i j q q2
  <-> skipped q q2 = false /\ overlapping cfg q q2 = true /\ both_solid q q2 = true.
Proof.
  unfold pair_emits.
  destruct (skipped q q2), (overlapping cfg q q2), (both_solid q q2), (one_solid q q2),
    (USE_STABILIZATION cfg);
    rewrite ?elem_of_cons, ?elem_of_nil; intuition congruence.
Qed.

Lemma rigid_stabilization_emitted i j q q2 :
  (STABILIZATION, RigidContactConstraint i j) ∈ pair_emits cfg i j q q2
  <-> USE_STABILIZATION cfg = true /\ skipped q q2 = false
      /\ overlapping cfg q q2 = true /\ both_solid q q2 = true.
Proof.
  unfold pair_emits.
  destruct (skipped q q2), (overlapping cfg q q2), (both_solid q q2), (one_solid q q2),
    (USE_STABILIZATION cfg);
    rewrite ?elem_of_cons, ?elem_of_nil; intuition congruence.
Qed.

Lemma contact_emitted i j q q2 :
  (CONTACT, ContactConstraint i j) ∈ pair_emits cfg i j q q2
  <-> skipped q q2 = false /\ overlapping cfg q q2 = true /\ one_solid q q2 = true.
Proof.
  unfold pair_emits, both_solid, one_solid.
  destruct (skipped q q2), (overlapping cfg q q2), (Phase_eqb (ph q) SOLID),
    (Phase_eqb (ph q2) SOLID), (USE_STABILIZATION cfg); simpl;
    rewrite ?elem_of_cons, ?elem_of_nil; intuition congruence.
Qed.

Lemma contact_stabilization_never i j q q2 :
  (STABILIZATION, ContactConstraint i j) ∉ pair_emits cfg i j q q2.
Proof.
  unfold pair_emits.
  destruct (skipped q q2), (overlapping cfg q q2), (both_solid q q2), (one_solid q q2),
    (USE_STABILIZATION cfg);
    rewrite ?elem_of_cons, ?elem_of_nil; intuition congruence.
Qed.

Lemma discover_emits_groups g c xB yB i ps :
  (g, c) ∈ discover_emits cfg xB yB i ps -> g = CONTACT \/ g = STABILIZATION.
Proof.
  rewrite elem_of_discover_emits. intros (k & q & _ & [Hin | Hin]).
  - apply elem_of_pairs_emits in Hin as (k' & q2 & _ & Hin). revert Hin.
    unfold pair_emits.
    destruct (skipped q q2), (overlapping cfg q q2), (both_solid q q2), (one_solid q q2),
      (USE_STABILIZATION cfg);
      rewrite ?elem_of_cons, ?elem_of_nil; intuition congruence.
  - revert Hin. unfold boundary_emits, boundary_hit_emits. rewrite elem_of_app.
    repeat (destruct (_ <? _)%float); destruct (USE_STABILIZATION cfg);
      rewrite ?elem_of_cons, ?elem_of_nil; intuition congruence.
Qed.
(** No constraint is allocated twice: the emissions of the discovery loop
    are pairwise different. *)
Lemma pair_emits_NoDup i j q q2 : NoDup (pair_emits cfg i j q q2).
Proof.
  unfold pair_emits.
  destruct (skipped q q2), (overlapping cfg q q2), (both_solid q q2), (one_solid q q2),
    (USE_STABILIZATION cfg);
    rewrite ?NoDup_cons, ?NoDup_nil, ?elem_of_cons, ?elem_of_nil; intuition congruence.
Qed.

Lemma pairs_emits_NoDup i j q others : NoDup (pairs_emits cfg i j q others).
Proof.
  revert j. induction others as [|q2 rest IH]; intros j; simpl; [by apply NoDup_nil|].
  apply NoDup_app. split_and!; [apply pair_emits_NoDup| |apply IH].
  intros [g c] Hin Hin'.
  apply elem_of_pairs_emits in Hin' as (k & q2' & _ & Hin').
  apply pair_emits_shape in Hin, Hin'.
  destruct Hin as [->| ->], Hin' as [Heq|Heq]; try done; injection Heq; lia.
Qed.

Lemma boundary_emits_NoDup xB yB i q : NoDup (boundary_emits cfg xB yB i q).
Proof.
  unfold boundary_emits, boundary_hit_emits.
  repeat (destruct (_ <? _)%float); destruct (USE_STABILIZATION cfg); simpl;
    rewrite ?NoDup_cons, ?NoDup_nil, ?elem_of_cons, ?elem_of_nil; intuition congruence.
Qed.

Lemma discover_emits_NoDup xB yB i ps : NoDup (discover_emits cfg xB yB i ps).
Proof.
  revert i. induction ps as [|q rest IH]; intros i; simpl; [by apply NoDup_nil|].
  assert (Hlater : forall g c,
             (g, c) ∈ discover_emits cfg xB yB (S i) rest ->
             (exists i' j', i < i'
                /\ (c = RigidContactConstraint i' j' \/ c = ContactConstraint i' j'))
             \/ (exists i' val xb gr stabile,
                    i < i' /\ c = BoundaryConstraint i' val xb gr stabile)).
  { intros g c (k & q' & _ & [Hin|Hin])%elem_of_discover_emits.
    - apply elem_of_pairs_emits in Hin as (k' & q2 & _ & Hin%pair_emits_shape).
      left. exists (S i + k), (S (S i + k) + k'). split; [lia|done].
    - apply boundary_emits_shape in Hin as (val & xb & gr & stabile & ->).
      right. exists (S i + k), val, xb, gr, stabile. split; [lia|done]. }
  apply NoDup_app. split_and!; [apply pairs_emits_NoDup| |].
  - intros [g c] Hin Hin'.
    apply elem_of_pairs_emits in Hin as (k & q2 & _ & Hin%pair_emits_shape).
    apply elem_of_app in Hin' as [Hin'|Hin'].
    + apply boundary_emits_shape in Hin' as (? & ? & ? & ? & ->). by destruct Hin.
    + apply Hlater in Hin' as [(i' & j' & Hlt & Hc)|(i' & ? & ? & ? & ? & Hlt & ->)].
      * destruct Hin as [->| ->], Hc as [Heq|Heq]; try done; injection Heq; lia.
      * by destruct Hin.
  - apply NoDup_app. split_and!; [apply boundary_emits_NoDup| |apply IH].
    intros [g c] Hin Hin'.
    apply boundary_emits_shape in Hin as (? & ? & ? & ? & ->).
    apply Hlater in Hin' as [(i' & j' & Hlt & Hc)|(i' & ? & ? & ? & ? & Hlt & Heq)].
    + by destruct Hc.
    + injection Heq. lia.
Qed.

Lemma emitted_NoDup g (es : list Emission) : NoDup es -> NoDup (emitted g es).
Proof.
  intros Hnd. unfold emitted. apply NoDup_fmap_2_strong; [|by apply NoDup_filter].
  intros [g1 c1] [g2 c2] [H1 _]%list_elem_of_filter [H2 _]%list_elem_of_filter.
  simpl in *. congruence.
Qed.
End DiscoveryFacts.

(** The objects behind the pointers that [f'] holds under [g] beyond the
    ones [f] held. *)
Definition created {Solver : Type} (g : ConstraintGroup) (f f' : Frame Solver) : list Constraint :=
  created_in g (constraints f) (constraints f', heap (sim f')).

Section DiscoveryPhase.
Context (cfg : Config) {Solver : Type} (ext : Externals Solver).
Implicit Type f : Frame Solver.

Definition discovered f : list Emission :=
  discover_emits cfg (m_xBoundaries (sim f)) (m_yBoundaries (sim f)) 0 (m_particles (sim f)).

Lemma discover_run f :
  (constraints (discover cfg ext f), heap (sim (discover cfg ext f)))
  = emit_all (discovered f) (constraints f, heap (sim f)).
Proof.
  unfold discover, discovered. simpl. rewrite discover_loop_emits.
  by destruct (emit_all _ _).
Qed.

Lemma discover_created g f : created g f (discover cfg ext f) = emitted g (discovered f).
Proof.
  unfold created. rewrite discover_run.
  apply (created_in_emit_all g (discovered f) (constraints f, heap (sim f))).
Qed.

Lemma discover_appends g f :
  at_ g (constraints (discover cfg ext f))
  = at_ g (constraints f) ++ addresses g (List.length (heap (sim f))) (discovered f).
Proof.
  change (constraints (discover cfg ext f))
    with (constraints (discover cfg ext f), heap (sim (discover cfg ext f))).1.
  rewrite discover_run. apply (emit_all_at g (discovered f) (constraints f, heap (sim f))).
Qed.

(** C1.  Contact discovery, for every pair [i < j] of particles [q], [q2]:
    the pair allocates nothing when both particles have [imass = 0] or when
    both are SOLID with the same [bod <> -1]; otherwise, when
    [‖ep_i − ep_j‖ < PARTICLE_DIAM − EPSILON], a [RigidContactConstraint(i,j)]
    is appended to CONTACT (and one to STABILIZATION exactly when
    stabilization is enabled) if both are SOLID, a [ContactConstraint(i,j)]
    is appended to CONTACT if exactly one is SOLID, and nothing is appended
    if neither is.  The lists only grow, only CONTACT and STABILIZATION do,
    and no constraint is appended to a list twice. *)
Theorem contact_discovery_pairs f i j q q2 :
  m_particles (sim f) !! i = Some q ->
  m_particles (sim f) !! j = Some q2 ->
  i < j ->
  let f' := discover cfg ext f in
  (forall g, at_ g (constraints f) `prefix_of` at_ g (constraints f'))
  /\ (forall g, g <> CONTACT -> g <> STABILIZATION -> created g f f' = [])
  /\ (forall g, NoDup (created g f f'))
  /\ (RigidContactConstraint i j ∈ created CONTACT f f'
      <-> skipped q q2 = false /\ overlapping cfg q q2 = true /\ both_solid q q2 = true)
  /\ (RigidContactConstraint i j ∈ created STABILIZATION f f'
      <-> USE_STABILIZATION cfg = true /\ skipped q q2 = false
          /\ overlapping cfg q q2 = true /\ both_solid q q2 = true)
  /\ (ContactConstraint i j ∈ created CONTACT f f'
      <-> skipped q q2 = false /\ overlapping cfg q q2 = true /\ one_solid q q2 = true)
  /\ ContactConstraint i j ∉ created STABILIZATION f f'.
Proof.
  intros Hi Hj Hlt f'. subst f'.
  assert (Hpair : forall g c,
             c = RigidContactConstraint i j \/ c = ContactConstraint i j ->
             c ∈ created g f (discover cfg ext f) <-> (g, c) ∈ pair_emits cfg i j q q2).
  { intros g c Hc. rewrite discover_created, elem_of_emitted.
    unfold discovered. rewrite discover_emits_pair by done. split.
    - intros (q' & q2' & Hi' & Hj' & _ & Hin). congruence.
    - intros Hin. by exists q, q2. }
  split_and!.
  - intros g. rewrite discover_appends. by eexists.
  - intros g Hc Hs. rewrite discover_created.
    destruct (emitted g (discovered f)) as [|c l] eqn:E; [done|].
    assert (Hin : c ∈ emitted g (discovered f)) by (rewrite E; left).
    apply elem_of_emitted, discover_emits_groups in Hin. tauto.
  - intros g. rewrite discover_created. apply emitted_NoDup, discover_emits_NoDup.
  - rewrite Hpair by auto. apply rigid_contact_emitted.
  - rewrite Hpair by auto. apply rigid_stabilization_emitted.
  - rewrite Hpair by auto. apply contact_emitted.
  - rewrite Hpair by auto. apply contact_stabilization_never.
Qed.
End DiscoveryPhase.

(** ** The particle phases of [tick] *)

Section ParticlePhases.
Context (cfg : Config) {Solver : Type} (ext : Externals Solver).
Implicit Type s : Simulation Solver.
Implicit Type f : Frame Solver.

(** The frame [tick] has built when the solver passes are over, from the
    frame that gathering returned. *)
Definition solved (seconds : double) f : Frame Solver :=
  solve cfg ext (stabilize cfg ext (discover cfg ext (predict cfg ext seconds f))).

Lemma tick_frame_phases s seconds :
  tick_frame cfg ext s seconds
  = Outcome_map (fun f0 => teardown (recover cfg seconds (solved seconds f0)))
                (gather s).
Proof. done. Qed.

(** The gravity a particle feels: scaled by ALPHA exactly for the GAS phase *)
Definition effective_gravity (gravity : dvec2) (q : Particle) : dvec2 :=
  match ph q with
  | GAS => glm.times gravity (ALPHA cfg)
  | _ => gravity
  end.

(** [v + dt·g], then [ep = p + dt·v] with the new [v], then [scaleMass()] *)
Definition predicted (gravity : dvec2) (seconds : double) (q : Particle) : Particle :=
  let v1 := glm.add (v q) (glm.scale seconds (effective_gravity gravity q)) in
  scaleMass ext
    (mkParticle (p q) (glm.add (p q) (glm.scale seconds v1)) v1 (imass q) (ph q) (bod q)
                (sFriction q) (kFriction q) (sm q) (sleeping q)).

Lemma apply_forces_predicted gravity seconds q :
  apply_forces cfg ext gravity seconds q = predicted gravity seconds q.
Proof.
  unfold apply_forces, predicted, effective_gravity, guess.
  destruct q as [? ? ? ? phase ? ? ? ? ?]; simpl. by destruct phase.
Qed.

(** C4.  Forces and prediction.  Every particle first gets the velocity
    [v + dt·g], where [g] is the gravity vector with both components
    multiplied by ALPHA exactly when the phase is GAS and the gravity vector
    itself otherwise; then [ep = p + dt·v] with that new velocity; then
    [scaleMass()] is applied to the particle so far.  Nothing else of the
    particle, no other particle, no constraint list and no object of the
    store changes, and within [tick] contact discovery works on the
    particles that have all been through the phase. *)
Theorem forces_prediction_scaling f seconds :
  (forall i q,
      m_particles (sim f) !! i = Some q ->
      let gx := match ph q with
                | GAS => (glm.x (m_gravity (sim f)) * ALPHA cfg)%float
                | _ => glm.x (m_gravity (sim f))
                end in
      let gy := match ph q with
                | GAS => (glm.y (m_gravity (sim f)) * ALPHA cfg)%float
                | _ => glm.y (m_gravity (sim f))
                end in
      let vx := (glm.x (v q) + seconds * gx)%float in
      let vy := (glm.y (v q) + seconds * gy)%float in
      let epx := (glm.x (p q) + seconds * vx)%float in
      let epy := (glm.y (p q) + seconds * vy)%float in
      m_particles (sim (predict cfg ext seconds f)) !! i
      = Some (scaleMass ext
                (mkParticle (p q) (glm.vec2 epx epy) (glm.vec2 vx vy) (imass q) (ph q)
                            (bod q) (sFriction q) (kFriction q) (sm q) (sleeping q))))
  /\ List.length (m_particles (sim (predict cfg ext seconds f)))
     = List.length (m_particles (sim f))
  /\ m_particles (sim (predict cfg ext seconds f))
     = map (predicted (m_gravity (sim f)) seconds) (m_particles (sim f))
  /\ constraints (predict cfg ext seconds f) = constraints f
  /\ heap (sim (predict cfg ext seconds f)) = heap (sim f)
  /\ discovered cfg (predict cfg ext seconds f)
     = discover_emits cfg (m_xBoundaries (sim f)) (m_yBoundaries (sim f)) 0
                      (map (predicted (m_gravity (sim f)) seconds) (m_particles (sim f)))
  /\ forall s, tick_frame cfg ext s seconds
               = Outcome_map
                   (fun f0 => teardown (recover cfg seconds
                              (solve cfg ext (stabilize cfg ext
                                 (discover cfg ext (predict cfg ext seconds f0))))))
                   (gather s).
Proof.
  assert (Hps : m_particles (sim (predict cfg ext seconds f))
                = map (predicted (m_gravity (sim f)) seconds) (m_particles (sim f))).
  { unfold predict. simpl. rewrite for_particles_map. apply map_ext.
    intros q. apply apply_forces_predicted. }
  split_and!; try done.
  - intros i q Hq. rewrite Hps, list_lookup_fmap, Hq. simpl. f_equal.
    unfold predicted, effective_gravity, glm.add, glm.scale, glm.times.
    destruct q as [qp qep qv qim phase qb qsf qkf qsm qsl]. simpl. by destruct phase.
  - by rewrite Hps, length_map.
  - unfold discovered. by rewrite Hps.
Qed.

(** The velocity and position a particle leaves [tick] with *)
Definition recovered (seconds : double) (q : Particle) : Particle :=
  confirmGuess (sleepEps cfg) (set_v q (glm.over (glm.sub (ep q) (p q)) seconds)).

Lemma recover_particles seconds f :
  m_particles (sim (recover cfg seconds f)) = map (recovered seconds) (m_particles (sim f)).
Proof. unfold recover. simpl. by rewrite for_particles_map. Qed.

Lemma teardown_particles f : m_particles (sim (teardown f)) = m_particles (sim f).
Proof. done. Qed.
End ParticlePhases.

(** A time step [dt > 0] is neither zero nor a NaN. *)
Lemma positive_step_nonzero (seconds : double) :
  (0 <? seconds)%float = true ->
  (seconds =? 0)%float = false /\ (seconds =? seconds)%float = true.
Proof.
  rewrite FloatAxioms.ltb_spec, !FloatAxioms.eqb_spec. unfold SFltb, SFeqb.
  change (Prim2SF 0) with (S754_zero false).
  destruct (Prim2SF seconds) as [sg|sg| |sg m e]; simpl; try discriminate.
  - destruct sg; [discriminate|done].
  - destruct sg; [discriminate|]. intros _. split; [done|].
    rewrite Z.compare_refl, Pos.compare_refl. done.
Qed.

(** ** C6: velocity recovery *)

Section Recovery.
Context (cfg : Config) {Solver : Type} (ext : Externals Solver).
Implicit Type s : Simulation Solver.
Implicit Type f : Frame Solver.

(** C6.  After the solver passes, [tick(dt)] takes every particle in turn,
    sets its velocity to [(ep − p)/dt], each component of the difference
    divided by [dt], and then calls [confirmGuess()] on it: a particle that
    does not fall asleep leaves the phase with that velocity and with
    [p = ep], one that does with velocity zero and its position.  With
    [dt > 0] the divisor is neither zero nor a NaN.  The phase takes the
    frame the solver passes leave, touches neither the constraint lists nor
    the store, and hands its frame to the teardown. *)
Theorem velocity_recovery s seconds :
  (0 <? seconds)%float = true ->
  ((seconds =? 0)%float = false /\ (seconds =? seconds)%float = true)
  /\ (forall f,
        (forall i q,
            m_particles (sim f) !! i = Some q ->
            let dx := (glm.x (ep q) - glm.x (p q))%float in
            let dy := (glm.y (ep q) - glm.y (p q))%float in
            let q1 := mkParticle (p q) (ep q) (glm.vec2 (dx / seconds)%float (dy / seconds)%float)
                                 (imass q) (ph q) (bod q) (sFriction q) (kFriction q)
                                 (sm q) (sleeping q) in
            exists q',
              m_particles (sim (recover cfg seconds f)) !! i = Some q'
              /\ q' = confirmGuess (sleepEps cfg) q1
              /\ ((PrimFloat.sqrt (dx * dx + dy * dy) <? sleepEps cfg)%float = false ->
                  v q' = glm.vec2 (dx / seconds)%float (dy / seconds)%float /\ p q' = ep q)
              /\ ((PrimFloat.sqrt (dx * dx + dy * dy) <? sleepEps cfg)%float = true ->
                  v q' = glm.vec2 0%float 0%float /\ p q' = p q)
              /\ ep q' = ep q /\ imass q' = imass q /\ ph q' = ph q /\ bod q' = bod q)
        /\ List.length (m_particles (sim (recover cfg seconds f)))
           = List.length (m_particles (sim f))
        /\ constraints (recover cfg seconds f) = constraints f
        /\ heap (sim (recover cfg seconds f)) = heap (sim f))
  /\ tick_frame cfg ext s seconds
     = Outcome_map
         (fun f0 => teardown (recover cfg seconds
                      (solve cfg ext (stabilize cfg ext
                         (discover cfg ext (predict cfg ext seconds f0))))))
         (gather s).
Proof.
  intros Hdt. split; [by apply positive_step_nonzero|]. split; [|done].
  intros f. split_and!; [|by rewrite recover_particles, length_map|done|done].
  intros i q Hq dx dy q1. exists (confirmGuess (sleepEps cfg) q1).
  assert (Hlen : glm.length (glm.sub (ep q1) (p q1)) = PrimFloat.sqrt (dx * dx + dy * dy))
    by done.
  split_and!.
  - rewrite recover_particles, list_lookup_fmap, Hq. done.
  - done.
  - intros Hawake. unfold confirmGuess. rewrite Hlen, Hawake. done.
  - intros Hsleep. unfold confirmGuess. rewrite Hlen, Hsleep. done.
  - unfold confirmGuess.
    destruct (glm.length (glm.sub (ep q1) (p q1)) <? sleepEps cfg)%float; reflexivity.
  - unfold confirmGuess.
    destruct (glm.length (glm.sub (ep q1) (p q1)) <? sleepEps cfg)%float; reflexivity.
  - unfold confirmGuess.
    destruct (glm.length (glm.sub (ep q1) (p q1)) <? sleepEps cfg)%float; reflexivity.
  - unfold confirmGuess.
    destruct (glm.length (glm.sub (ep q1) (p q1)) <? sleepEps cfg)%float; reflexivity.
Qed.
End Recovery.

(** ** C3: [mousePressed] *)

Section Mouse.
Context {Solver : Type}.
Implicit Type s : Simulation Solver.

(** The impulse as the spec words it: magnitude 7, along the line from the
    point [pt] to the particle, away from [pt]. *)
Definition push_away (pt : dvec2) (part : Particle) : Particle :=
  set_v part (glm.add (v part) (glm.scale 7%float (glm.normalize (glm.sub (p part) pt)))).

Definition pushes_outward (pt : dvec2) s : Prop :=
  m_particles (mousePressed pt s) = map (push_away pt) (m_particles s).

(** The impulse of the code: 7 times the normalised vector from the
    particle to the point [pt]. *)
Definition pull_toward (pt : dvec2) (part : Particle) : Particle :=
  set_v part (glm.add (v part) (glm.scale 7%float (glm.normalize (glm.sub pt (p part))))).

(** C3, amended.  [mousePressed(pt)] adds to the velocity of every particle
    7 times the normalised vector from the particle's position to [pt] (an
    impulse toward the point), changes nothing else of the particles, and
    records [pt] in [m_point]. *)
Theorem mouse_press_pulls pt s :
  m_particles (mousePressed pt s) = map (pull_toward pt) (m_particles s)
  /\ m_point (mousePressed pt s) = pt
  /\ m_bodies (mousePressed pt s) = m_bodies s
  /\ m_globalConstraints (mousePressed pt s) = m_globalConstraints s
  /\ m_gravity (mousePressed pt s) = m_gravity s
  /\ heap (mousePressed pt s) = heap s
  /\ forall part, p (pull_toward pt part) = p part /\ ep (pull_toward pt part) = ep part
                  /\ imass (pull_toward pt part) = imass part.
Proof.
  split_and!; try done.
  unfold mousePressed. simpl. by rewrite for_particles_map.
Qed.
End Mouse.

(** ** C5: the iterative solver pass *)

Section IterativeSolver.
Context (cfg : Config) {Solver : Type} (ext : Externals Solver).
Implicit Type f : Frame Solver.

(** One Gauss-Seidel sweep over a list of constraint pointers: every
    projection starts from the particles the previous one left. *)
Definition sweep (bodies : list Body.t) (h : Store) (order : list ptr) (ps : list Particle)
  : list Particle :=
  foldl (fun acc a => project_at ext bodies h a acc) ps order.

Lemma solve_iteration_sweep bodies h cs ps :
  solve_iteration ext bodies h cs ps
  = sweep bodies h (at_ CONTACT cs ++ at_ STANDARD cs ++ at_ SHAPE cs) ps.
Proof.
  unfold solve_iteration, sweep, solve_group_index, project_group. simpl.
  by rewrite !foldl_app.
Qed.

Lemma solve_iterative_iter n bodies h cs ps :
  solve_iterative ext n bodies h cs ps = Nat.iter n (solve_iteration ext bodies h cs) ps.
Proof.
  revert ps. induction n as [|n IH]; intros ps; [done|].
  simpl solve_iterative. rewrite IH. by rewrite Nat.iter_succ_r.
Qed.

(** C5.  In iterative mode the main solver pass of [tick] runs
    [SOLVER_ITERATIONS] outer iterations; each one projects the constraints
    of CONTACT, then STANDARD, then SHAPE (never STABILIZATION), each list
    in its order and every projection on the particles left by the one
    before; the constraint lists and the store are as before. *)
Theorem iterative_solver_pass f :
  ITERATIVE cfg = true ->
  m_particles (sim (solve cfg ext f))
  = Nat.iter (Z.to_nat (SOLVER_ITERATIONS cfg))
      (sweep (m_bodies (sim f)) (heap (sim f))
             (at_ CONTACT (constraints f) ++ at_ STANDARD (constraints f)
              ++ at_ SHAPE (constraints f)))
      (m_particles (sim f))
  /\ constraints (solve cfg ext f) = constraints f
  /\ heap (sim (solve cfg ext f)) = heap (sim f).
Proof.
  intros Hit. unfold solve. rewrite Hit. simpl. split_and!; try done.
  rewrite solve_iterative_iter. generalize (Z.to_nat (SOLVER_ITERATIONS cfg)) as n.
  induction n as [|n IH]; [done|]. simpl. rewrite IH. apply solve_iteration_sweep.
Qed.
End IterativeSolver.

(** ** C7: [createRigidBody] *)

Section RigidBody.
Context {Solver : Type} (ext : Externals Solver).
Implicit Type s : Simulation Solver.




Definition infinite_mass (q : Particle) : bool := (imass q =? 0)%float.

Definition infinite_mass_point : string :=
  "A rigid body cannot have a point of infinite mass.".



(** The loop of [createRigidBody] when the SDF list ends before the
    vertices do: the vertices up to the first one without an entry are
    checked for their mass, then [sdfData->at(i)] is out of range. *)
Lemma add_vertices_short bodyIdx offset verts :
  forall i sdfData (acc : double * list Particle * Body.t),
    i <= List.length sdfData ->
    List.length sdfData < i + List.length verts ->
    add_vertices bodyIdx offset i verts sdfData acc
    = if existsb infinite_mass (take (S (List.length sdfData - i)) verts)
      then Exited 1 infinite_mass_point
      else OutOfRange.
Proof.
  induction verts as [|q verts IH]; intros i sdfData acc Hi Hlen; simpl in Hlen; [lia|].
  cbn [add_vertices]. rewrite firstn_cons. cbn [existsb].
  unfold infinite_mass at 1.
  change (imass (set_ph (set_bod q bodyIdx) SOLID)) with (imass q).
  destruct (imass q =? 0)%float; [done|]. cbn [orb].
  destruct (sdfData !! i) as [d|] eqn:Ed.
  - apply lookup_lt_Some in Ed.
    rewrite IH by lia.
    replace (List.length sdfData - i) with (S (List.length sdfData - S i)) by lia.
    done.
  - apply lookup_ge_None in Ed.
    replace (List.length sdfData - i) with 0 by lia. by rewrite take_0.
Qed.





End RigidBody.

(** ** C8: the shape-constraint slots *)

Section ShapeSlots.
Context (cfg : Config) {Solver : Type} (ext : Externals Solver).
Implicit Type s : Simulation Solver.

(** The slot of body [b] holds a pointer to a [TotalShapeConstraint]. *)
Definition holds_shape (h : Store) (b : Body.t) : bool :=
  match Body.shape b with
  | Some a => match deref h a with
              | Some (TotalShapeConstraint _) => true
              | _ => false
              end
  | None => false
  end.

Definition not_a_shape : string :=
  "Rigid body's attached constraint was not a shape constraint.".

Lemma dynamic_cast_shape_holds h b :
  dynamic_cast_shape h (Body.shape b) = if holds_shape h b then Body.shape b else None.
Proof.
  unfold dynamic_cast_shape, holds_shape.
  destruct (Body.shape b) as [a|]; [|done]. by destruct (deref h a) as [[]|].
Qed.

Lemma gather_shapes_spec h bodies cs :
  gather_shapes h bodies cs
  = if forallb (holds_shape h) bodies
    then Returned (append_all SHAPE (omap Body.shape bodies) cs)
    else Exited 1 not_a_shape.
Proof.
  revert cs. induction bodies as [|b bodies IH]; intros cs; simpl; [done|].
  rewrite dynamic_cast_shape_holds.
  destruct (holds_shape h b) eqn:E; simpl; [|done].
  unfold holds_shape in E. destruct (Body.shape b) as [a|]; [|done]. simpl.
  apply IH.
Qed.

Lemma at_empty g : at_ g (∅ : QHash) = [].
Proof. unfold at_. by rewrite lookup_empty. Qed.

Lemma gather_spec s :
  gather s
  = if forallb (holds_shape (heap s)) (m_bodies s)
    then Returned
           (let r := gather_globals (m_globalConstraints s)
                       (append_all SHAPE (omap Body.shape (m_bodies s)) ∅) in
            mkFrame (set_globalConstraints s r.1) r.2)
    else Exited 1 not_a_shape.
Proof. unfold gather. rewrite gather_shapes_spec. by destruct (forallb _ _). Qed.

(** The local lists when gathering returns: the bodies' shape constraints,
    then the global SHAPE list, under SHAPE; the global list under every
    other group. *)
Lemma gather_lists s f0 g :
  gather s = Returned f0 ->
  at_ g (constraints f0)
  = (if decide (SHAPE = g) then omap Body.shape (m_bodies s) else [])
    ++ at_ g (m_globalConstraints s).
Proof.
  rewrite gather_spec. destruct (forallb _ _); [|done]. intros [= <-]. simpl.
  destruct (gather_globals_spec (m_globalConstraints s)
              (append_all SHAPE (omap Body.shape (m_bodies s)) ∅)) as [_ H].
  rewrite H. by rewrite at_append_all, at_empty.
Qed.

Lemma gather_sim s f0 :
  gather s = Returned f0 ->
  m_particles (sim f0) = m_particles s /\ m_bodies (sim f0) = m_bodies s
  /\ heap (sim f0) = heap s
  /\ forall g, at_ g (m_globalConstraints (sim f0)) = at_ g (m_globalConstraints s).
Proof.
  rewrite gather_spec. destruct (forallb _ _); [|done]. intros [= <-]. simpl.
  split_and!; try done.
  apply (gather_globals_spec (m_globalConstraints s)).
Qed.

(** C8.  At the start of [tick] the shape slot of each body is checked in
    turn.  A body whose slot holds a [TotalShapeConstraint] has that pointer
    appended to the local SHAPE list; a body whose slot does not makes the
    process exit with code 1 and the diagnostic.  So either every slot holds
    a shape constraint, and [tick] returns with all of them gathered under
    SHAPE (before the global SHAPE constraints), or [tick] exits with the
    diagnostic; there is no third outcome. *)
Theorem shape_slots_checked s seconds :
  (forall b cs,
      gather_shapes (heap s) [b] cs
      = if holds_shape (heap s) b
        then Returned (append_all SHAPE (omap Body.shape [b]) cs)
        else Exited 1 not_a_shape)
  /\ if forallb (holds_shape (heap s)) (m_bodies s)
     then exists f0 s',
         gather s = Returned f0
         /\ at_ SHAPE (constraints f0)
            = omap Body.shape (m_bodies s) ++ at_ SHAPE (m_globalConstraints s)
         /\ tick cfg ext s seconds = Returned s'
     else gather s = Exited 1 not_a_shape
          /\ tick cfg ext s seconds = Exited 1 not_a_shape.
Proof.
  split.
  - intros b cs. rewrite gather_shapes_spec. simpl. by rewrite andb_true_r.
  - pose proof (gather_spec s) as Hg.
    destruct (forallb _ _) eqn:E.
    + eexists _, _. split; [exact Hg|]. split.
      * rewrite (gather_lists s _ SHAPE Hg). by destruct (decide _).
      * unfold tick. rewrite tick_frame_phases, Hg. done.
    + split; [done|]. unfold tick. by rewrite tick_frame_phases, Hg.
Qed.
End ShapeSlots.

(** ** C9: the temporary constraints *)

(** [delete] on each pointer of a list, last first *)
Definition release (l : list ptr) (h : Store) : Store := foldr delete_ h l.

Lemma deref_delete (h : Store) a b :
  deref (delete_ a h) b = if decide (a = b) then None else deref h b.
Proof.
  unfold deref, delete_. destruct (decide (a = b)) as [->|Hne].
  - destruct (decide (b < List.length h)).
    + by rewrite list_lookup_insert_eq.
    + rewrite lookup_ge_None_2; [done|]. rewrite length_insert. lia.
  - by rewrite list_lookup_insert_ne.
Qed.

Lemma deref_release l (h : Store) a :
  deref (release l h) a = if decide (a ∈ l) then None else deref h a.
Proof.
  induction l as [|b l IH]; simpl.
  - destruct (decide (a ∈ [])) as [Hin|]; [by apply elem_of_nil in Hin|done].
  - rewrite deref_delete, IH.
    destruct (decide (b = a)) as [->|Hne].
    + destruct (decide (a ∈ a :: l)) as [|Hnin]; [done|]. exfalso. apply Hnin. left.
    + destruct (decide (a ∈ l)), (decide (a ∈ b :: l)) as [Hin|Hnin]; try done.
      * exfalso. apply Hnin. by right.
      * apply elem_of_cons in Hin as [->|]; done.
Qed.

Lemma snoc_of_length {A} (l : list A) i :
  List.length l = S i -> exists l0 c, l = l0 ++ [c] /\ List.length l0 = i.
Proof.
  intros Hlen. destruct (lookup_lt_is_Some_2 l i) as [c Hc]; [lia|].
  exists (take i l), c. split.
  - rewrite <- (take_S_r l i c Hc). symmetry. apply take_ge. lia.
  - rewrite length_take. lia.
Qed.

Lemma at_insert_eq g l (cs : QHash) : at_ g (<[g := l]> cs) = l.
Proof. unfold at_. by rewrite lookup_insert_eq. Qed.

Lemma at_insert_ne g g' l (cs : QHash) : g <> g' -> at_ g' (<[g := l]> cs) = at_ g' cs.
Proof. intros. unfold at_. by rewrite lookup_insert_ne. Qed.

(** The loop of lines 276-280 (and 281-285) empties the list of its group,
    deletes every object the list pointed to, and leaves the other lists. *)
Lemma delete_group_spec g n (cs : QHash) (h : Store) :
  List.length (at_ g cs) = n ->
  at_ g (delete_group g n (cs, h)).1 = []
  /\ (forall g', g <> g' -> at_ g' (delete_group g n (cs, h)).1 = at_ g' cs)
  /\ (delete_group g n (cs, h)).2 = release (at_ g cs) h.
Proof.
  revert cs h. induction n as [|i IH]; intros cs h Hlen; simpl.
  - apply nil_length_inv in Hlen. by rewrite Hlen.
  - destruct (snoc_of_length _ _ Hlen) as (l0 & c & Hl & Hl0).
    subst i. rewrite Hl, list_lookup_middle by done.
    rewrite delete_middle, app_nil_r.
    destruct (IH (<[g := l0]> cs) (delete_ c h)) as (H1 & H2 & H3).
    { by rewrite at_insert_eq. }
    split_and!.
    + exact H1.
    + intros g' Hne. rewrite H2 by done. by apply at_insert_ne.
    + rewrite H3, at_insert_eq. unfold release. by rewrite foldr_app.
Qed.

Lemma delete_all_spec g (st : QHash * Store) :
  at_ g (delete_all g st).1 = []
  /\ (forall g', g <> g' -> at_ g' (delete_all g st).1 = at_ g' st.1)
  /\ (delete_all g st).2 = release (at_ g st.1) st.2.
Proof. destruct st as [cs h]. by apply delete_group_spec. Qed.

Lemma addresses_ge g n es a : a ∈ addresses g n es -> n <= a.
Proof.
  revert n. induction es as [|e es IH]; intros n; simpl; [by intros ?%elem_of_nil|].
  rewrite elem_of_app. intros [Hin|Hin].
  - destruct (decide _); [|by apply elem_of_nil in Hin].
    apply list_elem_of_singleton in Hin. lia.
  - apply IH in Hin. lia.
Qed.

Lemma addresses_lookup n (es : list Emission) k e :
  es !! k = Some e -> n + k ∈ addresses e.1 n es.
Proof.
  revert n k. induction es as [|e' es IH]; intros n k; [done|].
  destruct k as [|k]; simpl.
  - intros [= ->]. rewrite Nat.add_0_r. destruct (decide _); [|done].
    apply elem_of_app. left. by apply list_elem_of_singleton.
  - intros Hk. apply elem_of_app. right. rewrite Nat.add_succ_r. by apply (IH (S n)).
Qed.

Lemma release_after_emit (es : list Emission) (cs : QHash) (h : Store) :
  (forall e, e ∈ es -> e.1 = CONTACT \/ e.1 = STABILIZATION) ->
  let r := delete_all STABILIZATION (delete_all CONTACT (emit_all es (cs, h))) in
  at_ CONTACT r.1 = [] /\ at_ STABILIZATION r.1 = []
  /\ (forall g, g <> CONTACT -> g <> STABILIZATION -> at_ g r.1 = at_ g cs)
  /\ (forall a, List.length h <= a -> deref r.2 a = None)
  /\ (forall a, a ∈ at_ CONTACT cs \/ a ∈ at_ STABILIZATION cs -> deref r.2 a = None)
  /\ (forall a, a < List.length h -> a ∉ at_ CONTACT cs -> a ∉ at_ STABILIZATION cs ->
                deref r.2 a = deref h a).
Proof.
  intros Hgroups r. subst r.
  set (st1 := emit_all es (cs, h)).
  destruct (delete_all_spec CONTACT st1) as (C1 & C2 & C3).
  destruct (delete_all_spec STABILIZATION (delete_all CONTACT st1)) as (S1 & S2 & S3).
  assert (Hat : forall g, at_ g st1.1 = at_ g cs ++ addresses g (List.length h) es)
    by (intros g; apply (emit_all_at g es (cs, h))).
  assert (Hst : st1.2 = h ++ map (fun e => Some e.2) es)
    by apply (emit_all_store es (cs, h)).
  assert (Hderef : forall a,
             deref (delete_all STABILIZATION (delete_all CONTACT st1)).2 a
             = if decide (a ∈ at_ STABILIZATION st1.1) then None
               else if decide (a ∈ at_ CONTACT st1.1) then None
               else deref st1.2 a).
  { intros a. rewrite S3, C3, (C2 STABILIZATION) by done. by rewrite !deref_release. }
  split_and!.
  - rewrite S2 by done. exact C1.
  - exact S1.
  - intros g Hc Hs. rewrite S2, C2 by done. rewrite Hat.
    destruct (addresses g (List.length h) es) as [|a l] eqn:E; [by rewrite app_nil_r|].
    exfalso. clear -E Hgroups Hc Hs.
    assert (Hin : a ∈ addresses g (List.length h) es) by (rewrite E; left).
    clear E. revert Hin. generalize (List.length h) as n.
    induction es as [|e es IH]; intros n; simpl; [by intros ?%elem_of_nil|].
    rewrite elem_of_app. intros [Hin|Hin].
    + destruct (decide (e.1 = g)) as [<-|]; [|by apply elem_of_nil in Hin].
      destruct (Hgroups e); [left|done|done].
    + apply (IH (fun e' He' => Hgroups e' (list_elem_of_further _ _ _ He')) (S n) Hin).
  - intros a Hge. rewrite Hderef. repeat destruct (decide _); try done.
    rewrite Hst. unfold deref.
    destruct ((h ++ map (fun e => Some e.2) es) !! a) as [o|] eqn:E; [exfalso|done].
    rewrite lookup_app_r in E by done.
    rewrite list_lookup_fmap in E.
    destruct (es !! (a - List.length h)) as [e|] eqn:Ee; [|done].
    pose proof (addresses_lookup (List.length h) es _ e Ee) as Hin.
    replace (List.length h + (a - List.length h)) with a in Hin by lia.
    destruct (Hgroups e) as [Hg|Hg]; [by eapply list_elem_of_lookup_2| |];
      rewrite Hg in Hin.
    + match goal with H : a ∉ at_ CONTACT _ |- _ => apply H end.
      rewrite Hat. apply elem_of_app. by right.
    + match goal with H : a ∉ at_ STABILIZATION _ |- _ => apply H end.
      rewrite Hat. apply elem_of_app. by right.
  - intros a Hin. rewrite Hderef. rewrite !Hat.
    destruct Hin as [Hin|Hin].
    + destruct (decide (a ∈ _ ++ _)); [done|].
      destruct (decide (a ∈ _ ++ _)) as [|Hn]; [done|].
      exfalso. apply Hn, elem_of_app. by left.
    + destruct (decide (a ∈ _ ++ _)) as [|Hn]; [done|].
      exfalso. apply Hn, elem_of_app. by left.
  - intros a Hlt Hc Hs. rewrite Hderef, !Hat.
    destruct (decide (a ∈ _ ++ _)) as [[Hin|Hin]%elem_of_app|]; [done| |].
    { apply addresses_ge in Hin. lia. }
    destruct (decide (a ∈ _ ++ _)) as [[Hin|Hin]%elem_of_app|]; [done| |].
    { apply addresses_ge in Hin. lia. }
    rewrite Hst. by apply deref_app_l.
Qed.

Section Teardown.
Context (cfg : Config) {Solver : Type} (ext : Externals Solver).
Implicit Type s : Simulation Solver.
Implicit Type f : Frame Solver.

(** Stabilization, the solver passes and velocity recovery leave the
    constraint lists, the store, the bodies and the global groups alone. *)
Lemma projection_phases_frame seconds f :
  let f' := recover cfg seconds (solve cfg ext (stabilize cfg ext f)) in
  constraints f' = constraints f /\ heap (sim f') = heap (sim f)
  /\ m_bodies (sim f') = m_bodies (sim f)
  /\ m_globalConstraints (sim f') = m_globalConstraints (sim f).
Proof. unfold recover, solve, stabilize. by destruct (USE_STABILIZATION cfg), (ITERATIVE cfg). Qed.

Lemma teardown_pair f :
  (constraints (teardown f), heap (sim (teardown f)))
  = delete_all STABILIZATION (delete_all CONTACT (constraints f, heap (sim f))).
Proof. unfold teardown. simpl. by destruct (delete_all _ _). Qed.

Lemma teardown_run seconds f0 :
  let f' := teardown (recover cfg seconds (solved cfg ext seconds f0)) in
  (constraints f', heap (sim f'))
  = delete_all STABILIZATION
      (delete_all CONTACT
         (emit_all (discovered cfg (predict cfg ext seconds f0))
                   (constraints f0, heap (sim f0)))).
Proof.
  intros f'. subst f'. unfold solved.
  destruct (projection_phases_frame seconds (discover cfg ext (predict cfg ext seconds f0)))
    as (Hc & Hh & _).
  rewrite teardown_pair, Hc, Hh.
  by rewrite (discover_run cfg ext (predict cfg ext seconds f0)).
Qed.

(** C9.  When [tick] returns, the local CONTACT and STABILIZATION lists are
    empty and every object they pointed to has been deleted: no object
    allocated during the tick is left in the store.  The local SHAPE and
    STANDARD lists are the ones gathered at the start of the tick; the
    shape slots of the bodies and the global lists are the ones the tick
    started with, and every object of the store that no global CONTACT or
    STABILIZATION list points to is still there.  [tick] has one
    [return]; its only other way out is the [exit(1)] of the gathering
    phase, before anything is allocated. *)
Theorem teardown_releases_contacts s seconds :
  match tick_frame cfg ext s seconds with
  | Returned f' =>
      at_ CONTACT (constraints f') = [] /\ at_ STABILIZATION (constraints f') = []
      /\ (forall a, List.length (heap s) <= a -> deref (heap (sim f')) a = None)
      /\ (forall a, a ∈ at_ CONTACT (m_globalConstraints s)
                    \/ a ∈ at_ STABILIZATION (m_globalConstraints s) ->
                    deref (heap (sim f')) a = None)
      /\ at_ SHAPE (constraints f')
         = omap Body.shape (m_bodies s) ++ at_ SHAPE (m_globalConstraints s)
      /\ at_ STANDARD (constraints f') = at_ STANDARD (m_globalConstraints s)
      /\ map Body.shape (m_bodies (sim f')) = map Body.shape (m_bodies s)
      /\ (forall g, at_ g (m_globalConstraints (sim f')) = at_ g (m_globalConstraints s))
      /\ (forall a, a < List.length (heap s) ->
                    a ∉ at_ CONTACT (m_globalConstraints s) ->
                    a ∉ at_ STABILIZATION (m_globalConstraints s) ->
                    deref (heap (sim f')) a = deref (heap s) a)
  | Exited code diagnostic => gather s = Exited code diagnostic
  | OutOfRange => False
  end.
Proof.
  rewrite tick_frame_phases.
  destruct (gather s) as [f0| |] eqn:Hg; simpl; [|done|].
  2:{ rewrite gather_spec in Hg. by destruct (forallb _ _). }
  destruct (gather_sim s f0 Hg) as (_ & Hb & Hh & Hgc).
  pose proof (gather_lists s f0 CONTACT Hg) as Hcontact.
  pose proof (gather_lists s f0 STABILIZATION Hg) as Hstab.
  pose proof (gather_lists s f0 SHAPE Hg) as Hshape.
  pose proof (gather_lists s f0 STANDARD Hg) as Hstandard.
  simpl in Hcontact, Hstab, Hstandard.
  destruct (decide (SHAPE = SHAPE)) as [_|]; [|done].
  pose proof (teardown_run seconds f0) as Hrun. simpl in Hrun.
  destruct (release_after_emit (discovered cfg (predict cfg ext seconds f0))
              (constraints f0) (heap (sim f0)))
    as (R1 & R2 & R3 & R4 & R5 & R6).
  { intros [g c] Hin. by apply discover_emits_groups in Hin. }
  rewrite <- Hrun in R1, R2, R3, R4, R5, R6. simpl in R1, R2, R3, R4, R5, R6.
  rewrite Hh in R4, R6. rewrite Hcontact, Hstab in R5, R6.
  split_and!; try done.
  - rewrite R3 by done. exact Hshape.
  - rewrite R3 by done. exact Hstandard.
  - destruct (projection_phases_frame seconds
                (discover cfg ext (predict cfg ext seconds f0))) as (_ & _ & Hbodies & _).
    change (map Body.shape (m_bodies (sim (recover cfg seconds (solved cfg ext seconds f0))))
            = map Body.shape (m_bodies s)).
    unfold solved. rewrite Hbodies. by rewrite <- Hb.
  - intros g. rewrite <- Hgc.
    destruct (projection_phases_frame seconds
                (discover cfg ext (predict cfg ext seconds f0))) as (_ & _ & _ & Hglobal).
    change (at_ g (m_globalConstraints (sim (recover cfg seconds (solved cfg ext seconds f0))))
            = at_ g (m_globalConstraints (sim f0))).
    unfold solved. by rewrite Hglobal.
Qed.
End Teardown.

(** ** C10: [clear] and [init] *)

Lemma remove_from_end_all {A : Type} (l : list A) : remove_from_end (List.length l) l = [].
Proof.
  remember (List.length l) as n eqn:Hn. revert l Hn.
  induction n as [|i IH]; intros l Hn; simpl.
  - symmetry in Hn. by apply nil_length_inv in Hn.
  - destruct (snoc_of_length l i) as (l0 & c & -> & Hl0); [done|].
    subst i. rewrite delete_middle, app_nil_r. by apply IH.
Qed.

Lemma filter_keeps_all {A : Type} (P : A -> Prop) `{!forall a, Decision (P a)} (l : list A) :
  (forall a, a ∈ l -> P a) -> l = filter P l.
Proof.
  induction l as [|a l IH]; intros HP; [done|].
  rewrite filter_cons_True by (apply HP; left).
  f_equal. apply IH. intros b Hb. apply HP. by right.
Qed.

Lemma contains_spec g (m : QHash) : contains g m = false -> at_ g m = [].
Proof.
  unfold contains, at_. destruct (m !! g) eqn:E; [|done].
  intros H. apply bool_decide_eq_false in H. exfalso. apply H. by eexists.
Qed.

(** Lines 38-42, for one group: [removeAll(c)] when the hash contains it *)
Definition remove_in (c : ptr) (g : ConstraintGroup) (m : QHash) : QHash :=
  if contains g m then <[g := filter (fun a => a <> c) (at_ g m)]> m else m.

Lemma at_remove_in c g g' (m : QHash) :
  at_ g' (remove_in c g m)
  = if decide (g = g') then filter (fun a => a <> c) (at_ g' m) else at_ g' m.
Proof.
  unfold remove_in. destruct (contains g m) eqn:E.
  - destruct (decide (g = g')) as [->|]; [by rewrite at_insert_eq|by rewrite at_insert_ne].
  - destruct (decide (g = g')) as [->|]; [|done]. by rewrite (contains_spec _ _ E).
Qed.

Lemma at_remove_everywhere c g (m : QHash) :
  at_ g (remove_everywhere c m) = filter (fun a => a <> c) (at_ g m).
Proof.
  change (remove_everywhere c m)
    with (remove_in c SHAPE (remove_in c STANDARD (remove_in c CONTACT
            (remove_in c STABILIZATION m)))).
  rewrite !at_remove_in. destruct g; repeat (destruct (decide _); try done).
Qed.

Lemma clear_group_spec group n (st : QHash * Store) :
  n <= List.length group ->
  (forall g, at_ g (clear_group group n st).1
             = filter (fun a => a ∉ take n group) (at_ g st.1))
  /\ (forall a, deref (clear_group group n st).2 a
                = if decide (a ∈ take n group) then None else deref st.2 a).
Proof.
  revert st. induction n as [|j IH]; intros st Hn.
  - change (clear_group group 0 st) with st. split.
    + intros g. apply filter_keeps_all. intros a _.
      rewrite (take_0 group). apply not_elem_of_nil.
    + intros a. destruct (decide (a ∈ take 0 group)) as [Hin|]; [|done].
      rewrite (take_0 group) in Hin. by apply elem_of_nil in Hin.
  - destruct (lookup_lt_is_Some_2 group j) as [c Hc]; [lia|].
    cbn [clear_group]. rewrite Hc.
    destruct (IH (remove_everywhere c st.1, delete_ c st.2)) as [IH1 IH2]; [lia|].
    simpl in IH1, IH2. rewrite (take_S_r group j c Hc). split.
    + intros g. rewrite IH1, at_remove_everywhere, list_filter_filter.
      apply list_filter_iff. intros a. rewrite elem_of_app, list_elem_of_singleton. tauto.
    + intros a. rewrite IH2, deref_delete.
      destruct (decide (a ∈ take j group ++ [c])) as [Hin|Hnin].
      * apply elem_of_app in Hin as [Hin|Hin%list_elem_of_singleton].
        -- by destruct (decide (a ∈ take j group)).
        -- subst a. destruct (decide (c ∈ take j group)); [done|].
           by destruct (decide (c = c)).
      * destruct (decide (a ∈ take j group)) as [Hin|_].
        { exfalso. apply Hnin, elem_of_app. by left. }
        destruct (decide (c = a)) as [->|]; [|done].
        exfalso. apply Hnin, elem_of_app. right. by apply list_elem_of_singleton.
Qed.

(** Lines 34-45, for one group *)
Definition clear_one (g : ConstraintGroup) (st : QHash * Store) : QHash * Store :=
  if contains g st.1
  then clear_group (at_ g st.1) (List.length (at_ g st.1)) st
  else st.

Lemma clear_one_spec g (st : QHash * Store) :
  (forall g', at_ g' (clear_one g st).1 = filter (fun a => a ∉ at_ g st.1) (at_ g' st.1))
  /\ (forall a, deref (clear_one g st).2 a
                = if decide (a ∈ at_ g st.1) then None else deref st.2 a).
Proof.
  unfold clear_one. destruct (contains g st.1) eqn:E.
  - destruct (clear_group_spec (at_ g st.1) (List.length (at_ g st.1)) st) as [H1 H2];
      [done|].
    rewrite take_ge in H1, H2 by done. by split.
  - rewrite (contains_spec _ _ E). split.
    + intros g'. apply filter_keeps_all. intros a _. apply not_elem_of_nil.
    + intros a. destruct (decide (a ∈ [])) as [Hin|]; [|done]. by apply elem_of_nil in Hin.
Qed.

(** What [clear] has achieved on the global groups after some steps, with
    respect to the hash and the store it started from: [dels] are the
    pointers deleted so far. *)
Definition cleared_by (dels : list ptr) (gc0 : QHash) (h0 : Store) (st : QHash * Store) : Prop :=
  (forall g, at_ g st.1 = filter (fun a => a ∉ dels) (at_ g gc0))
  /\ (forall a, deref st.2 a = if decide (a ∈ dels) then None else deref h0 a)
  /\ (forall a, a ∈ dels -> exists g, a ∈ at_ g gc0).

Lemma clear_one_cleared g dels gc0 h0 st :
  cleared_by dels gc0 h0 st ->
  cleared_by (dels ++ at_ g st.1) gc0 h0 (clear_one g st)
  /\ (forall a, a ∈ at_ g gc0 -> a ∈ dels ++ at_ g st.1).
Proof.
  intros (H1 & H2 & H3). destruct (clear_one_spec g st) as [C1 C2]. split; [split_and!|].
  - intros g'. rewrite C1, (H1 g'), list_filter_filter. apply list_filter_iff.
    intros a. rewrite elem_of_app. tauto.
  - intros a. rewrite C2, H2.
    destruct (decide (a ∈ dels ++ at_ g st.1)) as [Hin|Hnin].
    + apply elem_of_app in Hin as [Hin|Hin].
      * destruct (decide (a ∈ at_ g st.1)); [done|]. by destruct (decide (a ∈ dels)).
      * by destruct (decide (a ∈ at_ g st.1)).
    + destruct (decide (a ∈ at_ g st.1)) as [Hin|_].
      { exfalso. apply Hnin, elem_of_app. by right. }
      destruct (decide (a ∈ dels)) as [Hin|_]; [|done].
      exfalso. apply Hnin, elem_of_app. by left.
  - intros a [Hin|Hin]%elem_of_app; [by apply H3|].
    rewrite H1 in Hin. apply list_elem_of_filter in Hin as [_ Hin]. by exists g.
  - intros a Hin. apply elem_of_app. destruct (decide (a ∈ dels)); [by left|right].
    rewrite H1. by apply list_elem_of_filter.
Qed.

Lemma clear_globals_spec (gc0 : QHash) (h0 : Store) :
  (forall g, at_ g (clear_globals (gc0, h0)).1 = [])
  /\ (forall a g, a ∈ at_ g gc0 -> deref (clear_globals (gc0, h0)).2 a = None)
  /\ (forall a, (forall g, a ∉ at_ g gc0) ->
                deref (clear_globals (gc0, h0)).2 a = deref h0 a).
Proof.
  change (clear_globals (gc0, h0))
    with (clear_one SHAPE (clear_one STANDARD (clear_one CONTACT
            (clear_one STABILIZATION (gc0, h0))))).
  assert (H0 : cleared_by [] gc0 h0 (gc0, h0)).
  { split_and!.
    - intros g. apply filter_keeps_all. intros a _. apply not_elem_of_nil.
    - intros a. destruct (decide (a ∈ [])) as [Hin|]; [|done]. by apply elem_of_nil in Hin.
    - by intros a Hin%elem_of_nil. }
  destruct (clear_one_cleared STABILIZATION _ _ _ _ H0) as [H1 D1].
  destruct (clear_one_cleared CONTACT _ _ _ _ H1) as [H2 D2].
  destruct (clear_one_cleared STANDARD _ _ _ _ H2) as [H3 D3].
  destruct (clear_one_cleared SHAPE _ _ _ _ H3) as [H4 D4].
  set (st1 := clear_one STABILIZATION (gc0, h0)) in *.
  set (st2 := clear_one CONTACT st1) in *.
  set (st3 := clear_one STANDARD st2) in *.
  set (st4 := clear_one SHAPE st3) in *.
  set (dels := (((([] ++ at_ STABILIZATION (gc0, h0).1) ++ at_ CONTACT st1.1)
                 ++ at_ STANDARD st2.1) ++ at_ SHAPE st3.1)) in *.
  assert (Hall : forall a g, a ∈ at_ g gc0 -> a ∈ dels).
  { intros a g Hin. subst dels. rewrite !elem_of_app.
    destruct g; [apply D1 in Hin|apply D2 in Hin|apply D3 in Hin|apply D4 in Hin];
      rewrite ?elem_of_app in Hin; tauto. }
  destruct H4 as (L & Dr & Sub). split_and!.
  - intros g. rewrite L.
    destruct (filter (fun a => a ∉ dels) (at_ g gc0)) as [|a l] eqn:E; [done|].
    assert (Hin : a ∈ filter (fun a => a ∉ dels) (at_ g gc0)) by (rewrite E; left).
    apply list_elem_of_filter in Hin as [Hn Hin]. exfalso. by apply Hn, (Hall a g).
  - intros a g Hin. rewrite Dr. destruct (decide (a ∈ dels)) as [|Hn]; [done|].
    exfalso. by apply Hn, (Hall a g).
  - intros a Hout. rewrite Dr. destruct (decide (a ∈ dels)) as [Hin|]; [|done].
    apply Sub in Hin as [g Hin]. by apply Hout in Hin.
Qed.

Section Init.
Context {Solver : Type} (ext : Externals Solver) (scenes : Scenes Solver).
Implicit Type s : Simulation Solver.

Lemma clear_particles s : m_particles (clear s) = [].
Proof. unfold clear. simpl. apply remove_from_end_all. Qed.

Lemma clear_bodies s : m_bodies (clear s) = [].
Proof. unfold clear. simpl. apply remove_from_end_all. Qed.

Lemma clear_global_lists s g : at_ g (m_globalConstraints (clear s)) = [].
Proof. unfold clear. simpl. apply (clear_globals_spec (m_globalConstraints s) (heap s)). Qed.

Lemma clear_one_nothing g (st : QHash * Store) : at_ g st.1 = [] -> clear_one g st = st.
Proof. intros H. unfold clear_one. rewrite H. by destruct (contains g st.1). Qed.

Lemma clear_globals_nothing (gc : QHash) (h : Store) :
  (forall g, at_ g gc = []) -> clear_globals (gc, h) = (gc, h).
Proof.
  intros H.
  change (clear_globals (gc, h))
    with (clear_one SHAPE (clear_one STANDARD (clear_one CONTACT
            (clear_one STABILIZATION (gc, h))))).
  rewrite (clear_one_nothing STABILIZATION (gc, h)) by apply H.
  rewrite (clear_one_nothing CONTACT (gc, h)) by apply H.
  rewrite (clear_one_nothing STANDARD (gc, h)) by apply H.
  by rewrite (clear_one_nothing SHAPE (gc, h)) by apply H.
Qed.

(** Clearing a cleared simulation changes nothing. *)
Lemma clear_clear s : clear (clear s) = clear s.
Proof.
  unfold clear at 1. rewrite !remove_from_end_all.
  rewrite (clear_globals_nothing (m_globalConstraints (clear s)) (heap (clear s)))
    by apply clear_global_lists.
  pose proof (clear_particles s) as Hp. pose proof (clear_bodies s) as Hb.
  destruct (clear s). simpl in *. by subst.
Qed.

(** C10.  For every scene tag, [init] builds the scene on the simulation
    that [clear] leaves with the gravity set to (0, −9.8): a simulation
    without particles, without bodies and with every global constraint list
    empty, every constraint the global lists pointed to deleted.  The result
    therefore is the one [init] gives on the cleared simulation itself. *)
Theorem init_clears_first (type : SimulationType) s :
  let s2 := set_gravity (clear s) default_gravity in
  init ext scenes type s
  = (let s3 := build_scene scenes type s2 in
     set_standardSolver s3 (setupM ext (m_standardSolver s3) (m_particles s3) None))
  /\ m_particles s2 = [] /\ m_bodies s2 = []
  /\ (forall g, at_ g (m_globalConstraints s2) = [])
  /\ m_gravity s2 = glm.vec2 0%float (-9.8)%float
  /\ (forall a g, a ∈ at_ g (m_globalConstraints s) -> deref (heap s2) a = None)
  /\ init ext scenes type s = init ext scenes type (clear s).
Proof.
  intros s2. subst s2. split_and!.
  - done.
  - apply clear_particles.
  - apply clear_bodies.
  - apply clear_global_lists.
  - done.
  - apply (clear_globals_spec (m_globalConstraints s) (heap s)).
  - unfold init. by rewrite clear_clear.
Qed.
End Init.

(** * Worked examples *)

(** ** Concrete configurations *)

(** The constants of the spec's scenarios: unit diameter, radius one half,
    EPSILON about 1e-6 (here 2^-20), ALPHA below 1. *)
Definition reference_config : Config :=
  mkConfig 1%float 0.5%float 0x1p-20%float 0.5%float 0x1p-20%float 5 2 true true.

(** Externals that leave everything as it is (no constraint moves a particle,
    the mass scale is not recomputed, the solver has no state). *)
Definition inert_externals : Externals unit :=
  mkExternals unit
    (fun q => q)
    (fun _ _ ps => ps)
    (fun sv _ _ => sv)
    (fun sv _ _ _ => sv)
    (fun sv _ _ ps _ _ => (sv, ps))
    (fun b _ _ => b)
    (fun b _ => b).

Definition particle_at (pos : dvec2) (im : double) (phase : Phase) : Particle :=
  mkParticle pos glm.zero glm.zero im phase (-1) 0%float 0%float 0%float false.

(** A simulation in the domain of the friction and stacking scenes, with the
    default gravity, holding the given particles and nothing else. *)
Definition open_field (ps : list Particle) : Simulation unit :=
  mkSim ps [] ∅ (glm.vec2 0%float (-9.8)%float)
        (glm.vec2 (-20)%float 20%float) (glm.vec2 0%float 1000000%float)
        glm.zero (0, 0)%Z tt tt true [].

(** *** C1: two overlapping free SOLID particles *)

Definition placed (pos : dvec2) (im : double) (phase : Phase) : Particle :=
  set_ep (particle_at pos im phase) pos.

Definition left_grain : Particle := placed (glm.vec2 0%float 100%float) 1%float SOLID.
Definition right_grain : Particle := placed (glm.vec2 0.5%float 100%float) 1%float SOLID.

Definition two_grains : Frame unit := mkFrame (open_field [left_grain; right_grain]) ∅.

Lemma contact_discovery_pairs_witness :
  RigidContactConstraint 0 1
    ∈ created CONTACT two_grains (discover reference_config inert_externals two_grains)
  /\ RigidContactConstraint 0 1
    ∈ created STABILIZATION two_grains (discover reference_config inert_externals two_grains)
  /\ ContactConstraint 0 1
    ∉ created CONTACT two_grains (discover reference_config inert_externals two_grains).
Proof.
  destruct (contact_discovery_pairs reference_config inert_externals two_grains
              0 1 left_grain right_grain)
    as (_ & _ & _ & Hrigid & Hstab & Hcontact & _); [reflexivity|reflexivity|lia|].
  split_and!.
  - apply Hrigid. split_and!; reflexivity.
  - apply Hstab. split_and!; reflexivity.
  - intros Hin. apply Hcontact in Hin as (_ & _ & Hone). discriminate Hone.
Defined.

(** *** C4: a gas particle and a solid one, half a second

    Gravity (0, −8), ALPHA = 1/2, [dt = 1/2], both at rest at (0, 100).  The
    gas particle gets [v = 0 + 1/2·(−8·1/2) = −2] and [ep = 100 + 1/2·(−2)];
    the solid one [v = 0 + 1/2·(−8) = −4] and [ep = 100 + 1/2·(−4)]. *)
Definition gas_grain : Particle := placed (glm.vec2 0%float 100%float) 1%float GAS.

Definition drifting : Frame unit :=
  mkFrame (set_gravity (open_field [gas_grain; left_grain]) (glm.vec2 0%float (-8)%float)) ∅.

Lemma forces_prediction_scaling_witness :
  exists q0 q1,
    m_particles (sim (predict reference_config inert_externals 0.5%float drifting)) !! 0
    = Some q0
    /\ m_particles (sim (predict reference_config inert_externals 0.5%float drifting)) !! 1
       = Some q1
    /\ v q0 = glm.vec2 0%float (-2)%float /\ ep q0 = glm.vec2 0%float 99%float
    /\ v q1 = glm.vec2 0%float (-4)%float /\ ep q1 = glm.vec2 0%float 98%float.
Proof.
  destruct (forces_prediction_scaling reference_config inert_externals drifting 0.5%float)
    as (Hi & _).
  pose proof (Hi 0 gas_grain eq_refl) as H0.
  pose proof (Hi 1 left_grain eq_refl) as H1.
  cbv zeta in H0, H1.
  eexists _, _. split; [exact H0|]. split; [exact H1|].
  split_and!; vm_compute; reflexivity.
Defined.

(** *** C6: a particle moved down by one unit, half a second

    [p = (0, 100)], [ep = (0, 99)], [dt = 1/2]: [v = (0 − 0, 99 − 100)/(1/2)
    = (0, −2)]; the move is not below [sleepEps], so [p ← ep]. *)
Definition lowered : Particle :=
  set_ep (particle_at (glm.vec2 0%float 100%float) 1%float SOLID) (glm.vec2 0%float 99%float).

Lemma velocity_recovery_witness :
  exists q',
    m_particles (sim (recover reference_config 0.5%float
                        (mkFrame (open_field [lowered]) ∅))) !! 0 = Some q'
    /\ v q' = glm.vec2 0%float (-2)%float
    /\ p q' = glm.vec2 0%float 99%float.
Proof.
  destruct (velocity_recovery reference_config inert_externals (open_field [lowered])
              0.5%float) as (_ & Hrec & _); [reflexivity|].
  destruct (Hrec (mkFrame (open_field [lowered]) ∅)) as (Hi & _).
  destruct (Hi 0 lowered eq_refl) as (q' & Hq' & _ & Hawake & _).
  cbv zeta in Hawake. destruct Hawake as [Hv Hp]; [vm_compute; reflexivity|].
  exists q'. split; [exact Hq'|]. split.
  - rewrite Hv. vm_compute. reflexivity.
  - rewrite Hp. reflexivity.
Defined.

(** *** C3: a click to the right of a particle at rest

    The particle is at the origin and the click at (1, 0):
    [to = normalize((1,0) − (0,0)) = (1, 0)] and [v = (0,0) + 7·(1,0) = (7, 0)],
    toward the click; an outward impulse would give [(−7, 0)]. *)
Definition origin_grain : Particle := particle_at glm.zero 1%float SOLID.

Lemma mouse_press_not_outward :
  m_particles (mousePressed (glm.vec2 1%float 0%float) (open_field [origin_grain]))
  = [set_v origin_grain (glm.vec2 7%float 0%float)]
  /\ ~ pushes_outward (glm.vec2 1%float 0%float) (open_field [origin_grain]).
Proof.
  split; [vm_compute; reflexivity|].
  unfold pushes_outward. intros H.
  apply (f_equal (fun ps => match ps with
                            | q :: _ => (0 <? glm.x (v q))%float
                            | [] => false
                            end)) in H.
  vm_compute in H. discriminate.
Qed.

(** *** C5: a run that records the projections

    Every projection appends a particle that carries, as its [bod], the first
    index of the constraint projected: the particle list is the log of the
    projections in the order they ran. *)
Definition constraint_tag (c : Constraint) : Z :=
  match c with
  | DistanceConstraint i _ | ContactConstraint i _ | RigidContactConstraint i _
  | BoundaryConstraint i _ _ _ _ | TotalShapeConstraint i => Z.of_nat i
  | TotalFluidConstraint _ _ | GasConstraint _ _ => -1
  end.

Definition recording_externals : Externals unit :=
  mkExternals unit
    (fun q => q)
    (fun _ c ps => ps ++ [set_bod (particle_at glm.zero 1%float FLUID) (constraint_tag c)])
    (fun sv _ _ => sv)
    (fun sv _ _ _ => sv)
    (fun sv _ _ ps _ _ => (sv, ps))
    (fun b _ _ => b)
    (fun b _ => b).

Definition two_iterations : Config :=
  mkConfig 1%float 0.5%float 0x1p-20%float 0.5%float 0x1p-20%float 2 2 true true.

(** One constraint per group: the shape constraint 10 at address 0, the
    distance constraint 20 at 1, the contact 30 at 2, the stabilization
    boundary constraint 40 at 3. *)
Definition one_per_group : Frame unit :=
  mkFrame
    (set_heap (open_field [])
       [Some (TotalShapeConstraint 10); Some (DistanceConstraint 20 21);
        Some (ContactConstraint 30 31);
        Some (BoundaryConstraint 40 0%float true true (Some true))])
    (<[SHAPE := [0]]> (<[STANDARD := [1]]> (<[CONTACT := [2]]> (<[STABILIZATION := [3]]> ∅)))).

Lemma iterative_solver_pass_witness :
  map bod (m_particles (sim (solve two_iterations recording_externals one_per_group)))
  = [30; 20; 10; 30; 20; 10]%Z.
Proof.
  destruct (iterative_solver_pass two_iterations recording_externals one_per_group)
    as (-> & _); [reflexivity|]. vm_compute. reflexivity.
Defined.

(** *** C7: a body of two unit-mass particles that were FLUID, with [bod = -1] *)

Definition flat_sdf : SDFData := mkSDF (glm.vec2 0%float 1%float) 0.5%float.



(** *** C8: a body whose shape slot is empty *)

Example tick_exits_on_empty_slot :
  tick reference_config inert_externals (set_bodies (open_field []) [Body.fresh]) 1%float
  = Exited 1 "Rigid body's attached constraint was not a shape constraint.".
Proof. vm_compute. reflexivity. Qed.

(** *** C9: the contacts of two overlapping grains

    Discovery allocates a rigid contact for CONTACT and one for
    STABILIZATION; when the tick is over both lists are empty and both
    objects are deleted. *)

Example discovery_allocates_contacts :
  heap (sim (discover reference_config inert_externals two_grains))
  = [Some (RigidContactConstraint 0 1); Some (RigidContactConstraint 0 1)]
  /\ at_ CONTACT (constraints (discover reference_config inert_externals two_grains)) = [0]
  /\ at_ STABILIZATION (constraints (discover reference_config inert_externals two_grains)) = [1].
Proof. split_and!; vm_compute; reflexivity. Qed.

Example tick_frees_contacts :
  Outcome_map
    (fun f => (at_ CONTACT (constraints f), at_ STABILIZATION (constraints f), heap (sim f)))
    (tick_frame reference_config inert_externals
                (open_field [set_p left_grain (glm.vec2 0%float 100%float);
                             set_p right_grain (glm.vec2 0.5%float 100%float)]) 1%float)
  = Returned ([], [], [None; None]).
Proof. vm_compute. reflexivity. Qed.

(** *** C10: clearing a simulation with a particle and two global constraints *)

Definition tethered : Simulation unit :=
  set_globalConstraints
    (set_heap (open_field [left_grain])
              [Some (DistanceConstraint 0 1); Some (DistanceConstraint 1 2)])
    (<[STANDARD := [0; 1]]> ∅).

Example clear_tethered :
  m_particles (clear tethered) = []
  /\ at_ STANDARD (m_globalConstraints (clear tethered)) = []
  /\ heap (clear tethered) = [None; None].
Proof. split_and!; vm_compute; reflexivity. Qed.

(** * The rest of the driver *)

(** ** [createGas], [createFluid], [getNumParticles], [getKineticEnergy] *)

Section Fluids.
Context {Solver : Type}.
Implicit Type s : Simulation Solver.

Definition fluid_infinite_mass : string :=
  "A fluid cannot have a point of infinite mass.".

(** The loop of lines 330-342 (and 351-363): the running state is
    [m_particles] and the local [indices]. *)
Fixpoint add_fluid_vertices (phase : Phase) (tag : Z) (offset i : nat) (verts : list Particle)
         (acc : list Particle * list nat) : Outcome (list Particle * list nat) :=
  match verts with
  | [] => Returned acc
  | q0 :: rest =>
      let q := set_bod (set_ph q0 phase) tag in
      if (imass q =? 0)%float
      then Exited 1 fluid_infinite_mass
      else add_fluid_vertices phase tag offset (S i) rest (acc.1 ++ [q], acc.2 ++ [offset + i])
  end.

(** The body shared by the two functions, which differ in the phase and in
    the constraint class.  [tag] is the value of [int bod = 100 * frand()]:
    [frand] is not among the covered sources, so the number it draws is an
    argument. *)
Definition create_group (phase : Phase) (make : list nat -> Constraint) (tag : Z)
           (verts : list Particle) s : Outcome (Simulation Solver) :=
  Outcome_map
    (fun acc : list Particle * list nat =>
       let r := new_ (make acc.2) (heap s) in
       set_heap (set_globalConstraints (set_particles s acc.1)
                   (append STANDARD r.1 (m_globalConstraints s)))
                r.2)
    (add_fluid_vertices phase tag (List.length (m_particles s)) 0 verts (m_particles s, [])).

(** [Simulation::createGas], lines 325-344 *)
Definition createGas (tag : Z) (verts : list Particle) (density : double) s
  : Outcome (Simulation Solver) :=
  create_group GAS (GasConstraint density) tag verts s.

(** [Simulation::createFluid], lines 346-365 *)
Definition createFluid (tag : Z) (verts : list Particle) (density : double) s
  : Outcome (Simulation Solver) :=
  create_group FLUID (TotalFluidConstraint density) tag verts s.

(** [Simulation::getNumParticles], lines 779-782 *)
Definition getNumParticles s : Z := Z.of_nat (List.length (m_particles s)).

(** [Simulation::getKineticEnergy], lines 784-794 *)
Definition add_energy (energy : double) (q : Particle) : double :=
  if negb (imass q =? 0)%float
  then (energy + 0.5 * glm.dot (v q) (v q) / imass q)%float
  else energy.

Definition getKineticEnergy s : double := foldl add_energy 0%float (m_particles s).

End Fluids.

(** A caller that advances the simulation [n] times with the same step, as
    long as [tick] returns. *)
Fixpoint ticks {Solver : Type} (cfg : Config) (ext : Externals Solver) (n : nat)
         (s : Simulation Solver) (seconds : double) : Outcome (Simulation Solver) :=
  match n with
  | 0 => Returned s
  | S n' =>
      match tick cfg ext s seconds with
      | Returned s' => ticks cfg ext n' s' seconds
      | Exited code diagnostic => Exited code diagnostic
      | OutOfRange => OutOfRange
      end
  end.

(** ** Contact discovery: boundaries, stabilization twins, indices, allocation *)

Section DiscoveryMore.
Context (cfg : Config) {Solver : Type} (ext : Externals Solver).
Implicit Type f : Frame Solver.

(** The boundary a particle has crossed along one axis (lines 160-170 for
    the x axis, 172-182 for the y axis): the side ([true] for the lower
    bound, tested first) and the bound. *)
Definition boundary_side (xB yB : dvec2) (q : Particle) (xBoundary : bool)
  : option (bool * double) :=
  if xBoundary then
    if (glm.x (ep q) <? glm.x xB + PARTICLE_RAD cfg)%float then Some (true, glm.x xB)
    else if (glm.y xB - PARTICLE_RAD cfg <? glm.x (ep q))%float then Some (false, glm.y xB)
    else None
  else
    if (glm.y (ep q) <? glm.x yB + PARTICLE_RAD cfg)%float then Some (true, glm.x yB)
    else if (glm.y yB - PARTICLE_RAD cfg <? glm.y (ep q))%float then Some (false, glm.y yB)
    else None.

Lemma boundary_emits_side g xB yB i q val xb gr stabile :
  (g, BoundaryConstraint i val xb gr stabile) ∈ boundary_emits cfg xB yB i q
  <-> boundary_side xB yB q xb = Some (gr, val)
      /\ ((g = CONTACT /\ stabile = None)
          \/ (g = STABILIZATION /\ stabile = Some true /\ USE_STABILIZATION cfg = true)).
Proof.
  unfold boundary_emits, boundary_hit_emits, boundary_side. rewrite elem_of_app.
  destruct xb; repeat (destruct (_ <? _)%float); destruct (USE_STABILIZATION cfg);
    rewrite ?elem_of_cons, ?elem_of_nil; naive_solver.
Qed.

(** The boundary constraints of particle [i] in the whole loop are the ones
    its own boundary tests allocate. *)
Lemma discover_emits_boundary g val xb gr stabile xB yB ps i :
  (g, BoundaryConstraint i val xb gr stabile) ∈ discover_emits cfg xB yB 0 ps
  <-> exists q, ps !! i = Some q
                /\ (g, BoundaryConstraint i val xb gr stabile) ∈ boundary_emits cfg xB yB i q.
Proof.
  rewrite elem_of_discover_emits. simpl. split.
  - intros (k & q & Hk & [Hin|Hin]).
    + apply elem_of_pairs_emits in Hin as (? & ? & _ & Hin%pair_emits_shape).
      by destruct Hin.
    + pose proof Hin as Hs. apply boundary_emits_shape in Hs as (? & ? & ? & ? & Heq).
      injection Heq as <-. by exists q.
  - intros (q & Hi & Hin). exists i, q. auto.
Qed.
End DiscoveryMore.

Section DiscoveryExtras.
Context (cfg : Config) {Solver : Type} (ext : Externals Solver).
Implicit Type f : Frame Solver.

(** X1.  Boundary contacts (lines 160-182).  For the particle at index [i]
    contact discovery appends to CONTACT exactly one boundary constraint per
    axis along which the predicted position has crossed a bound, on the
    lower bound when the lower test holds and on the upper bound only when
    it does not, with the fifth argument left to its default; and to
    STABILIZATION the same constraint with that argument [true], exactly
    when stabilization is compiled in. *)
Theorem boundary_contact_discovery f i q val xb gr stabile :
  m_particles (sim f) !! i = Some q ->
  let f' := discover cfg ext f in
  let side := boundary_side cfg (m_xBoundaries (sim f)) (m_yBoundaries (sim f)) q xb in
  (BoundaryConstraint i val xb gr stabile ∈ created CONTACT f f'
   <-> side = Some (gr, val) /\ stabile = None)
  /\ (BoundaryConstraint i val xb gr stabile ∈ created STABILIZATION f f'
      <-> side = Some (gr, val) /\ stabile = Some true /\ USE_STABILIZATION cfg = true).
Proof.
  intros Hi f' side. subst f' side.
  assert (Hb : forall g,
             BoundaryConstraint i val xb gr stabile ∈ created g f (discover cfg ext f)
             <-> (g, BoundaryConstraint i val xb gr stabile)
                 ∈ boundary_emits cfg (m_xBoundaries (sim f)) (m_yBoundaries (sim f)) i q).
  { intros g. rewrite discover_created, elem_of_emitted. unfold discovered.
    rewrite discover_emits_boundary. split.
    - intros (q' & Hq' & Hin). congruence.
    - intros Hin. by exists q. }
  split; rewrite Hb, boundary_emits_side; naive_solver.
Qed.

Lemma emitted_app g (es1 es2 : list Emission) :
  emitted g (es1 ++ es2) = emitted g es1 ++ emitted g es2.
Proof. unfold emitted. by rewrite filter_app, map_app. Qed.

(** The constraint that stabilization gets beside a contact constraint *)
Definition stabilizing (c : Constraint) : option Constraint :=
  match c with
  | RigidContactConstraint i j => Some (RigidContactConstraint i j)
  | BoundaryConstraint i val xb gr _ => Some (BoundaryConstraint i val xb gr (Some true))
  | _ => None
  end.

Definition twins (es : list Emission) : Prop :=
  emitted STABILIZATION es
  = if USE_STABILIZATION cfg then omap stabilizing (emitted CONTACT es) else [].

Lemma twins_app es1 es2 : twins es1 -> twins es2 -> twins (es1 ++ es2).
Proof.
  unfold twins. rewrite !emitted_app. intros -> ->.
  destruct (USE_STABILIZATION cfg); [|done]. by rewrite omap_app.
Qed.

Lemma twins_nil : twins [].
Proof. unfold twins. by destruct (USE_STABILIZATION cfg). Qed.

Lemma pair_emits_twins i j q q2 : twins (pair_emits cfg i j q q2).
Proof.
  unfold twins, pair_emits, emitted.
  destruct (skipped q q2), (overlapping cfg q q2), (both_solid q q2), (one_solid q q2),
    (USE_STABILIZATION cfg); done.
Qed.

Lemma pairs_emits_twins i j q others : twins (pairs_emits cfg i j q others).
Proof.
  revert j. induction others as [|q2 rest IH]; intros j; simpl; [apply twins_nil|].
  apply twins_app; [apply pair_emits_twins|apply IH].
Qed.

Lemma boundary_emits_twins xB yB i q : twins (boundary_emits cfg xB yB i q).
Proof.
  unfold boundary_emits. apply twins_app;
    repeat (destruct (_ <? _)%float); try apply twins_nil;
    unfold twins, boundary_hit_emits, emitted; by destruct (USE_STABILIZATION cfg).
Qed.

Lemma discover_emits_twins xB yB i ps : twins (discover_emits cfg xB yB i ps).
Proof.
  revert i. induction ps as [|q rest IH]; intros i; simpl; [apply twins_nil|].
  apply twins_app; [apply pairs_emits_twins|].
  apply twins_app; [apply boundary_emits_twins|apply IH].
Qed.

(** X2.  Stabilization twins (lines 147-150, 161-181).  With stabilization
    compiled in, the constraints contact discovery appends to STABILIZATION
    are, in the same order, the twins of the rigid and boundary contacts it
    appends to CONTACT: one per [RigidContactConstraint] and one (with the
    stabilizing flag) per [BoundaryConstraint], none for a
    [ContactConstraint]. *)
Theorem stabilization_twins f :
  USE_STABILIZATION cfg = true ->
  created STABILIZATION f (discover cfg ext f)
  = omap stabilizing (created CONTACT f (discover cfg ext f)).
Proof.
  intros Hs. rewrite !discover_created.
  pose proof (discover_emits_twins (m_xBoundaries (sim f)) (m_yBoundaries (sim f)) 0
                (m_particles (sim f))) as H.
  unfold twins in H. by rewrite Hs in H.
Qed.

(** X3.  Without stabilization compiled in (lines 148-150, 162-181,
    188-210), contact discovery appends nothing to STABILIZATION and the
    stabilization pass leaves the frame as it is: no constraint is ever
    projected with the stabilizing flag. *)
Theorem stabilization_disabled f :
  USE_STABILIZATION cfg = false ->
  created STABILIZATION f (discover cfg ext f) = []
  /\ at_ STABILIZATION (constraints (discover cfg ext f)) = at_ STABILIZATION (constraints f)
  /\ stabilize cfg ext f = f.
Proof.
  intros Hs.
  pose proof (discover_emits_twins (m_xBoundaries (sim f)) (m_yBoundaries (sim f)) 0
                (m_particles (sim f))) as H.
  unfold twins in H. rewrite Hs in H.
  assert (Hc : created STABILIZATION f (discover cfg ext f) = [])
    by (by rewrite discover_created).
  split_and!; [done| |unfold stabilize; by rewrite Hs].
  rewrite discover_appends.
  assert (Hlen : List.length (addresses STABILIZATION (List.length (heap (sim f)))
                                (discovered cfg f)) = 0).
  { generalize (List.length (heap (sim f))) as n. unfold discovered.
    unfold emitted in H. revert H.
    generalize (discover_emits cfg (m_xBoundaries (sim f)) (m_yBoundaries (sim f)) 0
                  (m_particles (sim f))) as es.
    induction es as [|e es IH]; intros H n; simpl; [done|].
    rewrite filter_cons in H. destruct (decide (e.1 = STABILIZATION)); [done|].
    simpl. by apply IH. }
  apply nil_length_inv in Hlen. by rewrite Hlen, app_nil_r.
Qed.
End DiscoveryExtras.

Section DiscoveryAllocation.
Context (cfg : Config) {Solver : Type} (ext : Externals Solver).
Implicit Type f : Frame Solver.

(** The particles a constraint names exist among [n] particles (and, for a
    contact, are two different ones, the lower index first). *)
Definition refers_below (n : nat) (c : Constraint) : Prop :=
  match c with
  | RigidContactConstraint i j | ContactConstraint i j => i < j /\ j < n
  | BoundaryConstraint i _ _ _ _ => i < n
  | _ => False
  end.

(** X4.  Every constraint contact discovery creates (lines 125-183) is a
    contact between two different existing particles, lower index first, or
    a boundary constraint on an existing particle: no index is out of range
    and nothing but these three classes is created. *)
Theorem discovered_indices_valid f g c :
  c ∈ created g f (discover cfg ext f) ->
  refers_below (List.length (m_particles (sim f))) c.
Proof.
  rewrite discover_created, elem_of_emitted. unfold discovered.
  intros (k & q & Hk & [Hin|Hin])%elem_of_discover_emits; simpl in Hin.
  - apply elem_of_pairs_emits in Hin as (k' & q2 & Hk' & Hin%pair_emits_shape).
    rewrite lookup_drop in Hk'. apply lookup_lt_Some in Hk'.
    destruct Hin as [->| ->]; simpl; lia.
  - apply boundary_emits_shape in Hin as (? & ? & ? & ? & ->). simpl.
    by apply lookup_lt_Some in Hk.
Qed.

Lemma addresses_range g n es a :
  a ∈ addresses g n es -> n <= a < n + List.length es.
Proof.
  revert n. induction es as [|e es IH]; intros n; simpl; [by intros ?%elem_of_nil|].
  rewrite elem_of_app. intros [Hin|Hin].
  - destruct (decide _); [|by apply elem_of_nil in Hin].
    apply list_elem_of_singleton in Hin. lia.
  - apply IH in Hin. lia.
Qed.

Lemma addresses_NoDup g n es : NoDup (addresses g n es).
Proof.
  revert n. induction es as [|e es IH]; intros n; simpl; [apply NoDup_nil_2|].
  apply NoDup_app. split_and!; [|intros a Ha Hin|apply IH].
  - destruct (decide _); [apply NoDup_singleton|apply NoDup_nil_2].
  - destruct (decide _); [|by apply elem_of_nil in Ha].
    apply list_elem_of_singleton in Ha. subst a. apply addresses_range in Hin. lia.
Qed.

Lemma addresses_one_group g g' n es a :
  a ∈ addresses g n es -> a ∈ addresses g' n es -> g = g'.
Proof.
  revert n. induction es as [|e es IH]; intros n; simpl; [by intros ?%elem_of_nil|].
  rewrite !elem_of_app. intros [H1|H1] [H2|H2].
  - destruct (decide (e.1 = g)), (decide (e.1 = g')); try by apply elem_of_nil in H1.
    + congruence.
    + by apply elem_of_nil in H2.
  - destruct (decide (e.1 = g)); [|by apply elem_of_nil in H1].
    apply list_elem_of_singleton in H1. subst a. apply addresses_range in H2. lia.
  - destruct (decide (e.1 = g')); [|by apply elem_of_nil in H2].
    apply list_elem_of_singleton in H2. subst a. apply addresses_range in H1. lia.
  - by apply (IH (S n)).
Qed.

Lemma addresses_live g n es (h : Store) a :
  n = List.length h ->
  a ∈ addresses g n es ->
  exists c, deref (h ++ map (fun e => Some e.2) es) a = Some c /\ (g, c) ∈ es.
Proof.
  revert n h. induction es as [|e es IH]; intros n h Hn; simpl; [by intros ?%elem_of_nil|].
  rewrite elem_of_app. intros [Hin|Hin].
  - destruct (decide (e.1 = g)) as [<-|]; [|by apply elem_of_nil in Hin].
    apply list_elem_of_singleton in Hin. subst a n. exists e.2.
    rewrite deref_alloc. split; [done|]. destruct e. left.
  - destruct (IH (S n) (h ++ [Some e.2])) as (c & Hc & Hin'); [|done|].
    { rewrite length_app. simpl. lia. }
    exists c. rewrite <- app_assoc in Hc. split; [done|]. by right.
Qed.

(** X5.  Allocation in contact discovery (lines 125-183).  Discovery leaves
    the particles and every existing object of the store as they are and
    keeps what each list held in front; each pointer it appends is the
    address of a new, live object, appended once and to one list only, and
    the store grows by exactly the number of pointers appended. *)
Theorem discovery_allocates_fresh f :
  let f' := discover cfg ext f in
  m_particles (sim f') = m_particles (sim f)
  /\ (exists objects, heap (sim f') = heap (sim f) ++ map Some objects)
  /\ (forall g, exists new,
         at_ g (constraints f') = at_ g (constraints f) ++ new
         /\ NoDup new
         /\ (forall a, a ∈ new ->
                       List.length (heap (sim f)) <= a < List.length (heap (sim f'))
                       /\ is_Some (deref (heap (sim f')) a)
                       /\ forall g', a ∈ drop (List.length (at_ g' (constraints f)))
                                              (at_ g' (constraints f')) -> g' = g))
  /\ List.length (heap (sim f'))
     = List.length (heap (sim f))
       + List.length (drop (List.length (at_ CONTACT (constraints f)))
                           (at_ CONTACT (constraints f')))
       + List.length (drop (List.length (at_ STABILIZATION (constraints f)))
                           (at_ STABILIZATION (constraints f'))).
Proof.
  intros f'. subst f'.
  assert (Hheap : heap (sim (discover cfg ext f))
                  = heap (sim f) ++ map (fun e => Some e.2) (discovered cfg f)).
  { change (heap (sim (discover cfg ext f)))
      with (constraints (discover cfg ext f), heap (sim (discover cfg ext f))).2.
    rewrite discover_run. apply (emit_all_store (discovered cfg f) (constraints f, heap (sim f))). }
  assert (Hdrop : forall g, drop (List.length (at_ g (constraints f)))
                                 (at_ g (constraints (discover cfg ext f)))
                            = addresses g (List.length (heap (sim f))) (discovered cfg f)).
  { intros g. by rewrite discover_appends, drop_app_length. }
  split_and!.
  - done.
  - exists (map snd (discovered cfg f)). by rewrite Hheap, map_map.
  - intros g. exists (addresses g (List.length (heap (sim f))) (discovered cfg f)).
    split_and!; [apply discover_appends|apply addresses_NoDup|].
    intros a Ha. split; [|split].
    + apply addresses_range in Ha. rewrite Hheap, length_app, length_map. lia.
    + rewrite Hheap.
      destruct (addresses_live g _ (discovered cfg f) (heap (sim f)) a eq_refl Ha)
        as (c & -> & _). by eexists.
    + intros g'. rewrite Hdrop. intros Ha'.
      by apply (addresses_one_group g' g (List.length (heap (sim f))) (discovered cfg f) a).
  - rewrite !Hdrop, Hheap, length_app, length_map.
    assert (Hg : forall e, e ∈ discovered cfg f -> e.1 = CONTACT \/ e.1 = STABILIZATION).
    { intros [g c] Hin. by apply discover_emits_groups in Hin. }
    revert Hg. generalize (List.length (heap (sim f))) as n.
    generalize (discovered cfg f) as es. clear.
    induction es as [|e es IH]; intros n Hg; simpl; [lia|].
    rewrite !length_app.
    specialize (IH (S n) (fun e' He' => Hg e' (list_elem_of_further _ _ _ He'))).
    destruct (Hg e) as [He|He]; [left| |]; rewrite He; simpl; lia.
Qed.
End DiscoveryAllocation.

(** ** The stabilization pass and the solver pass *)

Section Passes.
Context (cfg : Config) {Solver : Type} (ext : Externals Solver).
Implicit Type s : Simulation Solver.
Implicit Type f : Frame Solver.

Lemma stabilize_loop_iterative n bodies h cs (sp : Solver * list Particle) :
  ITERATIVE cfg = true ->
  stabilize_loop cfg ext n bodies h cs sp
  = (sp.1, Nat.iter n (sweep ext bodies h (at_ STABILIZATION cs)) sp.2).
Proof.
  intros Hit. revert sp. induction n as [|n IH]; intros [sv ps]; [done|].
  cbn [stabilize_loop]. rewrite Hit, IH. cbn [fst snd]. by rewrite Nat.iter_succ_r.
Qed.

Lemma stabilize_loop_batched n bodies h cs (sp : Solver * list Particle) :
  ITERATIVE cfg = false ->
  stabilize_loop cfg ext n bodies h cs sp
  = if decide (0 < List.length (at_ STABILIZATION cs))
    then Nat.iter n (fun x => solveAndUpdate ext x.1 bodies h x.2
                                (at_ STABILIZATION cs) (Some true)) sp
    else sp.
Proof.
  intros Hit. revert sp. induction n as [|n IH]; intros sp.
  - simpl. by destruct (decide _).
  - cbn [stabilize_loop]. rewrite Hit.
    destruct (decide (0 < List.length (at_ STABILIZATION cs))) as [Hne|He]; [|done].
    rewrite IH. by rewrite Nat.iter_succ_r.
Qed.

(** X6.  The stabilization pass in iterative mode (lines 191-197): it runs
    [STABILIZATION_ITERATIONS] sweeps over the STABILIZATION list, each
    projection on the particles left by the one before, and uses no solver:
    the contact solver, the lists and the store are as before. *)
Theorem stabilization_pass_iterative f :
  USE_STABILIZATION cfg = true ->
  ITERATIVE cfg = true ->
  m_particles (sim (stabilize cfg ext f))
  = Nat.iter (Z.to_nat (STABILIZATION_ITERATIONS cfg))
      (sweep ext (m_bodies (sim f)) (heap (sim f)) (at_ STABILIZATION (constraints f)))
      (m_particles (sim f))
  /\ m_contactSolver (sim (stabilize cfg ext f)) = m_contactSolver (sim f)
  /\ constraints (stabilize cfg ext f) = constraints f
  /\ heap (sim (stabilize cfg ext f)) = heap (sim f).
Proof.
  intros Hs Hit. unfold stabilize. rewrite Hs. simpl.
  by rewrite stabilize_loop_iterative.
Qed.

(** X7.  The stabilization pass in batched mode (lines 199-204): when the
    STABILIZATION list is empty the loop breaks at once and the solver is
    never called; otherwise the contact solver is called
    [STABILIZATION_ITERATIONS] times on the whole list with the stabilizing
    flag, each call on the particles and the solver state the previous one
    left. *)
Theorem stabilization_pass_batched f :
  USE_STABILIZATION cfg = true ->
  ITERATIVE cfg = false ->
  (m_contactSolver (sim (stabilize cfg ext f)), m_particles (sim (stabilize cfg ext f)))
  = match at_ STABILIZATION (constraints f) with
    | [] => (m_contactSolver (sim f), m_particles (sim f))
    | _ :: _ =>
        Nat.iter (Z.to_nat (STABILIZATION_ITERATIONS cfg))
          (fun x => solveAndUpdate ext x.1 (m_bodies (sim f)) (heap (sim f)) x.2
                      (at_ STABILIZATION (constraints f)) (Some true))
          (m_contactSolver (sim f), m_particles (sim f))
    end.
Proof.
  intros Hs Hit. unfold stabilize. rewrite Hs. simpl.
  rewrite stabilize_loop_batched by done.
  destruct (at_ STABILIZATION (constraints f)) as [|a l]; simpl.
  - done.
  - by destruct (Nat.iter _ _ _).
Qed.

Lemma stabilize_empty f :
  at_ STABILIZATION (constraints f) = [] ->
  m_particles (sim (stabilize cfg ext f)) = m_particles (sim f).
Proof.
  intros He. unfold stabilize. destruct (USE_STABILIZATION cfg); [|done]. simpl.
  destruct (ITERATIVE cfg) eqn:Hit.
  - rewrite stabilize_loop_iterative by done. simpl. rewrite He.
    generalize (Z.to_nat (STABILIZATION_ITERATIONS cfg)) as n.
    induction n as [|n IH]; [done|]. simpl. by rewrite IH.
  - rewrite stabilize_loop_batched by done. rewrite He.
    destruct (decide _) as [Hn|]; [simpl in Hn; lia|done].
Qed.

Lemma solve_batched_shape_only n bodies h cs (x : Solver * Solver * list Particle) :
  at_ CONTACT cs = [] -> at_ STANDARD cs = [] ->
  solve_batched ext n bodies h cs x
  = (x.1.1, x.1.2, Nat.iter n (sweep ext bodies h (at_ SHAPE cs)) x.2).
Proof.
  intros Hc Hs. revert x. induction n as [|n IH]; intros [[st ct] ps]; [done|].
  cbn [solve_batched]. rewrite IH, Nat.iter_succ_r.
  unfold solve_batched_iteration. rewrite Hc, Hs.
  destruct (decide (0 < List.length (@nil ptr))) as [Hn|_]; [simpl in Hn; lia|].
  cbn [fst snd].
  destruct (decide (0 < List.length (at_ SHAPE cs))) as [|Hn]; [done|].
  destruct (at_ SHAPE cs); [done|simpl in Hn; lia].
Qed.

Lemma solve_shape_only f :
  at_ CONTACT (constraints f) = [] -> at_ STANDARD (constraints f) = [] ->
  m_particles (sim (solve cfg ext f))
  = Nat.iter (Z.to_nat (SOLVER_ITERATIONS cfg))
      (sweep ext (m_bodies (sim f)) (heap (sim f)) (at_ SHAPE (constraints f)))
      (m_particles (sim f)).
Proof.
  intros Hc Hs. unfold solve. destruct (ITERATIVE cfg) eqn:Hit; simpl.
  - rewrite solve_iterative_iter.
    generalize (Z.to_nat (SOLVER_ITERATIONS cfg)) as n.
    induction n as [|n IH]; [done|]. simpl. rewrite IH, solve_iteration_sweep.
    by rewrite Hc, Hs.
  - by rewrite solve_batched_shape_only.
Qed.

Lemma solve_solvers_shape_only f :
  at_ CONTACT (constraints f) = [] -> at_ STANDARD (constraints f) = [] ->
  (m_standardSolver (sim (solve cfg ext f)), m_contactSolver (sim (solve cfg ext f)))
  = if ITERATIVE cfg
    then (m_standardSolver (sim f), m_contactSolver (sim f))
    else (setupSizes ext (m_standardSolver (sim f)) (List.length (m_particles (sim f)))
                     (heap (sim f)) [],
          setupSizes ext (m_contactSolver (sim f)) (List.length (m_particles (sim f)))
                     (heap (sim f)) []).
Proof.
  intros Hc Hs. unfold solve. destruct (ITERATIVE cfg); [done|].
  cbn [sim m_standardSolver m_contactSolver set_standardSolver set_contactSolver
       set_particles].
  rewrite solve_batched_shape_only by done. cbn [fst snd]. by rewrite Hc, Hs.
Qed.

(** X8.  When a tick has no contact and no standard constraint, the two
    solver strategies (lines 212-231 and 233-258) leave the same particles:
    in either mode the solver pass is [SOLVER_ITERATIONS] Gauss-Seidel
    sweeps over the SHAPE list, and with no shape constraint either (or no
    iteration) the particles stay as they are.  [solveAndUpdate] is called
    in neither mode.  The modes differ in the solvers: iterative mode
    leaves both as they are, batched mode has sized each of them once, on
    its empty list (lines 235-236). *)
Theorem solver_pass_shapes_only f :
  at_ CONTACT (constraints f) = [] ->
  at_ STANDARD (constraints f) = [] ->
  m_particles (sim (solve cfg ext f))
  = Nat.iter (Z.to_nat (SOLVER_ITERATIONS cfg))
      (sweep ext (m_bodies (sim f)) (heap (sim f)) (at_ SHAPE (constraints f)))
      (m_particles (sim f))
  /\ (at_ SHAPE (constraints f) = [] ->
      m_particles (sim (solve cfg ext f)) = m_particles (sim f))
  /\ ((SOLVER_ITERATIONS cfg <= 0)%Z ->
      m_particles (sim (solve cfg ext f)) = m_particles (sim f))
  /\ (ITERATIVE cfg = true ->
      m_standardSolver (sim (solve cfg ext f)) = m_standardSolver (sim f)
      /\ m_contactSolver (sim (solve cfg ext f)) = m_contactSolver (sim f))
  /\ (ITERATIVE cfg = false ->
      m_standardSolver (sim (solve cfg ext f))
      = setupSizes ext (m_standardSolver (sim f)) (List.length (m_particles (sim f)))
                   (heap (sim f)) []
      /\ m_contactSolver (sim (solve cfg ext f))
         = setupSizes ext (m_contactSolver (sim f)) (List.length (m_particles (sim f)))
                      (heap (sim f)) []).
Proof.
  intros Hc Hs. pose proof (solve_solvers_shape_only f Hc Hs) as Hsolvers.
  rewrite solve_shape_only by done. split_and!; [done| | | |].
  - intros ->. generalize (Z.to_nat (SOLVER_ITERATIONS cfg)) as n.
    induction n as [|n IH]; [done|]. simpl. by rewrite IH.
  - intros Hn. by rewrite Z2Nat.nonpos.
  - intros Hit. rewrite Hit in Hsolvers. by injection Hsolvers as -> ->.
  - intros Hit. rewrite Hit in Hsolvers. by injection Hsolvers as -> ->.
Qed.
End Passes.

(** ** Whole ticks *)

Section WholeTicks.
Context (cfg : Config) {Solver : Type} (ext : Externals Solver).
Implicit Type s : Simulation Solver.
Implicit Type f : Frame Solver.

Lemma predict_particles seconds f :
  m_particles (sim (predict cfg ext seconds f))
  = map (predicted cfg ext (m_gravity (sim f)) seconds) (m_particles (sim f)).
Proof.
  unfold predict. simpl. rewrite for_particles_map. apply map_ext.
  intros q. apply apply_forces_predicted.
Qed.

Lemma stabilize_frame f :
  constraints (stabilize cfg ext f) = constraints f
  /\ heap (sim (stabilize cfg ext f)) = heap (sim f)
  /\ m_bodies (sim (stabilize cfg ext f)) = m_bodies (sim f).
Proof. unfold stabilize. by destruct (USE_STABILIZATION cfg). Qed.

Lemma tick_returns s seconds s' :
  tick cfg ext s seconds = Returned s' ->
  exists f0, gather s = Returned f0
             /\ s' = sim (teardown (recover cfg seconds (solved cfg ext seconds f0))).
Proof.
  unfold tick. rewrite tick_frame_phases.
  destruct (gather s) as [f0| |]; simpl; [|done..]. intros [= <-]. by exists f0.
Qed.

(** X9.  Free flight.  In a simulation without bodies and without global
    constraints, a tick in which contact discovery finds nothing (no
    overlapping pair, no boundary crossed) returns, leaves the store as it
    is, and takes every particle through the force-and-prediction step and
    the velocity-and-position step only: no projection and no solver call
    changes a particle. *)
Theorem tick_free_flight s seconds :
  m_bodies s = [] ->
  (forall g, at_ g (m_globalConstraints s) = []) ->
  discover_emits cfg (m_xBoundaries s) (m_yBoundaries s) 0
    (map (predicted cfg ext (m_gravity s) seconds) (m_particles s)) = [] ->
  exists s',
    tick cfg ext s seconds = Returned s'
    /\ m_particles s'
       = map (fun q => recovered cfg seconds (predicted cfg ext (m_gravity s) seconds q))
             (m_particles s)
    /\ heap s' = heap s.
Proof.
  intros Hb Hg Hfree.
  pose proof (gather_spec s) as Hgather. rewrite Hb in Hgather. simpl in Hgather.
  set (f0 := mkFrame
               (set_globalConstraints s (gather_globals (m_globalConstraints s) ∅).1)
               (gather_globals (m_globalConstraints s) ∅).2) in *.
  assert (Hlists : forall g, at_ g (constraints f0) = []).
  { intros g. rewrite (gather_lists s f0 g Hgather), Hb, Hg. by destruct (decide _). }
  assert (Hnone : discovered cfg (predict cfg ext seconds f0) = []).
  { unfold discovered. rewrite predict_particles. exact Hfree. }
  set (f1 := predict cfg ext seconds f0) in *.
  assert (Hlists2 : forall g, at_ g (constraints (discover cfg ext f1)) = []).
  { intros g. rewrite discover_appends, Hnone. simpl. rewrite app_nil_r. apply Hlists. }
  destruct (stabilize_frame (discover cfg ext f1)) as (Hsc & _ & _).
  exists (sim (teardown (recover cfg seconds (solved cfg ext seconds f0)))).
  split_and!.
  - unfold tick. rewrite tick_frame_phases, Hgather. done.
  - rewrite teardown_particles, recover_particles. unfold solved. fold f1.
    rewrite solve_shape_only by (rewrite Hsc; apply Hlists2).
    rewrite Hsc, Hlists2.
    assert (Hiter : forall n (ps : list Particle) bodies h,
               Nat.iter n (sweep ext bodies h []) ps = ps).
    { intros n ps bodies h. induction n as [|n IH]; [done|]. simpl. by rewrite IH. }
    rewrite Hiter, stabilize_empty by apply Hlists2.
    change (m_particles (sim (discover cfg ext f1))) with (m_particles (sim f1)).
    unfold f1. rewrite predict_particles, map_map. done.
  - pose proof (teardown_run cfg ext seconds f0) as Hrun. cbv zeta in Hrun.
    fold f1 in Hrun. rewrite Hnone in Hrun.
    change (emit_all [] (constraints f0, heap (sim f0))) with (constraints f0, heap (sim f0))
      in Hrun.
    change (heap (sim (teardown (recover cfg seconds (solved cfg ext seconds f0)))))
      with (constraints (teardown (recover cfg seconds (solved cfg ext seconds f0))),
            heap (sim (teardown (recover cfg seconds (solved cfg ext seconds f0))))).2.
    rewrite Hrun.
    destruct (delete_all_spec STABILIZATION
                (delete_all CONTACT (constraints f0, heap (sim f0)))) as (_ & _ & ->).
    destruct (delete_all_spec CONTACT (constraints f0, heap (sim f0))) as (_ & H2 & ->).
    rewrite H2 by done. simpl. by rewrite !Hlists.
Qed.

(** The members no phase of [tick] assigns. *)
Definition settings s :=
  (m_gravity s, m_xBoundaries s, m_yBoundaries s, m_point s, m_dimensions s, debug s,
   m_bodies s).

Lemma predict_settings seconds f :
  settings (sim (predict cfg ext seconds f)) = settings (sim f)
  /\ m_standardSolver (sim (predict cfg ext seconds f)) = m_standardSolver (sim f).
Proof. done. Qed.

Lemma discover_settings f :
  settings (sim (discover cfg ext f)) = settings (sim f)
  /\ m_standardSolver (sim (discover cfg ext f)) = m_standardSolver (sim f).
Proof. done. Qed.

Lemma stabilize_settings f :
  settings (sim (stabilize cfg ext f)) = settings (sim f)
  /\ m_standardSolver (sim (stabilize cfg ext f)) = m_standardSolver (sim f).
Proof. unfold stabilize. by destruct (USE_STABILIZATION cfg). Qed.

Lemma solve_settings f :
  settings (sim (solve cfg ext f)) = settings (sim f)
  /\ (ITERATIVE cfg = true ->
      m_standardSolver (sim (solve cfg ext f)) = m_standardSolver (sim f)).
Proof. unfold solve. by destruct (ITERATIVE cfg). Qed.

Lemma recover_settings seconds f :
  settings (sim (recover cfg seconds f)) = settings (sim f)
  /\ m_standardSolver (sim (recover cfg seconds f)) = m_standardSolver (sim f).
Proof. done. Qed.

Lemma teardown_settings f :
  settings (sim (teardown f)) = settings (sim f)
  /\ m_standardSolver (sim (teardown f)) = m_standardSolver (sim f).
Proof. done. Qed.

Lemma gather_settings s f0 :
  gather s = Returned f0 ->
  settings (sim f0) = settings s /\ m_standardSolver (sim f0) = m_standardSolver s.
Proof.
  rewrite gather_spec. destruct (forallb _ _); [|done]. by intros [= <-].
Qed.

Lemma tick_settings s seconds s' :
  tick cfg ext s seconds = Returned s' ->
  settings s' = settings s
  /\ (ITERATIVE cfg = true -> m_standardSolver s' = m_standardSolver s).
Proof.
  intros (f0 & Hg & ->)%tick_returns.
  destruct (gather_settings s f0 Hg) as [G1 G2].
  set (f1 := predict cfg ext seconds f0).
  set (f2 := discover cfg ext f1).
  set (f3 := stabilize cfg ext f2).
  set (f4 := solve cfg ext f3).
  set (f5 := recover cfg seconds f4).
  assert (Hf5 : recover cfg seconds (solved cfg ext seconds f0) = f5) by done.
  rewrite Hf5. clear Hf5.
  destruct (teardown_settings f5) as [T1 T2], (recover_settings seconds f4) as [R1 R2],
           (solve_settings f3) as [S1 S2], (stabilize_settings f2) as [B1 B2],
           (discover_settings f1) as [D1 D2], (predict_settings seconds f0) as [P1 P2].
  fold f1 in P1, P2. fold f2 in D1, D2. fold f3 in B1, B2. fold f4 in S1, S2.
  fold f5 in R1, R2.
  split; [congruence|].
  intros Hit. rewrite T2, R2, S2, B2, D2, P2 by done. done.
Qed.

(** X10.  What a tick never touches: gravity, the two boundary vectors,
    [m_point], [m_dimensions], [debug], the number of bodies and their shape
    slots; and in iterative mode the standard solver is not used at all. *)
Theorem tick_leaves_settings s seconds s' :
  tick cfg ext s seconds = Returned s' ->
  m_gravity s' = m_gravity s
  /\ m_xBoundaries s' = m_xBoundaries s /\ m_yBoundaries s' = m_yBoundaries s
  /\ m_point s' = m_point s /\ m_dimensions s' = m_dimensions s /\ debug s' = debug s
  /\ map Body.shape (m_bodies s') = map Body.shape (m_bodies s)
  /\ (ITERATIVE cfg = true -> m_standardSolver s' = m_standardSolver s).
Proof.
  intros [Hs Hstd]%tick_settings.
  unfold settings in Hs. injection Hs as H1 H2 H3 H4 H5 H6 H7.
  split_and!; try done. exact (f_equal (map Body.shape) H7).
Qed.
End WholeTicks.

Section GlobalKeys.
Context (cfg : Config) {Solver : Type} (ext : Externals Solver).
Implicit Type s : Simulation Solver.

Lemma gather_stops_keys i (gc : QHash) g :
  (forall g', group_index g' < i -> is_Some (gc !! g')) ->
  ~ i < size gc -> is_Some (gc !! g) -> group_index g < i.
Proof.
  intros Hinv Hstop [l E]. rewrite QHash_size in Hstop.
  assert (Hp : forall g', group_index g' < i -> present g' gc = 1).
  { intros g' Hg'. destruct (Hinv g' Hg') as [? Hs]. unfold present. by rewrite Hs. }
  assert (Hg : present g gc = 1) by (unfold present; by rewrite E).
  pose proof (Hp STABILIZATION) as H0. pose proof (Hp CONTACT) as H1.
  pose proof (Hp STANDARD) as H2. pose proof (Hp SHAPE) as H3.
  simpl in *. destruct g; simpl in *; lia.
Qed.

Lemma gather_globals_from_keys n i (gc cs : QHash) :
  i + n = S NUM_CONSTRAINT_GROUPS ->
  (forall g, group_index g < i -> is_Some (gc !! g)) ->
  let r := gather_globals_from (seq i n) gc cs in
  (forall g, is_Some (gc !! g) -> is_Some (r.1 !! g))
  /\ exists k, forall g, is_Some (r.1 !! g) <-> group_index g < k.
Proof.
  revert i gc cs. induction n as [|n IH]; intros i gc cs Hn Hinv; simpl.
  - split; [done|]. exists i. intros g. split; [|apply Hinv].
    unfold NUM_CONSTRAINT_GROUPS in Hn. intros _. destruct g; simpl; lia.
  - destruct (decide (i < size gc)) as [Hlt|Hstop].
    + pose proof (QHash_size_le gc) as Hsz. unfold NUM_CONSTRAINT_GROUPS in *.
      destruct (group_of_int i) as [gi|] eqn:Egi.
      2:{ exfalso. do 4 (destruct i as [|i]; [done|]). lia. }
      apply group_of_int_Some in Egi.
      destruct (IH (S i) (touch gi gc) (append_all gi (at_ gi gc) cs)) as [IH1 IH2].
      { lia. }
      { intros g Hg. apply touch_is_Some.
        destruct (decide (group_index g = i)) as [Heq|Hne].
        - left. destruct g, gi; simpl in *; congruence || lia.
        - right. apply Hinv. lia. }
      split; [|exact IH2].
      intros g Hs. apply IH1, touch_is_Some. by right.
    + simpl. split; [done|]. exists i. intros g. split; [|apply Hinv].
      by apply gather_stops_keys.
Qed.

Lemma phases_globals seconds f0 :
  m_globalConstraints (sim (teardown (recover cfg seconds (solved cfg ext seconds f0))))
  = m_globalConstraints (sim f0).
Proof.
  unfold solved.
  destruct (projection_phases_frame cfg ext seconds
              (discover cfg ext (predict cfg ext seconds f0))) as (_ & _ & _ & H).
  cbv zeta in H.
  transitivity (m_globalConstraints
                  (sim (recover cfg seconds
                          (solve cfg ext
                             (stabilize cfg ext
                                (discover cfg ext (predict cfg ext seconds f0)))))));
    [done|].
  by rewrite H.
Qed.

(** X11.  The loop over [m_globalConstraints.size()] (lines 98-103).  Its
    bound counts keys, not groups, and reading a missing key inserts it: so
    the loop still reaches every group that holds constraints, each global
    list is appended to the local list of its group (after the bodies' shape
    constraints for SHAPE), and when the tick returns the hash has kept its
    lists and its keys and has gained an empty list for every missing group
    below its highest key: its keys are then the first [k] groups. *)
Theorem global_constraints_all_gathered s seconds s' :
  tick cfg ext s seconds = Returned s' ->
  (exists f0, gather s = Returned f0
              /\ forall g, at_ g (constraints f0)
                           = (if decide (SHAPE = g) then omap Body.shape (m_bodies s) else [])
                             ++ at_ g (m_globalConstraints s))
  /\ (forall g, at_ g (m_globalConstraints s') = at_ g (m_globalConstraints s))
  /\ (forall g, is_Some (m_globalConstraints s !! g) -> is_Some (m_globalConstraints s' !! g))
  /\ exists k, forall g, is_Some (m_globalConstraints s' !! g) <-> group_index g < k.
Proof.
  intros (f0 & Hg & ->)%tick_returns.
  rewrite phases_globals. split_and!.
  - exists f0. split; [done|]. intros g. by apply gather_lists.
  - by apply gather_sim.
  - rewrite gather_spec in Hg. destruct (forallb _ _); [|done]. injection Hg as <-. simpl.
    apply (gather_globals_from_keys (S NUM_CONSTRAINT_GROUPS) 0); [done|intros g; lia].
  - rewrite gather_spec in Hg. destruct (forallb _ _); [|done]. injection Hg as <-. simpl.
    apply (gather_globals_from_keys (S NUM_CONSTRAINT_GROUPS) 0
             (m_globalConstraints s)); [done|intros g; lia].
Qed.

(** What a returning tick does to the store. *)
Lemma tick_store s seconds s' :
  tick cfg ext s seconds = Returned s' ->
  (forall a, List.length (heap s) <= a -> deref (heap s') a = None)
  /\ (forall a, a ∈ at_ CONTACT (m_globalConstraints s)
                \/ a ∈ at_ STABILIZATION (m_globalConstraints s) ->
                deref (heap s') a = None)
  /\ (forall a, a < List.length (heap s) ->
                a ∉ at_ CONTACT (m_globalConstraints s) ->
                a ∉ at_ STABILIZATION (m_globalConstraints s) ->
                deref (heap s') a = deref (heap s) a)
  /\ (forall g, at_ g (m_globalConstraints s') = at_ g (m_globalConstraints s))
  /\ List.length (heap s) <= List.length (heap s').
Proof.
  intros Ht. pose proof Ht as (f0 & Hg & ->)%tick_returns.
  destruct (gather_sim s f0 Hg) as (_ & _ & Hh & Hgc).
  pose proof (gather_lists s f0 CONTACT Hg) as Hcontact.
  pose proof (gather_lists s f0 STABILIZATION Hg) as Hstab.
  simpl in Hcontact, Hstab.
  pose proof (teardown_run cfg ext seconds f0) as Hrun. cbv zeta in Hrun.
  destruct (release_after_emit (discovered cfg (predict cfg ext seconds f0))
              (constraints f0) (heap (sim f0)))
    as (_ & _ & _ & R4 & R5 & R6).
  { intros [g c] Hin. by apply discover_emits_groups in Hin. }
  rewrite <- Hrun in R4, R5, R6. simpl in R4, R5, R6.
  rewrite Hh in R4, R6. rewrite Hcontact, Hstab in R5, R6.
  split_and!; try done.
  - intros g. by rewrite phases_globals.
  - change (heap (sim (teardown (recover cfg seconds (solved cfg ext seconds f0)))))
      with (constraints (teardown (recover cfg seconds (solved cfg ext seconds f0))),
            heap (sim (teardown (recover cfg seconds (solved cfg ext seconds f0))))).2.
    rewrite Hrun.
    destruct (delete_all_spec STABILIZATION
                (delete_all CONTACT
                   (emit_all (discovered cfg (predict cfg ext seconds f0))
                             (constraints f0, heap (sim f0))))) as (_ & _ & ->).
    destruct (delete_all_spec CONTACT
                (emit_all (discovered cfg (predict cfg ext seconds f0))
                          (constraints f0, heap (sim f0)))) as (_ & _ & ->).
    assert (Hrel : forall l (h : Store), List.length (release l h) = List.length h).
    { intros l h. induction l as [|b l IH]; simpl; [done|].
      unfold delete_. by rewrite length_insert. }
    rewrite !Hrel, emit_all_store, length_app. simpl. rewrite Hh. lia.
Qed.

Lemma ticks_store n s seconds s' :
  ticks cfg ext n s seconds = Returned s' ->
  (forall a, deref (heap s) a = None -> deref (heap s') a = None)
  /\ (forall g, at_ g (m_globalConstraints s') = at_ g (m_globalConstraints s))
  /\ (forall a, a < List.length (heap s) ->
                a ∉ at_ CONTACT (m_globalConstraints s) ->
                a ∉ at_ STABILIZATION (m_globalConstraints s) ->
                deref (heap s') a = deref (heap s) a).
Proof.
  revert s. induction n as [|n IH]; intros s; simpl.
  - by intros [= <-].
  - destruct (tick cfg ext s seconds) as [s1| |] eqn:Ht; [|done..]. intros Hn.
    destruct (tick_store s seconds s1 Ht) as (T1 & T2 & T3 & T4 & T5).
    destruct (IH s1 Hn) as (I1 & I2 & I3).
    split_and!.
    + intros a Ha. apply I1.
      destruct (decide (List.length (heap s) <= a)) as [|Hlt]; [by apply T1|].
      destruct (decide (a ∈ at_ CONTACT (m_globalConstraints s))) as [|Hc];
        [apply T2; by left|].
      destruct (decide (a ∈ at_ STABILIZATION (m_globalConstraints s))) as [|Hs];
        [apply T2; by right|].
      rewrite T3; [done|lia|done..].
    + intros g. by rewrite I2, T4.
    + intros a Ha Hc Hs. rewrite I3; [by apply T3|lia|by rewrite T4|by rewrite T4].
Qed.

(** X12.  No leak over any number of ticks.  However many ticks return, no
    object allocated by any of them is left in the store, the global lists
    are the ones before the first tick, and every object of the store that
    no global CONTACT or STABILIZATION list points to is still there. *)
Theorem ticks_leave_no_contact n s seconds s' :
  ticks cfg ext n s seconds = Returned s' ->
  (forall a, List.length (heap s) <= a -> deref (heap s') a = None)
  /\ (forall g, at_ g (m_globalConstraints s') = at_ g (m_globalConstraints s))
  /\ (forall a, a < List.length (heap s) ->
                a ∉ at_ CONTACT (m_globalConstraints s) ->
                a ∉ at_ STABILIZATION (m_globalConstraints s) ->
                deref (heap s') a = deref (heap s) a).
Proof.
  intros (H1 & H2 & H3)%ticks_store. split_and!; [|done..].
  intros a Ha. apply H1. unfold deref. by rewrite lookup_ge_None_2.
Qed.
End GlobalKeys.

(** ** Gas and fluid groups *)

Section FluidGroups.
Context {Solver : Type}.
Implicit Type s : Simulation Solver.

(** A vertex as [createGas] and [createFluid] append it *)
Definition joined (phase : Phase) (tag : Z) (q : Particle) : Particle :=
  set_bod (set_ph q phase) tag.

Lemma add_fluid_vertices_spec phase tag offset verts :
  forall i (acc : list Particle * list nat),
    add_fluid_vertices phase tag offset i verts acc
    = if existsb infinite_mass verts
      then Exited 1 fluid_infinite_mass
      else Returned (acc.1 ++ map (joined phase tag) verts,
                     acc.2 ++ seq (offset + i) (List.length verts)).
Proof.
  induction verts as [|q verts IH]; intros i [ps idx]; simpl.
  - by rewrite !app_nil_r.
  - unfold infinite_mass at 1. destruct (imass q =? 0)%float eqn:E; simpl; [done|].
    rewrite IH. destruct (existsb _ _); [done|]. simpl.
    rewrite <- !app_assoc. simpl. by rewrite Nat.add_succ_r.
Qed.

Lemma create_group_spec phase make tag verts s :
  create_group phase make tag verts s
  = if existsb infinite_mass verts
    then Exited 1 fluid_infinite_mass
    else Returned
           (mkSim (m_particles s ++ map (joined phase tag) verts) (m_bodies s)
                  (append STANDARD (List.length (heap s)) (m_globalConstraints s))
                  (m_gravity s) (m_xBoundaries s) (m_yBoundaries s) (m_point s)
                  (m_dimensions s) (m_standardSolver s) (m_contactSolver s) (debug s)
                  (heap s ++ [Some (make (seq (List.length (m_particles s))
                                              (List.length verts)))])).
Proof.
  unfold create_group. rewrite add_fluid_vertices_spec.
  destruct (existsb _ _); [done|]. simpl. by rewrite Nat.add_0_r.
Qed.

(** X13.  [createFluid] and [createGas] exit with code 1 and the diagnostic
    exactly when some vertex has [imass = 0]; there is no minimum number of
    vertices, so an empty list is accepted.  Otherwise they return, having
    appended every vertex to [m_particles] with phase FLUID (resp. GAS) and
    [bod] the drawn tag, and having appended to the global STANDARD list
    one new constraint, on the indices the vertices were given:
    [offset], [offset + 1], ... in order.  Bodies, the other members and
    the objects already in the store are as before, and [getNumParticles]
    has grown by the number of vertices. *)
Theorem fluid_creation_contract (tag : Z) (verts : list Particle) (density : double) s :
  let indices := seq (List.length (m_particles s)) (List.length verts) in
  let result phase c :=
    mkSim (m_particles s ++ map (joined phase tag) verts) (m_bodies s)
          (append STANDARD (List.length (heap s)) (m_globalConstraints s))
          (m_gravity s) (m_xBoundaries s) (m_yBoundaries s) (m_point s)
          (m_dimensions s) (m_standardSolver s) (m_contactSolver s) (debug s)
          (heap s ++ [Some c]) in
  createFluid tag verts density s
  = (if existsb (fun q => (imass q =? 0)%float) verts
     then Exited 1 "A fluid cannot have a point of infinite mass."
     else Returned (result FLUID (TotalFluidConstraint density indices)))
  /\ createGas tag verts density s
     = (if existsb (fun q => (imass q =? 0)%float) verts
        then Exited 1 "A fluid cannot have a point of infinite mass."
        else Returned (result GAS (GasConstraint density indices)))
  /\ (forall phase c g,
        at_ g (m_globalConstraints (result phase c))
        = at_ g (m_globalConstraints s)
          ++ (if decide (g = STANDARD) then [List.length (heap s)] else []))
  /\ (forall phase c, deref (heap (result phase c)) (List.length (heap s)) = Some c)
  /\ (forall phase c a, a < List.length (heap s) ->
                        deref (heap (result phase c)) a = deref (heap s) a)
  /\ (forall phase c,
        getNumParticles (result phase c)
        = (getNumParticles s + Z.of_nat (List.length verts))%Z).
Proof.
  intros indices result. split_and!.
  - apply create_group_spec.
  - apply create_group_spec.
  - intros phase c g. simpl. destruct (decide (g = STANDARD)) as [->|Hne].
    + apply at_append_eq.
    + rewrite at_append_ne by done. by rewrite app_nil_r.
  - intros phase c. simpl. unfold deref.
    rewrite lookup_app_r by done. by rewrite Nat.sub_diag.
  - intros phase c a Ha. simpl. by apply deref_app_l.
  - intros phase c. unfold getNumParticles. simpl.
    rewrite length_app, length_map. lia.
Qed.
End FluidGroups.

(** ** Simulations on which [tick] cannot exit *)

Section WellFormed.
Context (cfg : Config) {Solver : Type} (ext : Externals Solver).
Implicit Type s : Simulation Solver.

(** Every body's shape slot points to a live [TotalShapeConstraint], and no
    global list of temporary constraints is in use: [simulation.cpp] appends
    to the global STANDARD list only. *)
Definition well_formed s : Prop :=
  forallb (holds_shape (heap s)) (m_bodies s) = true
  /\ at_ CONTACT (m_globalConstraints s) = []
  /\ at_ STABILIZATION (m_globalConstraints s) = [].

Lemma holds_shape_ext (h h' : Store) b :
  (forall a, a < List.length h -> deref h' a = deref h a) ->
  holds_shape h b = true -> holds_shape h' b = true.
Proof.
  intros Hext. unfold holds_shape. destruct (Body.shape b) as [a|]; [|done].
  destruct (deref h a) as [c|] eqn:E; [|done]. intros Hc.
  rewrite Hext, E; [done|]. unfold deref in E.
  destruct (h !! a) eqn:El; [|done]. by apply lookup_lt_Some in El.
Qed.

Lemma all_hold_shape_ext (h h' : Store) bodies :
  (forall a, a < List.length h -> deref h' a = deref h a) ->
  forallb (holds_shape h) bodies = true -> forallb (holds_shape h') bodies = true.
Proof.
  intros Hext. induction bodies as [|b bodies IH]; simpl; [done|].
  intros [Hb Hrest]%andb_prop. rewrite (holds_shape_ext h h' b Hext Hb). by apply IH.
Qed.

Lemma tick_well_formed s seconds :
  well_formed s ->
  exists s', tick cfg ext s seconds = Returned s' /\ well_formed s'.
Proof.
  intros (Hb & Hc & Hs).
  pose proof (gather_spec s) as Hgather. rewrite Hb in Hgather.
  assert (Ht : exists s', tick cfg ext s seconds = Returned s').
  { unfold tick. rewrite tick_frame_phases, Hgather. by eexists. }
  destruct Ht as [s' Ht]. exists s'. split; [done|].
  destruct (tick_store cfg ext s seconds s' Ht) as (_ & _ & T3 & T4 & _).
  destruct (tick_settings cfg ext s seconds s' Ht) as [Hset _].
  unfold settings in Hset. injection Hset as _ _ _ _ _ _ Hbodies.
  split_and!.
  - rewrite Hbodies. apply (all_hold_shape_ext (heap s)); [|done].
    intros a Ha. apply T3; [done|rewrite Hc|rewrite Hs]; apply not_elem_of_nil.
  - by rewrite T4.
  - by rewrite T4.
Qed.

(** X14.  On a simulation whose bodies all hold a live shape constraint and
    whose global CONTACT and STABILIZATION lists are empty, [tick] never
    takes its [exit(1)]: any number of ticks return, and the simulation they
    leave is again of that kind. *)
Theorem ticks_never_exit n s seconds :
  well_formed s ->
  exists s', ticks cfg ext n s seconds = Returned s' /\ well_formed s'.
Proof.
  revert s. induction n as [|n IH]; intros s Hs; simpl.
  - by exists s.
  - destruct (tick_well_formed s seconds Hs) as (s1 & -> & Hs1). by apply IH.
Qed.

Lemma createRigidBody_returned verts sdfData s s' b :
  createRigidBody ext verts sdfData s = Returned (s', b) ->
  m_bodies s' = m_bodies s ++ [b]
  /\ heap s' = heap s ++ [Some (TotalShapeConstraint (List.length (m_bodies s)))]
  /\ Body.shape b = Some (List.length (heap s))
  /\ m_globalConstraints s' = m_globalConstraints s.
Proof.
  unfold createRigidBody. destruct (decide _); [done|].
  destruct (add_vertices _ _ _ _ _ _) as [acc| |]; [|done..]. simpl.
  by intros [= <- <-].
Qed.

(** X15.  A body that [createRigidBody] returns passes the check at the
    start of [tick]: its shape slot points to the [TotalShapeConstraint]
    that was allocated for it, which names the body by its position in
    [m_bodies]; the bodies that passed the check before still do; and the
    next [tick] returns. *)
Theorem created_body_passes_check verts sdfData s s' b seconds :
  createRigidBody ext verts sdfData s = Returned (s', b) ->
  well_formed s ->
  m_bodies s' !! List.length (m_bodies s) = Some b
  /\ (exists a, Body.shape b = Some a
                /\ deref (heap s') a = Some (TotalShapeConstraint (List.length (m_bodies s)))
                /\ deref (heap s) a = None)
  /\ well_formed s'
  /\ exists s'', tick cfg ext s' seconds = Returned s''.
Proof.
  intros (Hbodies & Hheap & Hshape & Hgc)%createRigidBody_returned (Hb & Hc & Hs).
  assert (Hnew : deref (heap s') (List.length (heap s))
                 = Some (TotalShapeConstraint (List.length (m_bodies s))))
    by (rewrite Hheap; apply deref_alloc).
  assert (Hwf : well_formed s').
  { split_and!; [|by rewrite Hgc..].
    rewrite Hbodies, forallb_app. apply andb_true_intro. split.
    - apply (all_hold_shape_ext (heap s)); [|done].
      intros a Ha. rewrite Hheap. by apply deref_app_l.
    - simpl. unfold holds_shape. by rewrite Hshape, Hnew. }
  split_and!.
  - rewrite Hbodies. by apply list_lookup_middle.
  - exists (List.length (heap s)). split_and!; [done..|].
    unfold deref. by rewrite lookup_ge_None_2.
  - done.
  - destruct (tick_well_formed s' seconds Hwf) as (s'' & Ht & _). by exists s''.
Qed.

(** X16.  The constraint of a gas or fluid group outlives the ticks.  On a
    simulation as in X14, after [createGas] or [createFluid] has returned
    and any number of ticks have, the global STANDARD list still holds the
    pointer that was appended, the object it points to is the constraint
    that was created, on the same indices, and every tick gathered it. *)
Theorem fluid_group_outlives_ticks (gas : bool) tag verts density s s1 n seconds s2 :
  well_formed s ->
  (if gas then createGas tag verts density s else createFluid tag verts density s)
  = Returned s1 ->
  ticks cfg ext n s1 seconds = Returned s2 ->
  let indices := seq (List.length (m_particles s)) (List.length verts) in
  let c := if gas then GasConstraint density indices
           else TotalFluidConstraint density indices in
  well_formed s1
  /\ at_ STANDARD (m_globalConstraints s2)
     = at_ STANDARD (m_globalConstraints s) ++ [List.length (heap s)]
  /\ deref (heap s2) (List.length (heap s)) = Some c
  /\ (exists f0, gather s2 = Returned f0
                 /\ List.length (heap s) ∈ at_ STANDARD (constraints f0)).
Proof.
  intros (Hb & Hc & Hs) Hcreate Hticks indices c.
  assert (Hs1 : s1 = mkSim (m_particles s ++ map (joined (if gas then GAS else FLUID) tag) verts)
                       (m_bodies s)
                       (append STANDARD (List.length (heap s)) (m_globalConstraints s))
                       (m_gravity s) (m_xBoundaries s) (m_yBoundaries s) (m_point s)
                       (m_dimensions s) (m_standardSolver s) (m_contactSolver s) (debug s)
                       (heap s ++ [Some c])).
  { destruct gas; unfold createGas, createFluid in Hcreate;
      rewrite create_group_spec in Hcreate;
      destruct (existsb _ _); try done; by injection Hcreate as <-. }
  assert (Hwf : well_formed s1).
  { rewrite Hs1. split_and!; simpl.
    - apply (all_hold_shape_ext (heap s)); [|done]. intros a Ha. by apply deref_app_l.
    - by rewrite at_append_ne.
    - by rewrite at_append_ne. }
  destruct (ticks_store cfg ext n s1 seconds s2 Hticks) as (_ & T2 & T3).
  assert (Hstd : at_ STANDARD (m_globalConstraints s2)
                 = at_ STANDARD (m_globalConstraints s) ++ [List.length (heap s)]).
  { rewrite T2, Hs1. simpl. apply at_append_eq. }
  split_and!; [done|done| |].
  - rewrite T3.
    + rewrite Hs1. simpl. apply deref_alloc.
    + rewrite Hs1. simpl. rewrite length_app. simpl. lia.
    + destruct Hwf as (_ & -> & _). apply not_elem_of_nil.
    + destruct Hwf as (_ & _ & ->). apply not_elem_of_nil.
  - assert (Hwf2 : well_formed s2).
    { clear -Hwf Hticks. revert s1 Hwf Hticks. induction n as [|n IH]; intros s1 Hwf; simpl.
      - by intros [= <-].
      - destruct (tick_well_formed s1 seconds Hwf) as (s' & -> & Hs'). by apply IH. }
    destruct Hwf2 as (Hb2 & _).
    pose proof (gather_spec s2) as Hg. rewrite Hb2 in Hg.
    eexists. split; [exact Hg|].
    rewrite (gather_lists s2 _ STANDARD Hg), Hstd.
    destruct (decide (SHAPE = STANDARD)); [done|]. simpl.
    apply elem_of_app. right. by apply list_elem_of_singleton.
Qed.
End WellFormed.

(** ** [getKineticEnergy] and the edge of [mousePressed] *)

Section Queries.
Context {Solver : Type}.
Implicit Type s : Simulation Solver.

(** The term a movable particle adds: [.5 * dot(v, v) / imass] *)
Definition particle_energy (q : Particle) : double :=
  (0.5 * glm.dot (v q) (v q) / imass q)%float.

Definition movable (q : Particle) : Prop := (imass q =? 0)%float = false.

#[local] Instance movable_dec q : Decision (movable q).
Proof. unfold movable. apply _. Defined.

Lemma energy_of_movable (ps : list Particle) (e : double) :
  foldl add_energy e ps
  = foldl (fun acc q => (acc + particle_energy q)%float) e (filter movable ps).
Proof.
  revert e. induction ps as [|q ps IH]; intros e; [done|].
  simpl. rewrite IH. unfold add_energy.
  rewrite filter_cons. destruct (decide (movable q)) as [Hq|Hq]; unfold movable in Hq.
  - by rewrite Hq.
  - apply not_false_is_true in Hq. by rewrite Hq.
Qed.

(** X17.  [getKineticEnergy] sums [.5 * dot(v, v) / imass] over the particles
    with [imass != 0], in the order of [m_particles], from 0; particles with
    [imass = 0] add nothing, whatever their velocity, so no division by zero
    is made, and a simulation whose particles all have [imass = 0] has the
    energy 0 exactly. *)
Theorem kinetic_energy_of_movable s :
  getKineticEnergy s
  = foldl (fun acc q => (acc + particle_energy q)%float) 0%float
          (filter movable (m_particles s))
  /\ ((forall q, q ∈ m_particles s -> (imass q =? 0)%float = true) ->
      getKineticEnergy s = 0%float).
Proof.
  split; [apply energy_of_movable|].
  intros Hall. unfold getKineticEnergy. rewrite energy_of_movable.
  assert (Hnone : filter movable (m_particles s) = []).
  { induction (m_particles s) as [|q ps IH]; [done|].
    rewrite filter_cons. destruct (decide (movable q)) as [Hq|_].
    - unfold movable in Hq. rewrite Hall in Hq; [done|left].
    - apply IH. intros q' Hq'. apply Hall. by right. }
  by rewrite Hnone.
Qed.

(** Floating-point facts used below, from the specification of the
    primitive operations. *)
Lemma sub_self_zero (a : double) :
  PrimFloat.is_finite a = true -> Prim2SF (a - a) = S754_zero false.
Proof.
  unfold PrimFloat.is_finite, PrimFloat.is_nan, PrimFloat.is_infinity.
  rewrite !FloatAxioms.eqb_spec, FloatAxioms.abs_spec, FloatAxioms.sub_spec.
  change (Prim2SF infinity) with (S754_infinity false).
  destruct (Prim2SF a) as [sgn|sgn| |sgn m e].
  - intros _. by destruct sgn.
  - by destruct sgn.
  - done.
  - intros _. unfold SF64sub, SFsub. cbv zeta. rewrite Z.sub_diag. reflexivity.
Qed.

Lemma normalize_zero_nan (a b : double) sa sb :
  Prim2SF a = S754_zero sa -> Prim2SF b = S754_zero sb ->
  Prim2SF (a * (1 / PrimFloat.sqrt (a * a + b * b))) = S754_nan
  /\ Prim2SF (b * (1 / PrimFloat.sqrt (a * a + b * b))) = S754_nan.
Proof.
  intros Ha Hb.
  rewrite !FloatAxioms.mul_spec, !FloatAxioms.div_spec, !FloatAxioms.sqrt_spec,
    !FloatAxioms.add_spec, !FloatAxioms.mul_spec, Ha, Hb.
  by destruct sa, sb.
Qed.

Lemma add_seven_nan (u a : double) :
  Prim2SF a = S754_nan -> PrimFloat.is_nan (u + 7 * a) = true.
Proof.
  intros Ha. unfold PrimFloat.is_nan.
  rewrite FloatAxioms.eqb_spec, FloatAxioms.add_spec, FloatAxioms.mul_spec, Ha.
  change (SF64mul (Prim2SF 7) S754_nan) with S754_nan.
  by destruct (Prim2SF u).
Qed.

(** X18.  A press on a particle.  [glm::normalize] of the zero vector is
    [0 * (1 / sqrt(0))]: a particle whose position is the point pressed (at
    finite coordinates) leaves [mousePressed] with a velocity whose two
    components are NaN, whatever its velocity was; its position is as
    before. *)
Theorem mouse_press_on_a_particle (pt : dvec2) s i part :
  m_particles s !! i = Some part ->
  p part = pt ->
  PrimFloat.is_finite (glm.x pt) = true ->
  PrimFloat.is_finite (glm.y pt) = true ->
  exists part',
    m_particles (mousePressed pt s) !! i = Some part'
    /\ p part' = pt
    /\ PrimFloat.is_nan (glm.x (v part')) = true
    /\ PrimFloat.is_nan (glm.y (v part')) = true.
Proof.
  intros Hi Hp Hx Hy. exists (push_particle pt part).
  destruct (normalize_zero_nan (glm.x pt - glm.x pt)%float (glm.y pt - glm.y pt)%float
              false false)
    as [Nx Ny]; [by apply sub_self_zero..|].
  split_and!.
  - unfold mousePressed. simpl. rewrite for_particles_map, list_lookup_fmap, Hi. done.
  - done.
  - unfold push_particle. rewrite Hp. simpl. by apply add_seven_nan.
  - unfold push_particle. rewrite Hp. simpl. by apply add_seven_nan.
Qed.
End Queries.

(** ** The batched solver pass *)

Section BatchedSolver.
Context (cfg : Config) {Solver : Type} (ext : Externals Solver).
Implicit Type f : Frame Solver.

(** One iteration as the comments of lines 241-255 describe it: the contact
    solver on CONTACT, then the standard solver on STANDARD, then the SHAPE
    list swept; a solver is not called on an empty list. *)
Definition batched_step (bodies : list Body.t) (h : Store) (cs : QHash)
           (x : Solver * Solver * list Particle) : Solver * Solver * list Particle :=
  let after_contact :=
    match at_ CONTACT cs with
    | [] => (x.1.2, x.2)
    | _ :: _ => solveAndUpdate ext x.1.2 bodies h x.2 (at_ CONTACT cs) None
    end in
  let after_standard :=
    match at_ STANDARD cs with
    | [] => (x.1.1, after_contact.2)
    | _ :: _ => solveAndUpdate ext x.1.1 bodies h after_contact.2 (at_ STANDARD cs) None
    end in
  (after_standard.1, after_contact.1, sweep ext bodies h (at_ SHAPE cs) after_standard.2).

Lemma solve_batched_iteration_step bodies h cs x :
  solve_batched_iteration ext bodies h cs x = batched_step bodies h cs x.
Proof.
  destruct x as [[standard contact] ps].
  unfold solve_batched_iteration, batched_step, project_group, sweep. cbn [fst snd].
  destruct (at_ CONTACT cs) as [|a1 l1] eqn:E1.
  - destruct (decide (0 < List.length (@nil ptr))) as [Hn|_]; [simpl in Hn; lia|].
    destruct (at_ STANDARD cs) as [|a2 l2] eqn:E2.
    + destruct (decide (0 < List.length (@nil ptr))) as [Hn|_]; [simpl in Hn; lia|].
      destruct (decide _) as [|Hn]; [done|].
      destruct (at_ SHAPE cs); [done|simpl in Hn; lia].
    + destruct (decide (0 < List.length (a2 :: l2))) as [_|Hn]; [|simpl in Hn; lia].
      destruct (solveAndUpdate _ _ _ _ _ _ _) as [st1 ps1]. cbn [fst snd].
      destruct (decide _) as [|Hn]; [done|].
      destruct (at_ SHAPE cs); [done|simpl in Hn; lia].
  - destruct (decide (0 < List.length (a1 :: l1))) as [_|Hn]; [|simpl in Hn; lia].
    destruct (solveAndUpdate ext contact bodies h ps (a1 :: l1) None) as [ct1 ps1].
    cbn [fst snd].
    destruct (at_ STANDARD cs) as [|a2 l2] eqn:E2.
    + destruct (decide (0 < List.length (@nil ptr))) as [Hn|_]; [simpl in Hn; lia|].
      destruct (decide _) as [|Hn]; [done|].
      destruct (at_ SHAPE cs); [done|simpl in Hn; lia].
    + destruct (decide (0 < List.length (a2 :: l2))) as [_|Hn]; [|simpl in Hn; lia].
      destruct (solveAndUpdate _ _ _ _ _ _ _) as [st1 ps2]. cbn [fst snd].
      destruct (decide _) as [|Hn]; [done|].
      destruct (at_ SHAPE cs); [done|simpl in Hn; lia].
Qed.

Lemma solve_batched_iter n bodies h cs x :
  solve_batched ext n bodies h cs x = Nat.iter n (batched_step bodies h cs) x.
Proof.
  revert x. induction n as [|n IH]; intros x; [done|].
  cbn [solve_batched]. by rewrite IH, Nat.iter_succ_r, solve_batched_iteration_step.
Qed.

(** X19.  The solver pass in batched mode (lines 233-258).  Both solvers are
    sized once before the loop, the standard solver on the STANDARD list and
    the contact solver on the CONTACT list; then [SOLVER_ITERATIONS]
    iterations follow, each one the contact solver on CONTACT, then the
    standard solver on STANDARD, then a sweep over SHAPE, every step on the
    particles and the solver state left by the step before.  A solver whose
    list is empty is never called.  The lists and the store are as before. *)
Theorem batched_solver_pass f :
  ITERATIVE cfg = false ->
  let s := sim f in
  let cs := constraints f in
  let s' := sim (solve cfg ext f) in
  (m_standardSolver s', m_contactSolver s', m_particles s')
  = Nat.iter (Z.to_nat (SOLVER_ITERATIONS cfg))
      (batched_step (m_bodies s) (heap s) cs)
      (setupSizes ext (m_standardSolver s) (List.length (m_particles s)) (heap s)
                  (at_ STANDARD cs),
       setupSizes ext (m_contactSolver s) (List.length (m_particles s)) (heap s)
                  (at_ CONTACT cs),
       m_particles s)
  /\ (at_ CONTACT cs = [] ->
      m_contactSolver s'
      = setupSizes ext (m_contactSolver s) (List.length (m_particles s)) (heap s) [])
  /\ (at_ STANDARD cs = [] ->
      m_standardSolver s'
      = setupSizes ext (m_standardSolver s) (List.length (m_particles s)) (heap s) [])
  /\ constraints (solve cfg ext f) = cs
  /\ heap s' = heap s.
Proof.
  intros Hit s cs s'. subst s s' cs. unfold solve. rewrite Hit. cbn [sim constraints].
  rewrite solve_batched_iter.
  set (step := batched_step (m_bodies (sim f)) (heap (sim f)) (constraints f)).
  set (n := Z.to_nat (SOLVER_ITERATIONS cfg)).
  split_and!; [|..|done|done].
  - simpl. by destruct (Nat.iter n step _) as [[st ct] ps].
  - intros Hc. simpl. rewrite Hc.
    generalize (setupSizes ext (m_standardSolver (sim f)) (List.length (m_particles (sim f)))
                           (heap (sim f)) (at_ STANDARD (constraints f))) as st0.
    generalize (m_particles (sim f)) at 2 as ps0.
    induction n as [|n IH]; intros ps0 st0; [done|].
    rewrite Nat.iter_succ_r. unfold step at 2, batched_step. rewrite Hc. cbn [fst snd].
    apply IH.
  - intros Hc. simpl. rewrite Hc.
    generalize (setupSizes ext (m_contactSolver (sim f)) (List.length (m_particles (sim f)))
                           (heap (sim f)) (at_ CONTACT (constraints f))) as ct0.
    generalize (m_particles (sim f)) at 2 as ps0.
    induction n as [|n IH]; intros ps0 ct0; [done|].
    rewrite Nat.iter_succ_r. unfold step at 2, batched_step. rewrite Hc. cbn [fst snd].
    apply IH.
Qed.
End BatchedSolver.

(** ** More edges: global temporary constraints, short SDF lists, [clear] *)

Section Edges.
Context (cfg : Config) {Solver : Type} (ext : Externals Solver).
Implicit Type s : Simulation Solver.

(** X20.  A constraint in a global CONTACT or STABILIZATION list does not
    outlive a tick, but its pointer does: the tick gathers it into the local
    list, the teardown deletes the object, and the global list, which is not
    touched, still holds the pointer, so the next tick gathers a pointer to
    a deleted object. *)
Theorem global_contact_dangles s seconds s' g a :
  tick cfg ext s seconds = Returned s' ->
  g = CONTACT \/ g = STABILIZATION ->
  a ∈ at_ g (m_globalConstraints s) ->
  deref (heap s') a = None
  /\ a ∈ at_ g (m_globalConstraints s')
  /\ forall f1, gather s' = Returned f1 -> a ∈ at_ g (constraints f1).
Proof.
  intros Ht Hg Ha.
  destruct (tick_store cfg ext s seconds s' Ht) as (_ & T2 & _ & T4 & _).
  split_and!.
  - apply T2. destruct Hg as [-> | ->]; auto.
  - by rewrite T4.
  - intros f1 Hf1. rewrite (gather_lists s' f1 g Hf1), T4.
    apply elem_of_app. by right.
Qed.

(** X21.  [createRigidBody] with fewer SDF entries than vertices does not
    complete within what Qt defines.  With at least two vertices the loop
    checks the mass of a vertex before it reads the vertex's SDF entry: it
    exits with the infinite-mass diagnostic when one of the vertices that
    have an entry, or the first one that has none, has [imass = 0];
    otherwise it calls [sdfData->at(i)] with [i = sdfData->size()], a call
    out of range, which Qt leaves undefined (an assertion failure in a debug
    build). *)
Theorem createRigidBody_short_sdf (verts : list Particle) (sdfData : list SDFData) s :
  List.length sdfData < List.length verts ->
  createRigidBody ext verts sdfData s
  = if decide (List.length verts <= 1)
    then Exited 1 "Rigid bodies must be at least 2 points."
    else if existsb (fun q => (imass q =? 0)%float) (take (S (List.length sdfData)) verts)
         then Exited 1 "A rigid body cannot have a point of infinite mass."
         else OutOfRange.
Proof.
  intros Hlen. unfold createRigidBody. destruct (decide _); [done|].
  rewrite add_vertices_short by lia. rewrite Nat.sub_0_r.
  by destruct (existsb _ _).
Qed.

Lemma clear_well_formed s : well_formed (clear s).
Proof.
  split_and!.
  - by rewrite clear_bodies.
  - apply clear_global_lists.
  - apply clear_global_lists.
Qed.

(** X22.  After [clear], ticks return: whatever the simulation held (bodies
    with an empty shape slot included), the cleared simulation has no body
    to check and no global constraint, and any number of ticks leave it
    that way. *)
Theorem cleared_simulation_ticks n s seconds :
  exists s', ticks cfg ext n (clear s) seconds = Returned s'
             /\ m_bodies s' = []
             /\ forall g, at_ g (m_globalConstraints s') = [].
Proof.
  assert (Hgen : forall s0 : Simulation Solver,
             well_formed s0 ->
             exists s', ticks cfg ext n s0 seconds = Returned s'
                        /\ m_bodies s' = m_bodies s0
                        /\ forall g, at_ g (m_globalConstraints s')
                                     = at_ g (m_globalConstraints s0)).
  { induction n as [|n IH]; intros s0 Hs0; simpl.
    - by exists s0.
    - destruct (tick_well_formed cfg ext s0 seconds Hs0) as (s1 & Ht & Hs1). rewrite Ht.
      destruct (IH s1 Hs1) as (s' & Hn & Hb & Hgc). exists s'. split; [done|].
      destruct (tick_store cfg ext s0 seconds s1 Ht) as (_ & _ & _ & T4 & _).
      destruct (tick_settings cfg ext s0 seconds s1 Ht) as [Hset _].
      unfold settings in Hset. injection Hset as _ _ _ _ _ _ Hbodies.
      split; [congruence|]. intros g. by rewrite Hgc, T4. }
  destruct (Hgen (clear s) (clear_well_formed s)) as (s' & Hn & Hb & Hgc).
  exists s'. split_and!; [done| |].
  - by rewrite Hb, clear_bodies.
  - intros g. by rewrite Hgc, clear_global_lists.
Qed.
End Edges.

(** * Worked examples for the rest of the driver *)

(** The reference constants without stabilization, and in batched mode. *)
Definition without_stabilization : Config :=
  mkConfig 1%float 0.5%float 0x1p-20%float 0.5%float 0x1p-20%float 5 2 false true.

Definition batched_config : Config :=
  mkConfig 1%float 0.5%float 0x1p-20%float 0.5%float 0x1p-20%float 2 2 true false.

(** Externals that record: a projection appends a particle tagged with the
    constraint, a solver call one tagged with the length of its list (and
    100 more under the stabilizing flag); the solver counts its calls. *)
Definition counting_externals : Externals nat :=
  mkExternals nat
    (fun q => q)
    (fun _ c ps => ps ++ [set_bod (particle_at glm.zero 1%float FLUID) (constraint_tag c)])
    (fun sv _ _ => sv)
    (fun sv _ _ _ => sv)
    (fun sv _ _ ps l stabile =>
       (S sv, ps ++ [set_bod (particle_at glm.zero 1%float GAS)
                       (Z.of_nat (List.length l)
                        + match stabile with Some true => 100 | _ => 0 end)]))
    (fun b _ _ => b)
    (fun b _ => b).

(** *** X1: a grain that has sunk into the floor *)

Definition sunk_grain : Particle := placed (glm.vec2 0%float 0.25%float) 1%float SOLID.
Definition on_the_floor : Frame unit := mkFrame (open_field [sunk_grain]) ∅.

Lemma boundary_contact_discovery_witness :
  BoundaryConstraint 0 0%float false true None
    ∈ created CONTACT on_the_floor (discover reference_config inert_externals on_the_floor)
  /\ BoundaryConstraint 0 0%float true true None
    ∉ created CONTACT on_the_floor (discover reference_config inert_externals on_the_floor).
Proof.
  split.
  - apply (boundary_contact_discovery reference_config inert_externals on_the_floor
             0 sunk_grain 0%float false true None); [reflexivity|].
    split; reflexivity.
  - intros Hin.
    apply (boundary_contact_discovery reference_config inert_externals on_the_floor
             0 sunk_grain 0%float true true None) in Hin as [Hside _]; [|reflexivity].
    vm_compute in Hside. discriminate Hside.
Defined.

(** *** X2, X3, X4: the two overlapping grains of C1 *)

Lemma stabilization_twins_witness :
  created STABILIZATION two_grains (discover reference_config inert_externals two_grains)
  = [RigidContactConstraint 0 1].
Proof.
  rewrite (stabilization_twins reference_config inert_externals two_grains); [|reflexivity].
  vm_compute. reflexivity.
Defined.

Lemma stabilization_disabled_witness :
  created STABILIZATION two_grains (discover without_stabilization inert_externals two_grains)
  = []
  /\ stabilize without_stabilization inert_externals two_grains = two_grains.
Proof.
  destruct (stabilization_disabled without_stabilization inert_externals two_grains)
    as (H1 & _ & H3); [reflexivity|].
  split; [exact H1 | exact H3].
Defined.

Lemma discovered_indices_valid_witness :
  refers_below 2 (RigidContactConstraint 0 1).
Proof.
  apply (discovered_indices_valid reference_config inert_externals two_grains CONTACT).
  vm_compute. left.
Defined.

(** *** X6, X7, X8, X19: the passes on one constraint per group *)

Definition counted_groups : Frame nat :=
  mkFrame
    (mkSim [] [] ∅ (glm.vec2 0%float (-9.8)%float)
           (glm.vec2 (-20)%float 20%float) (glm.vec2 0%float 1000000%float)
           glm.zero (0, 0)%Z 0 0 true
           [Some (TotalShapeConstraint 10); Some (DistanceConstraint 20 21);
            Some (ContactConstraint 30 31);
            Some (BoundaryConstraint 40 0%float true true (Some true))])
    (<[SHAPE := [0]]> (<[STANDARD := [1]]> (<[CONTACT := [2]]> (<[STABILIZATION := [3]]> ∅)))).

Definition shapes_only : Frame nat :=
  mkFrame (sim counted_groups) (<[SHAPE := [0; 0]]> ∅).

Lemma stabilization_pass_iterative_witness :
  map bod (m_particles (sim (stabilize two_iterations recording_externals one_per_group)))
  = [40; 40]%Z.
Proof.
  destruct (stabilization_pass_iterative two_iterations recording_externals one_per_group)
    as (-> & _); [reflexivity|reflexivity|]. vm_compute. reflexivity.
Defined.

Lemma stabilization_pass_batched_witness :
  m_contactSolver (sim (stabilize batched_config counting_externals counted_groups)) = 2
  /\ map bod (m_particles (sim (stabilize batched_config counting_externals counted_groups)))
     = [101; 101]%Z.
Proof.
  pose proof (stabilization_pass_batched batched_config counting_externals counted_groups
                eq_refl eq_refl) as H.
  set (s' := sim (stabilize batched_config counting_externals counted_groups)) in *.
  split.
  - change (m_contactSolver s') with (m_contactSolver s', m_particles s').1.
    rewrite H. vm_compute. reflexivity.
  - change (m_particles s') with (m_contactSolver s', m_particles s').2.
    rewrite H. vm_compute. reflexivity.
Defined.

(** Externals as above whose [setupSizes] leaves a mark as well: it adds
    10 to the solver. *)
Definition sizing_externals : Externals nat :=
  mkExternals nat
    (scaleMass counting_externals) (project counting_externals)
    (setupM counting_externals)
    (fun sv _ _ _ => 10 + sv)
    (solveAndUpdate counting_externals)
    (updateCOM counting_externals) (computeRs counting_externals).

Lemma solver_pass_shapes_only_witness :
  map bod (m_particles (sim (solve batched_config sizing_externals shapes_only)))
  = [10; 10; 10; 10]%Z
  /\ m_standardSolver (sim (solve batched_config sizing_externals shapes_only)) = 10
  /\ m_contactSolver (sim (solve batched_config sizing_externals shapes_only)) = 10
  /\ map bod (m_particles (sim (solve two_iterations sizing_externals shapes_only)))
     = [10; 10; 10; 10]%Z
  /\ m_standardSolver (sim (solve two_iterations sizing_externals shapes_only)) = 0
  /\ m_contactSolver (sim (solve two_iterations sizing_externals shapes_only)) = 0.
Proof.
  destruct (solver_pass_shapes_only batched_config sizing_externals shapes_only)
    as (Hb & _ & _ & _ & Hbs); [reflexivity|reflexivity|].
  destruct (solver_pass_shapes_only two_iterations sizing_externals shapes_only)
    as (Hi & _ & _ & His & _); [reflexivity|reflexivity|].
  destruct (Hbs eq_refl) as [Hb1 Hb2]. destruct (His eq_refl) as [Hi1 Hi2].
  split_and!.
  - rewrite Hb. vm_compute. reflexivity.
  - rewrite Hb1. reflexivity.
  - rewrite Hb2. reflexivity.
  - rewrite Hi. vm_compute. reflexivity.
  - rewrite Hi1. reflexivity.
  - rewrite Hi2. reflexivity.
Defined.

Lemma batched_solver_pass_witness :
  m_contactSolver (sim (solve batched_config counting_externals counted_groups)) = 2
  /\ m_standardSolver (sim (solve batched_config counting_externals counted_groups)) = 2
  /\ map bod (m_particles (sim (solve batched_config counting_externals counted_groups)))
     = [1; 1; 10; 1; 1; 10]%Z.
Proof.
  destruct (batched_solver_pass batched_config counting_externals counted_groups eq_refl)
    as (H & _).
  cbv zeta in H.
  set (s' := sim (solve batched_config counting_externals counted_groups)) in *.
  split_and!.
  - change (m_contactSolver s')
      with (m_standardSolver s', m_contactSolver s', m_particles s').1.2.
    rewrite H. vm_compute. reflexivity.
  - change (m_standardSolver s')
      with (m_standardSolver s', m_contactSolver s', m_particles s').1.1.
    rewrite H. vm_compute. reflexivity.
  - change (m_particles s')
      with (m_standardSolver s', m_contactSolver s', m_particles s').2.
    rewrite H. vm_compute. reflexivity.
Defined.

(** *** X9, X10: a grain in free fall *)

Definition falling : Simulation unit := open_field [left_grain].

Lemma tick_free_flight_witness :
  exists s',
    tick reference_config inert_externals falling 1%float = Returned s'
    /\ map p (m_particles s') = [glm.vec2 0%float 90.2%float]
    /\ heap s' = [].
Proof.
  destruct (tick_free_flight reference_config inert_externals falling 1%float)
    as (s' & Ht & Hps & Hh).
  - reflexivity.
  - intros g. apply at_empty.
  - vm_compute. reflexivity.
  - exists s'. split_and!; [exact Ht| |exact Hh].
    rewrite Hps. vm_compute. reflexivity.
Defined.

Lemma tick_leaves_settings_witness :
  exists s',
    tick reference_config inert_externals falling 1%float = Returned s'
    /\ m_gravity s' = glm.vec2 0%float (-9.8)%float
    /\ m_xBoundaries s' = glm.vec2 (-20)%float 20%float.
Proof.
  destruct (tick reference_config inert_externals falling 1%float) as [s'| |] eqn:E;
    [|vm_compute in E; discriminate E..].
  exists s'. split; [reflexivity|].
  destruct (tick_leaves_settings reference_config inert_externals falling 1%float s' E)
    as (Hg & Hx & _).
  split; [exact Hg | exact Hx].
Defined.

(** *** X11, X12: the tethered grain of C10

    Only STANDARD is a key of the global hash: its size is 1.  The loop
    reads the groups 0 and 1, which inserts them, then gathers STANDARD at
    index 2 and stops at 3, the size by then. *)
Lemma global_constraints_all_gathered_witness :
  exists s',
    tick reference_config inert_externals tethered 1%float = Returned s'
    /\ at_ STANDARD (m_globalConstraints s') = [0; 1]
    /\ exists k, forall g, is_Some (m_globalConstraints s' !! g) <-> group_index g < k.
Proof.
  destruct (tick reference_config inert_externals tethered 1%float) as [s'| |] eqn:E;
    [|vm_compute in E; discriminate E..].
  exists s'. split; [reflexivity|].
  destruct (global_constraints_all_gathered reference_config inert_externals tethered
              1%float s' E) as (_ & Hlists & _ & Hkeys).
  split; [|exact Hkeys]. rewrite Hlists. reflexivity.
Defined.

Definition overlapping_grains : Simulation unit := open_field [left_grain; right_grain].

Lemma ticks_leave_no_contact_witness :
  exists s',
    ticks reference_config inert_externals 3 overlapping_grains 1%float = Returned s'
    /\ forall a, deref (heap s') a = None.
Proof.
  destruct (ticks reference_config inert_externals 3 overlapping_grains 1%float)
    as [s'| |] eqn:E; [|vm_compute in E; discriminate E..].
  exists s'. split; [reflexivity|].
  destruct (ticks_leave_no_contact reference_config inert_externals 3 overlapping_grains
              1%float s' E) as (Hnew & _).
  intros a. apply Hnew. simpl. lia.
Defined.

(** *** X14, X15: the body of C7 *)

Definition with_body : Simulation unit :=
  match createRigidBody inert_externals [left_grain; right_grain] [flat_sdf; flat_sdf]
                        (open_field [origin_grain]) with
  | Returned (s', _) => s'
  | _ => open_field []
  end.

Lemma ticks_never_exit_witness :
  exists s', ticks reference_config inert_externals 3 with_body 1%float = Returned s'
             /\ well_formed s'.
Proof.
  apply (ticks_never_exit reference_config inert_externals 3 with_body 1%float).
  split_and!; vm_compute; reflexivity.
Defined.

Lemma created_body_passes_check_witness :
  exists s'', tick reference_config inert_externals with_body 1%float = Returned s''.
Proof.
  unfold with_body.
  destruct (createRigidBody inert_externals [left_grain; right_grain] [flat_sdf; flat_sdf]
              (open_field [origin_grain])) as [[s' b]| |] eqn:E;
    [|vm_compute in E; discriminate E..].
  destruct (created_body_passes_check reference_config inert_externals
              [left_grain; right_grain] [flat_sdf; flat_sdf] (open_field [origin_grain])
              s' b 1%float E) as (_ & _ & _ & Ht).
  - split_and!; reflexivity.
  - exact Ht.
Defined.

(** *** X16: a fluid of two particles, three ticks *)

Definition pool : Simulation unit :=
  match createFluid 7 [left_grain; right_grain] 1%float (open_field [origin_grain]) with
  | Returned s' => s'
  | _ => open_field []
  end.

Lemma fluid_group_outlives_ticks_witness :
  exists s2,
    ticks reference_config inert_externals 3 pool 1%float = Returned s2
    /\ at_ STANDARD (m_globalConstraints s2) = [0]
    /\ deref (heap s2) 0 = Some (TotalFluidConstraint 1%float [1; 2]).
Proof.
  destruct (ticks reference_config inert_externals 3 pool 1%float) as [s2| |] eqn:E;
    [|vm_compute in E; discriminate E..].
  exists s2. split; [reflexivity|].
  destruct (fluid_group_outlives_ticks reference_config inert_externals false 7
              [left_grain; right_grain] 1%float (open_field [origin_grain]) pool 3 1%float s2)
    as (_ & Hstd & Hobj & _).
  - split_and!; reflexivity.
  - vm_compute. reflexivity.
  - exact E.
  - split; [exact Hstd | exact Hobj].
Defined.

(** *** X18: a press on the particle at the origin *)

Lemma mouse_press_on_a_particle_witness :
  exists part',
    m_particles (mousePressed glm.zero (open_field [origin_grain])) !! 0 = Some part'
    /\ p part' = glm.zero
    /\ PrimFloat.is_nan (glm.x (v part')) = true
    /\ PrimFloat.is_nan (glm.y (v part')) = true.
Proof.
  apply (mouse_press_on_a_particle glm.zero (open_field [origin_grain]) 0 origin_grain);
    reflexivity.
Defined.

(** *** X20: a contact constraint entered in the global hash *)

Definition snagged : Simulation unit :=
  set_globalConstraints
    (set_heap (open_field [left_grain; right_grain]) [Some (ContactConstraint 0 1)])
    (<[CONTACT := [0]]> ∅).

Lemma global_contact_dangles_witness :
  exists s',
    tick reference_config inert_externals snagged 1%float = Returned s'
    /\ deref (heap s') 0 = None
    /\ 0 ∈ at_ CONTACT (m_globalConstraints s').
Proof.
  destruct (tick reference_config inert_externals snagged 1%float) as [s'| |] eqn:E;
    [|vm_compute in E; discriminate E..].
  exists s'. split; [reflexivity|].
  destruct (global_contact_dangles reference_config inert_externals snagged 1%float s'
              CONTACT 0 E) as (Hdead & Hkept & _).
  - by left.
  - vm_compute. left.
  - split; [exact Hdead | exact Hkept].
Defined.

(** *** X21: two vertices, one SDF entry *)

Lemma createRigidBody_short_sdf_witness :
  createRigidBody inert_externals [left_grain; right_grain] [flat_sdf] (open_field [])
  = OutOfRange.
Proof.
  rewrite (createRigidBody_short_sdf inert_externals [left_grain; right_grain] [flat_sdf]
             (open_field [])); [|simpl; lia].
  vm_compute. reflexivity.
Defined.
